(** * RiskGuard: the risk-enforcement state machine

    A shallow embedding of the enforcement code of RiskGuard:

    - [RiskguardV1.1/limits/limits.py]: the aggregate-risk enforcer
      ([enforce_aggregate_risk]) and its state file;
    - [RiskGuardv0.0.2/limits/limits_watch.py]: the loop that drives it;
    - [RiskGuardv0.0.2/news/news_windows0.1.py] and [news_windows0.2.py]:
      the two revisions of the event-window enforcer
      ([enforce_news_window]) and of the daemon around it
      ([auto_update_calendar], [run_daemon]);
    - [RiskguardV1.1/update_riskguard.py]: the updater ([main] and what
      it calls).

    Conventions of the embedding.

    - A [datetime] is a number of microseconds since the epoch ([Z]); a
      [timedelta] is a number of microseconds.  [total_seconds()] compared
      with an integer number of seconds becomes a comparison of
      microseconds.
    - A Python [float] (risk percentages, volumes, clock readings) is
      the rational value of a double; [float] rounds a number to the
      nearest double, so [total <= threshold_pct + 1e-9] compares
      [float(total)] with the rounded sum of the two doubles.
    - The collaborators that live outside the repository's sources (the
      MT5 reader, [close_position_full], [set_kill_until], [kill_status],
      the clock) are oracles: a record gives what each of their calls
      returns during one call of the enforcer, and every call with an
      effect is appended to the trace of the world.
    - An exception is a value of [Exn]; code that can raise lives in the
      monad [M] over the world. *)

From Stdlib Require Import ZArith QArith Qround Qpower Lqa String Ascii List.
From stdpp Require Import base decidable option gmap strings list sorting.

Local Open Scope Z_scope.
Local Open Scope string_scope.

(** ** Data model *)

(** One open position of the snapshot: [pos["ticket"]], [pos["symbol"]],
    [pos["type"]], [pos["volume"]], [pos["open_time"]] (absent or falsy is
    [None]). *)
Record Position := {
  ticket : Z;
  symbol : string;
  side : Z;
  volume : Q;
  open_time : option Z;
}.

(** [reader.snapshot()]: [snap["exposure"]["total_risk_pct"]] and
    [snap["positions"]]. *)
Record Snapshot := {
  total_risk_pct : Q;
  positions : list Position;
}.

(** What [kill_status()] returns: [{"active": ..., "until": ...}]. *)
Record KillStatus := {
  active : bool;
  until : option Z;
}.

(** The dictionary kept in [.riskguard_limits.json].  A missing key reads
    as its default: [st.get("baseline_tickets") or []],
    [int(st.get("block_attempts", 0))], [st.get("last_attempt_at")] and
    [bool(st.get("risk_block_active", False))]. *)
Record LimitsState := {
  baseline_tickets : list Z;
  block_attempts : Z;
  last_attempt_at : option Z;
  risk_block_active : bool;
}.

(** The empty dictionary [{}]. *)
Definition empty_state : LimitsState :=
  {| baseline_tickets := []; block_attempts := 0;
     last_attempt_at := None; risk_block_active := false |}.

Definition set_baseline_tickets (v : list Z) (st : LimitsState) : LimitsState :=
  {| baseline_tickets := v; block_attempts := block_attempts st;
     last_attempt_at := last_attempt_at st;
     risk_block_active := risk_block_active st |}.

Definition set_block_attempts (v : Z) (st : LimitsState) : LimitsState :=
  {| baseline_tickets := baseline_tickets st; block_attempts := v;
     last_attempt_at := last_attempt_at st;
     risk_block_active := risk_block_active st |}.

Definition set_last_attempt_at (v : option Z) (st : LimitsState) : LimitsState :=
  {| baseline_tickets := baseline_tickets st;
     block_attempts := block_attempts st;
     last_attempt_at := v;
     risk_block_active := risk_block_active st |}.

Definition set_risk_block_active (v : bool) (st : LimitsState) : LimitsState :=
  {| baseline_tickets := baseline_tickets st;
     block_attempts := block_attempts st;
     last_attempt_at := last_attempt_at st;
     risk_block_active := v |}.

(** ** Floats *)

(** A Python float is a double (IEEE 754 binary64); the embedding keeps
    its value, a rational.  [float x] is the double nearest to the number
    [x], ties going to the even mantissa, as [float(x)] and the float
    arithmetic of Python give it; every operation on floats is the exact
    operation followed by this rounding.  Doubles have 53 bits of
    precision and no exponent under -1074; the numbers met are below
    [2 ** 1024] in absolute value, where the doubles end, so the
    infinities and not-a-number are left out. *)

(** [2 ** k]. *)
Definition pow2 (k : Z) : Q := Qpower 2 k.

(** The integer nearest to [y], the even one of the two when [y] is half
    way. *)
Definition round_half_even (y : Q) : Z :=
  let q := Qfloor y in
  match Qcompare (y - inject_Z q) (1 # 2) with
  | Lt => q
  | Gt => q + 1
  | Eq => if Z.even q then q else q + 1
  end.

(** [floor (log2 x)] for a positive [x = n / d]. *)
Definition binade (x : Q) : Z :=
  let e := Z.log2 (Qnum x) - Z.log2 (Z.pos (Qden x)) in
  if Qle_bool (pow2 e) x then e else e - 1.

(** The exponent of the unit in the last place of the doubles around a
    positive [x]: 53 bits of precision, and no exponent under -1074. *)
Definition ulp_exponent (x : Q) : Z := Z.max (binade x - 52) (-1074).

(** The multiple of [2 ** k] nearest to [x], ties to even. *)
Definition round_at (k : Z) (x : Q) : Q :=
  (inject_Z (round_half_even (x * pow2 (- k))) * pow2 k)%Q.

(** [float(x)] for a number [x]: the double nearest to [x], ties to even;
    it is [x] itself when [x] is a double. *)
Definition float (x : Q) : Q :=
  Qred match Qcompare x 0 with
       | Eq => 0
       | Gt => round_at (ulp_exponent x) x
       | Lt => - round_at (ulp_exponent (- x)) (- x)
       end.

Arguments float : simpl never.

(** ** Effects *)

(** The exceptions the collaborators can raise. *)
Inductive Exn :=
  | SnapshotError
  | CloseError
  | KillSwitchError
  | AutotradingError
  | NotifyError.

(** The calls with an effect outside the process, in the order issued. *)
Inductive Effect :=
  | EvClose (t : Z) (sym : string) (comment : string)
  | EvSetKillUntil (u : Z)
  | EvAutotradingOn
  | EvNotifyNews.

(** The world a call runs against: the contents of the state file
    ([None]: no file, or one [json.load] rejects) and the trace. *)
Record World := {
  state_file : option LimitsState;
  trace : list Effect;
}.

Inductive Result (A : Type) :=
  | Ok (a : A)
  | Raise (e : Exn).
Arguments Ok {A} a.
Arguments Raise {A} e.

Definition M (A : Type) : Type := World -> Result A * World.

#[global] Instance M_ret : MRet M := fun A a w => (Ok a, w).

#[global] Instance M_bind : MBind M := fun A B k m w =>
  match m w with
  | (Ok a, w') => k a w'
  | (Raise e, w') => (Raise e, w')
  end.

Definition raise {A} (e : Exn) : M A := fun w => (Raise e, w).

(** [try: m except Exception: h]. *)
Definition try_except {A} (m : M A) (h : Exn -> M A) : M A :=
  fun w =>
    match m w with
    | (Ok a, w') => (Ok a, w')
    | (Raise e, w') => h e w'
    end.

Definition emit (ev : Effect) : M unit :=
  fun w => (Ok tt, {| state_file := state_file w; trace := trace w ++ [ev] |}).

(** What [close_position_full] does on one call: returns [(True, res)],
    returns [(False, res)], or raises. *)
Inductive CloseOutcome :=
  | Closed
  | Refused
  | CloseRaises.

(** [close_position_full(ticket, symbol, side, volume, comment)]: the
    request reaches the engine, then the outcome is the oracle's. *)
Definition close_position_full (outcome : Z -> CloseOutcome)
    (t : Z) (sym : string) (comment : string) : M bool :=
  emit (EvClose t sym comment) ;;
  match outcome t with
  | Closed => mret true
  | Refused => mret false
  | CloseRaises => raise CloseError
  end.

(** [set_kill_until(until)]: the call is made, then it returns or raises. *)
Definition set_kill_until (arm_ok : bool) (u : Z) : M unit :=
  emit (EvSetKillUntil u) ;;
  if arm_ok then mret tt else raise KillSwitchError.

(** Microseconds in [timedelta(minutes=m)] and in [s] seconds. *)
Definition minutes (m : Z) : Z := m * 60000000.
Definition seconds (s : Z) : Z := s * 1000000.

(** ** limits.py: the aggregate-risk enforcer *)

Module Limits.

(** What the collaborators answer during one call of
    [enforce_aggregate_risk]: [reader.snapshot()] ([None]: it raises), the
    four readings of [_now_utc()] in program order, the [kill_status()]
    read on entry and the one read after the closes, whether
    [set_kill_until] returns, the outcome of closing each ticket, and the
    order in which iterating over the set [tickets_current] gives its
    elements ([set_order x y]: [x] comes no later than [y]; any order of
    a hash table is the sorting by one such relation). *)
Record Env := {
  snapshot : option Snapshot;
  set_order : Z -> Z -> bool;
  now_idle : Z;
  now_report : Z;
  now_stamp : Z;
  now_arm : Z;
  kill_before : KillStatus;
  kill_after : KillStatus;
  arm_ok : bool;
  close_outcome : Z -> CloseOutcome;
}.

(** The report dictionary the enforcer returns. *)
Record Report := {
  rep_now_utc : Z;
  rep_threshold_pct : Q;
  rep_total_risk_pct : Q;
  rep_positions : nat;
  rep_baseline_tickets : list Z;
  rep_new_tickets_detected : list Z;
  rep_closed : list (Z * string);
  rep_failed : list (Z * string);
  rep_attempts_before : Z;
  rep_attempts_after : Z;
  rep_risk_block_active_before : bool;
  rep_risk_block_active_after : bool;
  rep_kill_switch_active_before : bool;
  rep_kill_switch_active_after : bool;
  rep_kill_switch_until_before : option Z;
  rep_kill_switch_until_after : option Z;
  rep_kill_switch_armed_now : bool;
  rep_block_minutes : Z;
}.

(** [_load_state()]: the stored dictionary, [{}] when the file is missing
    or unreadable. *)
Definition stored (w : World) : LimitsState :=
  default empty_state (state_file w).

Definition _load_state : M LimitsState :=
  fun w => (Ok (stored w), w).

(** [_save_state(d)], run to completion. *)
Definition _save_state (d : LimitsState) : M unit :=
  fun w => (Ok tt, {| state_file := Some d; trace := trace w |}).

(** [snap = reader.snapshot()]. *)
Definition read_snapshot (reader : Env) : M Snapshot :=
  match snapshot reader with
  | Some snap => mret snap
  | None => raise SnapshotError
  end.

(** [{int(p["ticket"]) for p in snap["positions"]}]. *)
Definition tickets_of (snap : Snapshot) : gset Z :=
  list_to_set (ticket <$> positions snap).

(** [sorted(list(tickets_current))]. *)
Definition sorted_tickets (s : gset Z) : list Z :=
  merge_sort Z.le (elements s).

(** Lines 83-85: [attempts > 0 and last_attempt_at is not None] and
    [idle_sec >= max(1, int(block_minutes)) * 60]. *)
Definition decay_due (attempts : Z) (last : option Z)
    (now block_minutes : Z) : bool :=
  match last with
  | Some t =>
      bool_decide (0 < attempts)
      && bool_decide (seconds (Z.max 1 block_minutes * 60) <= now - t)
  | None => false
  end.

(** [threshold_pct + 1e-9]: the literal is the double nearest to
    [10 ** -9], the threshold is a double (or is made one by the
    addition), and the sum is rounded. *)
Definition with_epsilon (threshold_pct : Q) : Q :=
  float (Qplus (float threshold_pct) (float (Qmake 1 1000000000))).

(** [for t in tickets_current]: the elements of the set in the order its
    hash table gives them, which [set_order] stands for. *)
Definition iterate (reader : Env) (tickets_current : gset Z) : list Z :=
  merge_sort (fun x y => Is_true (set_order reader x y)) (elements tickets_current).

(** [[t for t in tickets_current if t not in baseline_set]]. *)
Definition new_tickets_of (reader : Env) (tickets_current : gset Z)
    (baseline : list Z) : list Z :=
  let baseline_set : gset Z := list_to_set baseline in
  filter (fun t => t ∉ baseline_set) (iterate reader tickets_current).

(** The loop of lines 145-159 over [snap["positions"]], with the lists
    [report["closed"]] and [report["failed"]] it appends to. *)
Fixpoint close_new_tickets (reader : Env) (new_tickets : list Z)
    (ps : list Position) (closed failed : list (Z * string))
    : M (list (Z * string) * list (Z * string)) :=
  match ps with
  | [] => mret (closed, failed)
  | pos :: ps' =>
      let t := ticket pos in
      if bool_decide (t ∈ new_tickets) then
        ok ← close_position_full (close_outcome reader) t (symbol pos) "RG aggblock";
        if ok : bool
        then close_new_tickets reader new_tickets ps' (closed ++ [(t, symbol pos)]) failed
        else close_new_tickets reader new_tickets ps' closed (failed ++ [(t, symbol pos)])
      else close_new_tickets reader new_tickets ps' closed failed
  end.

(** Lines 169-181: the block is raised and the kill switch armed.  The
    result is [risk_block_active] and the three report entries
    [kill_switch_armed_now], [kill_switch_active_after] and
    [kill_switch_until_after] as this block leaves them. *)
Definition arm_if_needed (reader : Env) (attempts max_block_attempts block_minutes : Z)
    (risk_block_active : bool) (ks_before : KillStatus)
    : M (bool * (bool * bool * option Z)) :=
  let unarmed := (false, active ks_before, until ks_before) in
  if bool_decide (max_block_attempts <= attempts) then
    if negb (active ks_before) then
      let u := now_arm reader + minutes (Z.max 1 block_minutes) in
      try_except
        (set_kill_until (arm_ok reader) u ;;
         let ks_after := kill_after reader in
         mret (true, (true, active ks_after, until ks_after)))
        (fun _ => mret (true, (false, false, None)))
    else mret (true, unarmed)
  else mret (risk_block_active, unarmed).

(** Lines 184-187: [if not report["kill_switch_armed_now"]], the status is
    read again and replaces what the report held. *)
Definition observe_kill_switch (reader : Env) (kr : bool * bool * option Z)
    : bool * bool * option Z :=
  let '(armed_now, _, _) := kr in
  if negb armed_now
  then (armed_now, active (kill_after reader), until (kill_after reader))
  else kr.

(** Lines 83-88: the attempts and the dictionary after the check for
    stale attempts. *)
Definition attempts_on_entry (reader : Env) (block_minutes : Z) (st : LimitsState) : Z :=
  if decay_due (block_attempts st) (last_attempt_at st) (now_idle reader) block_minutes
  then 0 else block_attempts st.

Definition state_on_entry (reader : Env) (block_minutes : Z) (st : LimitsState)
    : LimitsState :=
  if decay_due (block_attempts st) (last_attempt_at st) (now_idle reader) block_minutes
  then set_last_attempt_at None (set_block_attempts 0 st) else st.

(** Lines 90-109: the report as first filled in. *)
Definition initial_report (reader : Env) (threshold_pct total : Q)
    (tickets_current : gset Z) (baseline : list Z) (attempts : Z)
    (risk_block : bool) (block_minutes : Z) : Report :=
  {| rep_now_utc := now_report reader;
     rep_threshold_pct := threshold_pct;
     rep_total_risk_pct := total;
     rep_positions := size tickets_current;
     rep_baseline_tickets := baseline;
     rep_new_tickets_detected := [];
     rep_closed := [];
     rep_failed := [];
     rep_attempts_before := attempts;
     rep_attempts_after := attempts;
     rep_risk_block_active_before := risk_block;
     rep_risk_block_active_after := risk_block;
     rep_kill_switch_active_before := active (kill_before reader);
     rep_kill_switch_active_after := active (kill_before reader);
     rep_kill_switch_until_before := until (kill_before reader);
     rep_kill_switch_until_after := until (kill_before reader);
     rep_kill_switch_armed_now := false;
     rep_block_minutes := block_minutes |}.

(** The entries a branch writes before it returns the report. *)
Definition with_outcome (report : Report) (baseline new_tickets : list Z)
    (closed failed : list (Z * string)) (attempts_after : Z) (risk_block_after : bool)
    (kr : bool * bool * option Z) : Report :=
  let '(armed_now, active_after, until_after) := kr in
  {| rep_now_utc := rep_now_utc report;
     rep_threshold_pct := rep_threshold_pct report;
     rep_total_risk_pct := rep_total_risk_pct report;
     rep_positions := rep_positions report;
     rep_baseline_tickets := baseline;
     rep_new_tickets_detected := new_tickets;
     rep_closed := closed;
     rep_failed := failed;
     rep_attempts_before := rep_attempts_before report;
     rep_attempts_after := attempts_after;
     rep_risk_block_active_before := rep_risk_block_active_before report;
     rep_risk_block_active_after := risk_block_after;
     rep_kill_switch_active_before := rep_kill_switch_active_before report;
     rep_kill_switch_active_after := active_after;
     rep_kill_switch_until_before := rep_kill_switch_until_before report;
     rep_kill_switch_until_after := until_after;
     rep_kill_switch_armed_now := armed_now;
     rep_block_minutes := rep_block_minutes report |}.

(** What the report holds about the kill switch until line 169. *)
Definition kill_unchanged (report : Report) : bool * bool * option Z :=
  (rep_kill_switch_armed_now report,
   rep_kill_switch_active_after report,
   rep_kill_switch_until_after report).

(** Lines 111-120: the first run creates the baseline and closes nothing. *)
Definition first_run (report : Report) (st : LimitsState) (attempts : Z)
    (risk_block : bool) (tickets_current : gset Z) : M Report :=
  let st := set_baseline_tickets (sorted_tickets tickets_current) st in
  let st := set_block_attempts attempts st in
  let st := set_risk_block_active risk_block st in
  _save_state st ;;
  mret (with_outcome report (baseline_tickets st) [] [] [] attempts risk_block
          (kill_unchanged report)).

(** Lines 124-137: the aggregate risk is acceptable; the baseline follows
    the snapshot, and a block whose kill switch has expired is reset. *)
Definition risk_ok (reader : Env) (report : Report) (st : LimitsState) (attempts : Z)
    (risk_block : bool) (tickets_current : gset Z) : M Report :=
  let reset := risk_block && negb (active (kill_before reader)) in
  let attempts := if reset then 0 else attempts in
  let st := if reset then set_last_attempt_at None st else st in
  let risk_block := if reset then false else risk_block in
  let st := set_baseline_tickets (sorted_tickets tickets_current) st in
  let st := set_block_attempts attempts st in
  let st := set_risk_block_active risk_block st in
  _save_state st ;;
  mret (with_outcome report (baseline_tickets st) [] [] [] attempts risk_block
          (kill_unchanged report)).

(** Lines 139-198: the aggregate risk is exceeded; the new tickets are
    closed and counted, the block is raised at [max_block_attempts], and
    the baseline stays as it was. *)
Definition risk_exceeded (reader : Env) (max_block_attempts block_minutes : Z)
    (report : Report) (snap : Snapshot) (st : LimitsState) (baseline : list Z)
    (attempts : Z) (risk_block : bool) (tickets_current : gset Z) : M Report :=
  let new_tickets := new_tickets_of reader tickets_current baseline in
  '(closed, failed) ← close_new_tickets reader new_tickets (positions snap) [] [];
  let counted := negb (bool_decide (new_tickets = [])) in
  let attempts :=
    if counted then attempts + Z.of_nat (length new_tickets) else attempts in
  let st := if counted then set_last_attempt_at (Some (now_stamp reader)) st else st in
  let st := set_block_attempts attempts st in
  '(risk_block, kr) ←
    arm_if_needed reader attempts max_block_attempts block_minutes
      risk_block (kill_before reader);
  let kr := observe_kill_switch reader kr in
  (* line 190: an active kill switch counts as a risk block *)
  let risk_block := if kr.1.2 then true else risk_block in
  let st := set_risk_block_active risk_block st in
  _save_state st ;;
  mret (with_outcome report baseline new_tickets closed failed attempts risk_block kr).

Definition enforce_aggregate_risk (reader : Env) (threshold_pct : Q)
    (max_block_attempts block_minutes : Z) : M Report :=
  snap ← read_snapshot reader;
  let total := float (total_risk_pct snap) in
  let tickets_current := tickets_of snap in
  st ← _load_state;
  let baseline := baseline_tickets st in
  let risk_block := risk_block_active st || active (kill_before reader) in
  let attempts := attempts_on_entry reader block_minutes st in
  let st := state_on_entry reader block_minutes st in
  let report :=
    initial_report reader threshold_pct total tickets_current baseline attempts
      risk_block block_minutes in
  match baseline with
  | [] => first_run report st attempts risk_block tickets_current
  | _ :: _ =>
      if Qle_bool total (with_epsilon threshold_pct)
      then risk_ok reader report st attempts risk_block tickets_current
      else risk_exceeded reader max_block_attempts block_minutes report snap st
             baseline attempts risk_block tickets_current
  end.

End Limits.

(** ** limits_watch.py: the loop around the enforcer *)

Module LimitsWatch.

(** How [main] leaves its [while True]: not yet (the supplied iterations
    are used up and the loop is still alive), or through an exception that
    [except KeyboardInterrupt] does not catch, after which [finally] shuts
    the reader down and the process ends. *)
Inductive LoopExit :=
  | StillRunning
  | Crashed (e : Exn).

(** [main()]: one [Limits.Env] per iteration of the loop.
    [enforce_aggregate_risk] is called with [threshold_pct] and
    [max_block_attempts] and the default [block_minutes]; the printing,
    logging and notifying of the report have no effect on the state. *)
Fixpoint main (THRESHOLD_PCT : Q) (MAX_ATTEMPTS DEFAULT_BLOCK_MINUTES : Z)
    (iterations : list Limits.Env) (w : World)
    : (list Limits.Report * LoopExit) * World :=
  match iterations with
  | [] => (([], StillRunning), w)
  | r :: rest =>
      match Limits.enforce_aggregate_risk r THRESHOLD_PCT MAX_ATTEMPTS
              DEFAULT_BLOCK_MINUTES w with
      | (Ok rep, w') =>
          let '((reps, exit), w'') :=
            main THRESHOLD_PCT MAX_ATTEMPTS DEFAULT_BLOCK_MINUTES rest w' in
          ((rep :: reps, exit), w'')
      | (Raise e, w') => (([], Crashed e), w')
      end
  end.

End LimitsWatch.

(** Successive calls of [enforce_aggregate_risk] against the same state
    file, whoever issues them: the watch loop, or a process started again
    after the previous one ended on an exception (the state is in the
    file, so a call that raised is simply followed by the next one).  The
    result lists what each call returned. *)
Fixpoint calls (threshold_pct : Q) (max_block_attempts block_minutes : Z)
    (envs : list Limits.Env) (w : World) : list (Result Limits.Report) * World :=
  match envs with
  | [] => ([], w)
  | r :: rest =>
      let '(res, w') :=
        Limits.enforce_aggregate_risk r threshold_pct max_block_attempts block_minutes w in
      let '(ress, w'') := calls threshold_pct max_block_attempts block_minutes rest w' in
      (res :: ress, w'')
  end.

(** ** news_windows: the event-window enforcer *)

(** One row of the calendar: [r["currency"]], [r["ts_utc"]], [r["event"]]. *)
Record NewsEvent := {
  currency : string;
  ts_utc : Z;
  event : string;
}.

#[global] Instance NewsEvent_eq_dec : EqDecision NewsEvent.
Proof. solve_decision. Defined.

(** [str.upper()] and [str.isalpha()] on ASCII text. *)
Definition upper_ascii (c : ascii) : ascii :=
  let n := nat_of_ascii c in
  if Nat.leb 97 n && Nat.leb n 122 then ascii_of_nat (n - 32) else c.

Fixpoint upper (s : string) : string :=
  match s with
  | EmptyString => EmptyString
  | String c s' => String (upper_ascii c) (upper s')
  end.

Definition is_alpha_ascii (c : ascii) : bool :=
  let n := nat_of_ascii c in
  (Nat.leb 65 n && Nat.leb n 90) || (Nat.leb 97 n && Nat.leb n 122).

Fixpoint all_alpha (s : string) : bool :=
  match s with
  | EmptyString => true
  | String c s' => is_alpha_ascii c && all_alpha s'
  end.

Definition isalpha (s : string) : bool :=
  match s with
  | EmptyString => false
  | _ => all_alpha s
  end.

(** [s[-3:]]. *)
Definition last3 (s : string) : string :=
  let n := String.length s in
  substring (n - 3) 3 s.

(** [map_symbol_currencies(symbol)], the same in both revisions. *)
Definition map_symbol_currencies (symbol : string) : gset string :=
  let s := upper symbol in
  if Nat.leb 6 (String.length s)
     && isalpha (substring 0 3 s) && isalpha (substring 3 3 s)
  then {[ substring 0 3 s; substring 3 3 s ]}
  else {[ last3 s ]}.

(** [find_events(df, currencies, now_utc, window_min)], the same in both
    revisions; an absent or empty frame is the empty list of rows. *)
Definition find_events (df : list NewsEvent) (currencies : gset string)
    (now_utc window_min : Z) : list NewsEvent :=
  let lo := now_utc - minutes window_min in
  let hi := now_utc + minutes window_min in
  filter (fun r => currency r ∈ currencies ∧ lo <= ts_utc r ∧ ts_utc r <= hi) df.

(** [max(m["ts_utc"] for m in matches)] for the non-empty [m :: ms]. *)
Definition max_ts (m : NewsEvent) (ms : list NewsEvent) : Z :=
  foldl Z.max (ts_utc m) (ts_utc <$> ms).

Module News.

(** What the collaborators answer during one call of
    [enforce_news_window]: the clock, [reader.snapshot()] ([None]: it
    raises), the outcome of closing each ticket, whether
    [ensure_autotrading_on] returns before closing a ticket (revision
    0.1), whether [set_kill_until] returns, whether [notify_news]
    returns (revision 0.2). *)
Record Env := {
  now_utc : Z;
  snapshot : option Snapshot;
  close_outcome : Z -> CloseOutcome;
  autotrading_on_ok : Z -> bool;
  arm_ok : Z -> bool;
  notify_ok : bool;
}.

(** One entry of [report["affected"]]. *)
Record Affected := {
  aff_ticket : Z;
  aff_symbol : string;
  aff_matches : list NewsEvent;
}.

(** The report dictionary. *)
Record Report := {
  affected : list Affected;
  closed : list (Z * string);
  failed : list (Z * string);
  kill_switch_until : option Z;
}.

Definition empty_report : Report :=
  {| affected := []; closed := []; failed := []; kill_switch_until := None |}.

Definition read_snapshot (reader : Env) : M Snapshot :=
  match snapshot reader with
  | Some snap => mret snap
  | None => raise SnapshotError
  end.

(** [if recent_s is None: recent_s = window_min * 60]. *)
Definition recent_or_default (window_min : Z) (recent_s : option Z) : Z :=
  match recent_s with
  | Some s => s
  | None => window_min * 60
  end.

(** [(now_utc - open_time).total_seconds() > recent_s]. *)
Definition too_old (now_utc open_time recent_s : Z) : bool :=
  bool_decide (seconds recent_s < now_utc - open_time).

(** The guards both revisions apply to a position before they look for a
    close: a symbol, an opening time, opened recently, and a matching
    event.  The result is the non-empty list of matches. *)
Definition matches_of (reader : Env) (events_df : list NewsEvent)
    (window_min recent_s : Z) (pos : Position) : option (NewsEvent * list NewsEvent) :=
  if bool_decide (symbol pos = EmptyString) then None else
  match open_time pos with
  | None => None
  | Some opened =>
      if too_old (now_utc reader) opened recent_s then None else
      let ccy := map_symbol_currencies (symbol pos) in
      match find_events events_df ccy (now_utc reader) window_min with
      | [] => None
      | m :: ms => Some (m, ms)
      end
  end.

Definition add_closed (ok : bool) (t : Z) (sym : string) (report : Report) : Report :=
  if ok
  then {| affected := affected report; closed := closed report ++ [(t, sym)];
          failed := failed report; kill_switch_until := kill_switch_until report |}
  else {| affected := affected report; closed := closed report;
          failed := failed report ++ [(t, sym)];
          kill_switch_until := kill_switch_until report |}.

Definition add_affected (a : Affected) (report : Report) : Report :=
  {| affected := affected report ++ [a]; closed := closed report;
     failed := failed report; kill_switch_until := kill_switch_until report |}.

Definition set_kill_switch_until (u : option Z) (report : Report) : Report :=
  {| affected := affected report; closed := closed report;
     failed := failed report; kill_switch_until := u |}.

(** [ensure_autotrading_on()] of [limits.uia]. *)
Definition ensure_autotrading_on (ok : bool) : M unit :=
  emit EvAutotradingOn ;;
  if ok then mret tt else raise AutotradingError.

(** [notify_news(report)]. *)
Definition notify_news (ok : bool) : M unit :=
  emit EvNotifyNews ;;
  if ok then mret tt else raise NotifyError.

End News.

(** *** Revision 0.1 *)

Module News01.
Import News.

(** The body of [for pos in positions].  The report is changed in place,
    so what was written before an exception stays: nothing when
    [ensure_autotrading_on] or the close raises, the close and
    [kill_switch_until] when [set_kill_until] raises. *)
Definition enforce_position (reader : Env) (events_df : list NewsEvent)
    (window_min recent_s : Z) (report : Report) (pos : Position) : M Report :=
  match matches_of reader events_df window_min recent_s pos with
  | None => mret report
  | Some (m, ms) =>
      let t := ticket pos in
      let sym := symbol pos in
      try_except
        (ensure_autotrading_on (autotrading_on_ok reader t) ;;
         ok ← close_position_full (close_outcome reader) t sym "RG NewsBlock";
         let report := add_closed ok t sym report in
         let u := max_ts m ms + minutes window_min in
         let report := set_kill_switch_until (Some u) report in
         try_except
           (set_kill_until (arm_ok reader u) u ;;
            mret (add_affected
                    {| aff_ticket := t; aff_symbol := sym; aff_matches := m :: ms |}
                    report))
           (fun _ => mret report))
        (fun _ => mret report)
  end.

Fixpoint enforce_positions (reader : Env) (events_df : list NewsEvent)
    (window_min recent_s : Z) (ps : list Position) (report : Report) : M Report :=
  match ps with
  | [] => mret report
  | pos :: ps' =>
      report' ← enforce_position reader events_df window_min recent_s report pos;
      enforce_positions reader events_df window_min recent_s ps' report'
  end.

Definition enforce_news_window (reader : Env) (events_df : list NewsEvent)
    (window_min : Z) (recent_s : option Z) : M Report :=
  let recent_s := recent_or_default window_min recent_s in
  snap ← try_except (snap ← read_snapshot reader; mret (Some snap))
                    (fun _ => mret None);
  match snap with
  | None => mret empty_report
  | Some snap =>
      enforce_positions reader events_df window_min recent_s (positions snap)
        empty_report
  end.

End News01.

(** *** Revision 0.2 *)

Module News02.
Import News.

(** [if (max_until is None) or (this_until > max_until): max_until = this_until]. *)
Definition later_of (max_until : option Z) (this_until : Z) : option Z :=
  match max_until with
  | None => Some this_until
  | Some mu => if bool_decide (mu < this_until) then Some this_until else Some mu
  end.

(** The body of [for pos in positions], on the report and [max_until].
    Nothing is written before the close returns, so an exception leaves
    both as they were. *)
Definition enforce_position (reader : Env) (events_df : list NewsEvent)
    (window_min recent_s : Z) (acc : Report * option Z) (pos : Position)
    : M (Report * option Z) :=
  let '(report, max_until) := acc in
  match matches_of reader events_df window_min recent_s pos with
  | None => mret (report, max_until)
  | Some (m, ms) =>
      let t := ticket pos in
      let sym := symbol pos in
      try_except
        (ok ← close_position_full (close_outcome reader) t sym "RG NewsBlock";
         let report := add_closed ok t sym report in
         let this_until := max_ts m ms + minutes window_min in
         let max_until := later_of max_until this_until in
         mret (add_affected
                 {| aff_ticket := t; aff_symbol := sym; aff_matches := m :: ms |}
                 report,
               max_until))
        (fun _ => mret (report, max_until))
  end.

Fixpoint enforce_positions (reader : Env) (events_df : list NewsEvent)
    (window_min recent_s : Z) (ps : list Position) (acc : Report * option Z)
    : M (Report * option Z) :=
  match ps with
  | [] => mret acc
  | pos :: ps' =>
      acc' ← enforce_position reader events_df window_min recent_s acc pos;
      enforce_positions reader events_df window_min recent_s ps' acc'
  end.

(** Lines 218-230: after the loop, the kill switch and the notification. *)
Definition arm_after_batch (reader : Env) (acc : Report * option Z) : M Report :=
  let '(report, max_until) := acc in
  match affected report, max_until with
  | _ :: _, Some mu =>
      set_kill_until (arm_ok reader mu) mu ;;
      let report := set_kill_switch_until (Some mu) report in
      try_except (notify_news (notify_ok reader)) (fun _ => mret tt) ;;
      mret report
  | _, _ => mret report
  end.

Definition enforce_news_window (reader : Env) (events_df : list NewsEvent)
    (window_min : Z) (recent_s : option Z) : M Report :=
  let recent_s := recent_or_default window_min recent_s in
  snap ← try_except (snap ← read_snapshot reader; mret (Some snap))
                    (fun _ => mret None);
  match snap with
  | None => mret empty_report
  | Some snap =>
      acc ← enforce_positions reader events_df window_min recent_s (positions snap)
              (empty_report, None);
      arm_after_batch reader acc
  end.

End News02.

(** ** The state file on disk *)

Module StateStore.

(** What [_save_state] asks of the file, in order: [open(STATE_FILE, "w")]
    truncates the file in place, [json.dump] calls [f.write] piece by
    piece, leaving the [with] block closes the file.  No temporary file
    is written and nothing is renamed. *)
Inductive FsOp :=
  | OpenTruncate
  | WriteChunk (s : string)
  | CloseFile.

(** The state file: absent, or its text. *)
Definition File := option string.

(** The file as a process that writes it has it: the text that has
    reached the file, and the text [f.write] has accepted and Python's
    writer still holds in its buffer. *)
Record Handle := {
  disk : File;
  pending : string;
}.

(** A file nobody has open. *)
Definition unopened (f : File) : Handle :=
  {| disk := f; pending := EmptyString |}.

(** One operation.  [f.write(s)] appends [s] to the buffer, and the
    writer passes on to the file the first [drain buffered] characters of
    what it then holds ([drain]: the buffering policy; CPython passes
    nothing on until the buffer is full).  Closing flushes the buffer. *)
Definition apply_op (drain : string -> nat) (h : Handle) (op : FsOp) : Handle :=
  match op with
  | OpenTruncate => {| disk := Some EmptyString; pending := EmptyString |}
  | WriteChunk s =>
      let buffered := pending h +:+ s in
      let n := drain buffered in
      {| disk := (fun text => text +:+ substring 0 n buffered) <$> disk h;
         pending := substring n (String.length buffered - n) buffered |}
  | CloseFile =>
      {| disk := (fun text => text +:+ pending h) <$> disk h;
         pending := EmptyString |}
  end.

(** The policy of a writer that keeps everything until the close, as
    CPython does with a text shorter than its buffer. *)
Definition keep_all : string -> nat := fun _ => 0%nat.

(** The policy of a writer with no buffer. *)
Definition pass_all : string -> nat := String.length.

(** [_save_state(d)], where [chunks] is what [json.dump] writes for [d]. *)
Definition _save_state (chunks : list string) : list FsOp :=
  OpenTruncate :: (WriteChunk <$> chunks) ++ [CloseFile].

Definition run_ops (drain : string -> nat) (ops : list FsOp) (h : Handle) : Handle :=
  foldl (apply_op drain) h ops.

(** The file a process leaves when it stops after [k] operations of a
    save: what has reached the file; the buffer is lost. *)
Definition crash_after (drain : string -> nat) (k : nat) (chunks : list string)
    (f : File) : File :=
  disk (run_ops drain (take k (_save_state chunks)) (unopened f)).

(** The text [json.dump] writes in full. *)
Definition full_text (chunks : list string) : string :=
  foldl String.append EmptyString chunks.

(** [_load_state()] on a file, given [json.load] ([None]: it raises). *)
Definition _load_state (json_load : string -> option LimitsState) (f : File)
    : LimitsState :=
  match f with
  | None => empty_state
  | Some text => default empty_state (json_load text)
  end.

(** A save is atomic when a stop at any point leaves the old file or the
    new one. *)
Definition atomic_save (drain : string -> nat) (chunks : list string) (f : File) : Prop :=
  forall k, crash_after drain k chunks f = f \/
            crash_after drain k chunks f = Some (full_text chunks).

End StateStore.

(** ** limits.py: the status query *)

Module LimitsStatus.

(** What [risk_block_status()] returns. *)
Record Status := {
  st_risk_block_active : bool;
  st_block_attempts : Z;
  st_baseline_tickets : list Z;
  st_kill_switch_active : bool;
  st_kill_switch_until : option Z;
}.

(** [risk_block_status()], [ks] being what [kill_status()] answers. *)
Definition risk_block_status (ks : KillStatus) : M Status :=
  st ← Limits._load_state;
  mret {| st_risk_block_active := risk_block_active st || active ks;
          st_block_attempts := block_attempts st;
          st_baseline_tickets := baseline_tickets st;
          st_kill_switch_active := active ks;
          st_kill_switch_until := until ks |}.

End LimitsStatus.

(** ** news_windows: the daemon around the enforcer *)

Module NewsDaemon.
Import News.

(** [date.weekday()] of the day [today] days after 1970-01-01, a
    Thursday: 0 is Monday and 6 is Sunday. *)
Definition weekday (today : Z) : Z := (today + 3) mod 7.

(** The module variables [LAST_AUTOTRADE_REENABLE] and
    [LAST_CALENDAR_UPDATE_DAY], and the locals [last_load] and
    [events_df] of [run_daemon]; [time.time()] is a rational number of
    seconds. *)
Record Daemon := {
  LAST_AUTOTRADE_REENABLE : Q;
  LAST_CALENDAR_UPDATE_DAY : option Z;
  last_load : Q;
  events_df : option (list NewsEvent);
}.

(** The values at the start of [run_daemon]. *)
Definition started : Daemon :=
  {| LAST_AUTOTRADE_REENABLE := 0; LAST_CALENDAR_UPDATE_DAY := None;
     last_load := 0; events_df := None |}.

(** What the daemon does outside the process, in the order issued:
    the calls of the enforcer and [notify_news], [time.sleep(s)],
    [maybe_reenable_autotrade()], [subprocess.run] on [update_news.py] on
    day [today], [load_cached_calendar()], [reader.snapshot()] inside the
    wait for closure, and [ensure_autotrading_off()]. *)
Inductive Action :=
  | Call (e : Effect)
  | Sleep (s : Z)
  | MaybeReenable
  | Updater (today : Z)
  | LoadCalendar
  | Poll
  | AutotradingOff.

(** The daemon while it runs: its variables, the state file of
    [limits.py] (which the enforcer's monad carries) and the actions so
    far. *)
Record Run := {
  vars : Daemon;
  limits_file : option LimitsState;
  actions : list Action;
}.

Definition act (a : Action) (r : Run) : Run :=
  {| vars := vars r; limits_file := limits_file r; actions := actions r ++ [a] |}.

Definition set_vars (d : Daemon) (r : Run) : Run :=
  {| vars := d; limits_file := limits_file r; actions := actions r |}.

(** A computation of the enforcer's monad run from the daemon: its
    effects join the actions. *)
Definition call {A} (m : M A) (r : Run) : Result A * Run :=
  let '(res, w) := m {| state_file := limits_file r; trace := [] |} in
  (res, {| vars := vars r; limits_file := state_file w;
           actions := actions r ++ (Call <$> trace w) |}).

(** What the collaborators answer during one iteration of [while True]:
    whether [kill_status()["until"]] is set, what
    [maybe_reenable_autotrade()] returns, the three readings of
    [time.time()] (after a re-enabling, in the anti-flood test, at the
    start of the [try]), the day [datetime.utcnow().date()], whether
    [update_news.py] exists and whether [subprocess.run] returns, what
    [load_cached_calendar()] returns, the answers to
    [enforce_news_window], and, for revision 0.1, the snapshots of the
    wait for closure ([None]: it raises) and whether
    [ensure_autotrading_off()] returns. *)
Record Iter := {
  kill_until_set : bool;
  reenabled : bool;
  clock_reenabled : Q;
  clock_antiflood : Q;
  clock_now : Q;
  today : Z;
  updater_exists : bool;
  updater_returns : bool;
  cached_calendar : option (list NewsEvent);
  reader : Env;
  polls : list (option Snapshot);
  autotrading_off_ok : bool;
}.

(** How a [try] body ends: it completes, it raises, or (revision 0.1) it
    is still inside [while True] of the wait for closure when the supplied
    snapshots are used up. *)
Inductive Body :=
  | Completed
  | Raised
  | Waiting.

(** How an iteration ends: at the bottom of the loop or through
    [continue], or it is still waiting. *)
Inductive IterEnd :=
  | NextIteration
  | StillWaiting.

(** [if state["until"] is not None: if maybe_reenable_autotrade():
    LAST_AUTOTRADE_REENABLE = time.time()]. *)
Definition reengage (it : Iter) (r : Run) : Run :=
  if kill_until_set it then
    let r := act MaybeReenable r in
    if reenabled it
    then set_vars {| LAST_AUTOTRADE_REENABLE := clock_reenabled it;
                     LAST_CALENDAR_UPDATE_DAY := LAST_CALENDAR_UPDATE_DAY (vars r);
                     last_load := last_load (vars r);
                     events_df := events_df (vars r) |} r
    else r
  else r.

(** [LAST_AUTOTRADE_REENABLE and time.time() - LAST_AUTOTRADE_REENABLE < 3]. *)
Definition antiflood (it : Iter) (d : Daemon) : bool :=
  negb (Qeq_bool (LAST_AUTOTRADE_REENABLE d) 0)
  && negb (Qle_bool 3 (clock_antiflood it - LAST_AUTOTRADE_REENABLE d)).

(** [weekday == 6 and LAST_CALENDAR_UPDATE_DAY != today]. *)
Definition update_due (it : Iter) (d : Daemon) : bool :=
  bool_decide (weekday (today it) = 6)
  && negb (bool_decide (LAST_CALENDAR_UPDATE_DAY d = Some (today it))).

(** [LAST_CALENDAR_UPDATE_DAY = today]. *)
Definition mark_updated (it : Iter) (r : Run) : Run :=
  set_vars {| LAST_AUTOTRADE_REENABLE := LAST_AUTOTRADE_REENABLE (vars r);
              LAST_CALENDAR_UPDATE_DAY := Some (today it);
              last_load := last_load (vars r);
              events_df := events_df (vars r) |} r.

(** [if now - last_load > cal_refresh_min * 60:
       events_df = load_cached_calendar(); last_load = now]. *)
Definition reload_calendar (cal_refresh_min : Z) (it : Iter) (r : Run) : Run :=
  if negb (Qle_bool (clock_now it - last_load (vars r))
                    (inject_Z (cal_refresh_min * 60)))
  then set_vars {| LAST_AUTOTRADE_REENABLE := LAST_AUTOTRADE_REENABLE (vars r);
                   LAST_CALENDAR_UPDATE_DAY := LAST_CALENDAR_UPDATE_DAY (vars r);
                   last_load := clock_now it;
                   events_df := cached_calendar it |}
                (act LoadCalendar r)
  else r.

(** The bottom of an iteration: [except Exception: time.sleep(2)], then
    [time.sleep(poll_s)]. *)
Definition finish (poll_s : Z) (b : Body) (r : Run) : IterEnd * Run :=
  match b with
  | Completed => (NextIteration, act (Sleep poll_s) r)
  | Raised => (NextIteration, act (Sleep poll_s) (act (Sleep 2) r))
  | Waiting => (StillWaiting, r)
  end.

End NewsDaemon.

(** *** The daemon of revision 0.1 *)

Module Daemon01.
Import News NewsDaemon.

(** [auto_update_calendar()]: an exception of [subprocess.run] leaves
    the function, the day not marked. *)
Definition auto_update_calendar (it : Iter) (r : Run) : Body * Run :=
  if update_due it (vars r) then
    if updater_exists it then
      let r := act (Updater (today it)) r in
      if updater_returns it then (Completed, mark_updated it r) else (Raised, r)
    else (Completed, r)
  else (Completed, r).

(** Lines 243-256: [while True] polls the snapshot until no affected
    ticket is alive, sleeping one second between two polls. *)
Fixpoint wait_for_closure (affected_tickets : gset Z)
    (polls : list (option Snapshot)) (r : Run) : Body * Run :=
  match polls with
  | [] => (Waiting, r)
  | poll :: rest =>
      let r := act Poll r in
      match poll with
      | None => (Raised, r)
      | Some snap2 =>
          let alive : gset Z := list_to_set (ticket <$> positions snap2) in
          if bool_decide (affected_tickets ∩ alive = ∅)
          then (Completed, r)
          else wait_for_closure affected_tickets rest (act (Sleep 1) r)
      end
  end.

(** Lines 238-265: what follows [enforce_news_window] when its report
    has affected positions. *)
Definition after_enforce (it : Iter) (report : Report) (r : Run) : Body * Run :=
  match affected report with
  | [] => (Completed, r)
  | _ :: _ =>
      let affected_tickets : gset Z := list_to_set (aff_ticket <$> affected report) in
      match wait_for_closure affected_tickets (polls it) r with
      | (Completed, r) =>
          let r := act AutotradingOff r in
          if autotrading_off_ok it then
            match call (notify_news (notify_ok (reader it))) r with
            | (Ok _, r) => (Completed, r)
            | (Raise _, r) => (Raised, r)
            end
          else (Raised, r)
      | (b, r) => (b, r)
      end
  end.

(** Lines 229-265: the calendar is reloaded when it is due, then comes
    the enforcer and what follows it. *)
Definition reload_and_enforce (cal_refresh_min window_min : Z) (recent_s : option Z)
    (it : Iter) (r : Run) : Body * Run :=
  let r := reload_calendar cal_refresh_min it r in
  match events_df (vars r) with
  | Some df =>
      match call (News01.enforce_news_window (reader it) df window_min recent_s) r with
      | (Ok report, r) => after_enforce it report r
      | (Raise _, r) => (Raised, r)
      end
  | None => (Completed, r)
  end.

(** The body of [try] in [run_daemon]. *)
Definition try_body (cal_refresh_min window_min : Z) (recent_s : option Z)
    (it : Iter) (r : Run) : Body * Run :=
  match auto_update_calendar it r with
  | (Completed, r) => reload_and_enforce cal_refresh_min window_min recent_s it r
  | (b, r) => (b, r)
  end.

(** One iteration of [while True] in [run_daemon]; [window_min] and
    [recent_s] are [DEFAULT_NEWS_WINDOW_MINUTES] and
    [DEFAULT_NEWS_RECENT_SECONDS]. *)
Definition iteration (poll_s cal_refresh_min window_min : Z) (recent_s : option Z)
    (it : Iter) (r : Run) : IterEnd * Run :=
  let r := reengage it r in
  if antiflood it (vars r) then (NextIteration, act (Sleep 1) r)
  else
    let '(b, r) := try_body cal_refresh_min window_min recent_s it r in
    finish poll_s b r.

(** [run_daemon] once connected, one [Iter] per iteration. *)
Fixpoint run_daemon (poll_s cal_refresh_min window_min : Z) (recent_s : option Z)
    (its : list Iter) (r : Run) : IterEnd * Run :=
  match its with
  | [] => (NextIteration, r)
  | it :: rest =>
      match iteration poll_s cal_refresh_min window_min recent_s it r with
      | (NextIteration, r) => run_daemon poll_s cal_refresh_min window_min recent_s rest r
      | (StillWaiting, r) => (StillWaiting, r)
      end
  end.

End Daemon01.

(** *** The daemon of revision 0.2 *)

Module Daemon02.
Import News NewsDaemon.

(** [auto_update_calendar()]: an exception of [subprocess.run] is caught
    inside, the day not marked. *)
Definition auto_update_calendar (it : Iter) (r : Run) : Body * Run :=
  if update_due it (vars r) then
    if updater_exists it then
      let r := act (Updater (today it)) r in
      if updater_returns it then (Completed, mark_updated it r) else (Completed, r)
    else (Completed, r)
  else (Completed, r).

(** Lines 338-345: the calendar is reloaded when it is due, then comes
    the enforcer. *)
Definition reload_and_enforce (cal_refresh_min window_min : Z) (recent_s : option Z)
    (it : Iter) (r : Run) : Body * Run :=
  let r := reload_calendar cal_refresh_min it r in
  match events_df (vars r) with
  | Some df =>
      match call (News02.enforce_news_window (reader it) df window_min recent_s) r with
      | (Ok _, r) => (Completed, r)
      | (Raise _, r) => (Raised, r)
      end
  | None => (Completed, r)
  end.

(** The body of [try] in [run_daemon]. *)
Definition try_body (cal_refresh_min window_min : Z) (recent_s : option Z)
    (it : Iter) (r : Run) : Body * Run :=
  match auto_update_calendar it r with
  | (Completed, r) => reload_and_enforce cal_refresh_min window_min recent_s it r
  | (b, r) => (b, r)
  end.

(** One iteration of [while True] in [run_daemon]. *)
Definition iteration (poll_s cal_refresh_min window_min : Z) (recent_s : option Z)
    (it : Iter) (r : Run) : IterEnd * Run :=
  let r := reengage it r in
  if antiflood it (vars r) then (NextIteration, act (Sleep 1) r)
  else
    let '(b, r) := try_body cal_refresh_min window_min recent_s it r in
    finish poll_s b r.

(** [run_daemon] once connected, one [Iter] per iteration. *)
Fixpoint run_daemon (poll_s cal_refresh_min window_min : Z) (recent_s : option Z)
    (its : list Iter) (r : Run) : IterEnd * Run :=
  match its with
  | [] => (NextIteration, r)
  | it :: rest =>
      match iteration poll_s cal_refresh_min window_min recent_s it r with
      | (NextIteration, r) => run_daemon poll_s cal_refresh_min window_min recent_s rest r
      | (StillWaiting, r) => (StillWaiting, r)
      end
  end.

End Daemon02.

(** ** update_riskguard.py: the updater *)

Module Update.

(** [str.strip()] and [str.splitlines()].  A character of a [string] is
    a code point below 256, which is as far as the texts of the embedding
    go.  Among these the white space of Python is the code points 9 to
    13, 28 to 32, 133 (next line) and 160 (no-break space), and a line
    ends at the code points 10 to 13, 28 to 30 and 133, a carriage return
    followed by a line feed ending it once. *)
Definition is_space (c : ascii) : bool :=
  let n := nat_of_ascii c in
  (Nat.leb 9 n && Nat.leb n 13) || (Nat.leb 28 n && Nat.leb n 32)
  || Nat.eqb n 133 || Nat.eqb n 160.

Definition is_linebreak (c : ascii) : bool :=
  let n := nat_of_ascii c in
  (Nat.leb 10 n && Nat.leb n 13) || (Nat.leb 28 n && Nat.leb n 30)
  || Nat.eqb n 133.

Fixpoint lstrip (s : string) : string :=
  match s with
  | EmptyString => EmptyString
  | String c s' => if is_space c then lstrip s' else s
  end.

Fixpoint rstrip (s : string) : string :=
  match s with
  | EmptyString => EmptyString
  | String c s' =>
      match rstrip s' with
      | EmptyString => if is_space c then EmptyString else String c EmptyString
      | t => String c t
      end
  end.

Definition strip (s : string) : string := rstrip (lstrip s).

(** [line] is the part of the current line already read. *)
Fixpoint splitlines_from (line : string) (s : string) : list string :=
  match s with
  | EmptyString =>
      match line with
      | EmptyString => []
      | _ => [line]
      end
  | String c s' =>
      if is_linebreak c then
        line ::
          match s' with
          | String c' s'' =>
              if Ascii.eqb c "013" && Ascii.eqb c' "010"
              then splitlines_from EmptyString s''
              else splitlines_from EmptyString s'
          | EmptyString => []
          end
      else splitlines_from (line +:+ String c EmptyString) s'
  end.

Definition splitlines (s : string) : list string := splitlines_from EmptyString s.

(** A string is true when it is not empty. *)
Definition truthy (s : string) : bool :=
  match s with
  | EmptyString => false
  | _ => true
  end.

(** What [subprocess.run(..., capture_output=True, text=True)] returns. *)
Record CompletedProcess := {
  returncode : Z;
  stdout : string;
  stderr : string;
}.

(** [result.returncode != 0]. *)
Definition failed (result : CompletedProcess) : bool :=
  negb (Z.eqb (returncode result) 0).
Arguments failed : simpl never.

(** What the updater does outside the process, in the order issued:
    [subprocess.run(cmd)], the call of [STATUS_PATH.write_text] on the
    payload (what it raises is swallowed by [_write_status], so the action
    is the request, not a file that has changed), and the two
    [subprocess.Popen] of the restart (the first with [RG_TERMINAL_PATH]
    when the terminal path is not empty). *)
Inductive Action :=
  | Run (cmd : list string)
  | WriteStatus (ok : bool) (message version : string)
  | PopenMain (python script terminal_path : string)
  | PopenUi (python script : string).

#[global] Instance Action_eq_dec : EqDecision Action.
Proof. solve_decision. Defined.

(** What the environment answers: [subprocess.run] on each command
    ([None]: it raises), the paths and which of them exist, what
    [.rg_terminal.json] gives for [str(data.get("terminal_path") or "")]
    ([None]: no file, no JSON or no dictionary), and whether
    [--restart-ui] is among the arguments. *)
Record Env := {
  run : list string -> option CompletedProcess;
  requirements : string;
  requirements_exists : bool;
  venv_python : string;
  venv_python_exists : bool;
  sys_executable : string;
  main_py : string;
  main_py_exists : bool;
  riskguard_ui : string;
  riskguard_ui_exists : bool;
  terminal_cfg : option string;
  restart_ui : bool;
}.

(** The updater's monad: the actions so far, and a result or ([None]) an
    exception.  [_log] only appends to [update.log] and swallows its own
    failures; it is left out. *)
Definition U (A : Type) : Type := list Action -> option A * list Action.

#[global] Instance U_ret : MRet U := fun A a t => (Some a, t).

#[global] Instance U_bind : MBind U := fun A B k m t =>
  match m t with
  | (Some a, t') => k a t'
  | (None, t') => (None, t')
  end.

Definition do (a : Action) : U unit := fun t => (Some tt, (t ++ [a])%list).

(** [_write_status(ok, message, version)]: a failure of the write is
    swallowed. *)
Definition _write_status (ok : bool) (message version : string) : U unit :=
  do (WriteStatus ok message version).

(** [_run(cmd)]. *)
Definition _run (e : Env) (cmd : list string) : U CompletedProcess :=
  fun t => (run e cmd, (t ++ [Run cmd])%list).

(** [_git] prefixes its arguments with [git]. *)
Definition _git (e : Env) (args : list string) : U CompletedProcess :=
  _run e ("git" :: args).

Definition _ensure_git (e : Env) : U (bool * string) :=
  result ← _run e ["git"; "--version"];
  if failed result
  then mret (false, "Git nao encontrado no sistema.")
  else mret (true, EmptyString).

Definition _ensure_repo_clean (e : Env) : U (bool * string) :=
  result ← _git e ["status"; "--porcelain"];
  if failed result
  then mret (false, "Falha ao verificar o status do repositorio.")
  else if truthy (strip (stdout result))
  then mret (false, "Repositorio com alteracoes locais. Salve/commit antes de atualizar.")
  else mret (true, EmptyString).

(** [for line in result.stdout.splitlines(): tag = line.strip();
     if tag: return tag]. *)
Fixpoint first_tag (lines : list string) : string :=
  match lines with
  | [] => EmptyString
  | line :: rest =>
      let tag := strip line in
      if truthy tag then tag else first_tag rest
  end.

Definition _latest_tag (e : Env) : U string :=
  result ← _git e ["for-each-ref"; "--sort=-creatordate";
                   "--format=%(refname:short)"; "refs/tags"];
  if failed result
  then mret EmptyString
  else mret (first_tag (splitlines (stdout result))).

Definition _find_python (e : Env) : string :=
  if venv_python_exists e then venv_python e else sys_executable e.

Definition _pip_install (e : Env) : U (bool * string) :=
  if negb (requirements_exists e) then mret (true, EmptyString) else
  let python_exe := _find_python e in
  result ← _run e [python_exe; "-m"; "pip"; "install"; "--no-input";
                   "--disable-pip-version-check"; "-r"; requirements e];
  if failed result
  then mret (false, "Falha ao instalar dependencias. Veja update.log.")
  else mret (true, EmptyString).

Definition _load_terminal_path (e : Env) : string :=
  match terminal_cfg e with
  | Some raw => strip raw
  | None => EmptyString
  end.

(** [_restart_main()] and [_restart_ui()]: what [Popen] raises is
    swallowed. *)
Definition _restart_main (e : Env) : U unit :=
  if negb (main_py_exists e) then mret tt else
  do (PopenMain (_find_python e) (main_py e) (_load_terminal_path e)).

Definition _restart_ui (e : Env) : U unit :=
  if negb (riskguard_ui_exists e) then mret tt else
  do (PopenUi (_find_python e) (riskguard_ui e)).

(** [main()]: the value returned is the exit code. *)
Definition main (e : Env) : U Z :=
  '(ok, msg) ← _ensure_git e;
  if negb ok then _write_status false msg EmptyString ;; mret 1 else
  '(ok, msg) ← _ensure_repo_clean e;
  if negb ok then _write_status false msg EmptyString ;; mret 2 else
  result ← _git e ["rev-parse"; "--is-inside-work-tree"];
  if failed result || negb (String.eqb (strip (stdout result)) "true")
  then _write_status false "Diretorio nao e um repositorio Git valido." EmptyString ;;
       mret 3
  else
  result ← _git e ["fetch"; "--tags"; "--prune"];
  if failed result
  then _write_status false "Falha ao buscar atualizacoes do GitHub." EmptyString ;;
       mret 4
  else
  tag ← _latest_tag e;
  applied ←
    (if truthy tag then
       result ← _git e ["checkout"; "-B"; "release"; tag];
       if failed result
       then _write_status false ("Falha ao aplicar tag " +:+ tag +:+ ".") EmptyString ;;
            mret (inl 5)
       else mret (inr tag)
     else
       result ← _git e ["pull"; "--ff-only"];
       if failed result
       then _write_status false "Falha ao atualizar a branch principal." EmptyString ;;
            mret (inl 6)
       else
         head ← _git e ["rev-parse"; "--short"; "HEAD"];
         if negb (failed head)
         then mret (inr (strip (stdout head)))
         else mret (inr EmptyString));
  match applied with
  | inl code => mret code
  | inr version =>
      '(ok, msg) ← _pip_install e;
      if negb ok then _write_status false msg version ;; mret 7 else
      _write_status true "Atualizacao concluida com sucesso." version ;;
      (if restart_ui e then _restart_main e ;; _restart_ui e else mret tt) ;;
      mret 0
  end.

End Update.

(** * Vocabulary of the statements *)

Local Open Scope list_scope.

(** A close request for ticket [t]. *)
Definition is_close_of (t : Z) (ev : Effect) : Prop :=
  match ev with
  | EvClose t' _ _ => t' = t
  | _ => False
  end.

(** A close request, for any ticket. *)
Definition is_close (ev : Effect) : bool :=
  match ev with
  | EvClose _ _ _ => true
  | _ => false
  end.

(** The place of [x] in [l]: its index, the length when it is absent. *)
Fixpoint rank (l : list Z) (x : Z) : nat :=
  match l with
  | [] => 0%nat
  | y :: l' => if decide (x = y) then 0%nat else S (rank l' x)
  end.

(** The order in which [l] lists its elements: an answer the oracle
    [set_order] can give. *)
Definition order_of (l : list Z) (x y : Z) : bool := Nat.leb (rank l x) (rank l y).

(** Ticket [t] is in the snapshot the call gets. *)
Definition in_snapshot (t : Z) (e : Limits.Env) : bool :=
  match Limits.snapshot e with
  | Some snap => bool_decide (t ∈ Limits.tickets_of snap)
  | None => false
  end.

(** Ticket numbers are not used again: once [t] is missing from a
    snapshot, it is in none of the later ones (a call whose snapshot
    raises sees nothing). *)
Fixpoint never_returns (t : Z) (envs : list Limits.Env) : bool :=
  match envs with
  | [] => true
  | e :: rest =>
      match Limits.snapshot e with
      | None => never_returns t rest
      | Some snap =>
          if bool_decide (t ∈ Limits.tickets_of snap)
          then never_returns t rest
          else forallb (fun e' => negb (in_snapshot t e')) rest
      end
  end.

(** The reports of the calls that returned. *)
Definition returned {A} (ress : list (Result A)) : list A :=
  omap (fun r => match r with Ok a => Some a | Raise _ => None end) ress.

(** What a run of calls does to ticket [t]: no report lists it as new, and
    the trace gains no close request for it. *)
Definition spared (t : Z) (w : World) (ress : list (Result Limits.Report)) (w' : World) : Prop :=
  (∀ rep, rep ∈ returned ress → t ∉ Limits.rep_new_tickets_detected rep) ∧
  ∃ evs, trace w' = trace w ++ evs ∧ ∀ ev, ev ∈ evs → ¬ is_close_of t ev.

(** ** Concrete inputs of the examples *)

Definition position_of (t : Z) (sym : string) (opened : option Z) : Position :=
  {| ticket := t; symbol := sym; side := 0; volume := 1%Q; open_time := opened |}.

Definition kill_idle : KillStatus := {| active := false; until := None |}.

(** A call at time [now] that gets [snap], finds the kill switch idle,
    and whose closes and arming succeed. *)
Definition tick (now : Z) (snap : option Snapshot) : Limits.Env :=
  {| Limits.snapshot := snap;
     Limits.set_order := Z.leb;
     Limits.now_idle := now; Limits.now_report := now;
     Limits.now_stamp := now; Limits.now_arm := now;
     Limits.kill_before := kill_idle; Limits.kill_after := kill_idle;
     Limits.arm_ok := true;
     Limits.close_outcome := fun _ => Closed |}.

(** No state file yet, nothing asked of the collaborators yet. *)
Definition fresh_world : World := {| state_file := None; trace := [] |}.

Definition snapshot_of (risk : Q) (ps : list Position) : Snapshot :=
  {| total_risk_pct := risk; positions := ps |}.

(** Below the maximum: a state whose block flag is down holds fewer than
    [N] attempts. *)
Definition below_max (N : Z) (st : LimitsState) : Prop :=
  risk_block_active st = false → block_attempts st < N.

(** The kill switch is this enforcer's own during the call a report is
    about: it was not active on entry, and it is active afterwards only
    if this call armed it. *)
Definition kill_switch_own (rep : Limits.Report) : Prop :=
  Limits.rep_kill_switch_active_before rep = false ∧
  (Limits.rep_kill_switch_active_after rep = true →
   Limits.rep_kill_switch_armed_now rep = true).

(** A state file holding [st], nothing asked of the collaborators yet. *)
Definition world_with (st : LimitsState) : World :=
  {| state_file := Some st; trace := [] |}.

(** A call like [tick] that finds the kill switch as [ks], on entry and
    afterwards. *)
Definition tick_under (ks : KillStatus) (now : Z) (snap : option Snapshot)
    : Limits.Env :=
  {| Limits.snapshot := snap;
     Limits.set_order := Z.leb;
     Limits.now_idle := now; Limits.now_report := now;
     Limits.now_stamp := now; Limits.now_arm := now;
     Limits.kill_before := ks; Limits.kill_after := ks;
     Limits.arm_ok := true;
     Limits.close_outcome := fun _ => Closed |}.

(** A call like [tick] on which [set_kill_until] raises and the kill
    switch is found as [ks], on entry and afterwards. *)
Definition tick_arm_fails (ks : KillStatus) (now : Z) (snap : option Snapshot)
    : Limits.Env :=
  {| Limits.snapshot := snap;
     Limits.set_order := Z.leb;
     Limits.now_idle := now; Limits.now_report := now;
     Limits.now_stamp := now; Limits.now_arm := now;
     Limits.kill_before := ks; Limits.kill_after := ks;
     Limits.arm_ok := false;
     Limits.close_outcome := fun _ => Closed |}.

(** A call like [tick] after which the kill switch is found active until
    [u]. *)
Definition tick_arming (now u : Z) (snap : option Snapshot) : Limits.Env :=
  {| Limits.snapshot := snap;
     Limits.set_order := Z.leb;
     Limits.now_idle := now; Limits.now_report := now;
     Limits.now_stamp := now; Limits.now_arm := now;
     Limits.kill_before := kill_idle;
     Limits.kill_after := {| active := true; until := Some u |};
     Limits.arm_ok := true;
     Limits.close_outcome := fun _ => Closed |}.

(** ** Vocabulary of the event-window statements *)

(** Ticket [t] is a position of the snapshot opened at most [recent_s]
    seconds before the call. *)
Definition recently_opened (reader : News.Env) (recent_s : Z) (t : Z) : Prop :=
  ∃ snap pos opened,
    News.snapshot reader = Some snap ∧ pos ∈ positions snap ∧ ticket pos = t ∧
    open_time pos = Some opened ∧
    News.now_utc reader - opened <= seconds recent_s.

(** Position [pos] is due for a close at the call: it has a symbol, it
    was opened at most [secs] seconds before the call, and the calendar
    holds an event for one of the currencies of its symbol at most
    [window_min] minutes before or after the call. *)
Definition due_for_close (reader : News.Env) (events_df : list NewsEvent)
    (window_min secs : Z) (pos : Position) : Prop :=
  symbol pos ≠ EmptyString ∧
  (∃ opened, open_time pos = Some opened ∧
             News.now_utc reader - opened <= seconds secs) ∧
  ∃ r, r ∈ events_df ∧
       currency r ∈ map_symbol_currencies (symbol pos) ∧
       News.now_utc reader - minutes window_min <= ts_utc r ∧
       ts_utc r <= News.now_utc reader + minutes window_min.

(** The call has asked the engine to close position [pos]. *)
Definition asked_to_close (pos : Position) (w : World)
    (out : Result News.Report * World) : Prop :=
  ∃ evs, trace out.2 = trace w ++ evs ∧
         EvClose (ticket pos) (symbol pos) "RG NewsBlock" ∈ evs.

(** What came out of a call only concerns recently opened positions: the
    close requests added to the trace and the entries of
    [report["affected"]]. *)
Definition only_recent (reader : News.Env) (recent_s : Z) (w : World)
    (out : Result News.Report * World) : Prop :=
  (∃ evs, trace out.2 = trace w ++ evs ∧
     ∀ ev t, ev ∈ evs → is_close_of t ev → recently_opened reader recent_s t) ∧
  (∀ report a, out.1 = Ok report → a ∈ News.affected report →
     recently_opened reader recent_s (News.aff_ticket a)).

(** [m] is the maximum of the non-empty list [xs]. *)
Definition is_latest (xs : list Z) (m : Z) : Prop :=
  m ∈ xs ∧ ∀ x, x ∈ xs → x <= m.

(** The timestamps of all the matches of a batch. *)
Definition batch_timestamps (affs : list News.Affected) : list Z :=
  ts_utc <$> concat (News.aff_matches <$> affs).

(** The close request the event-window enforcer issues for an entry of
    [report["affected"]]. *)
Definition news_close (a : News.Affected) : Effect :=
  EvClose (News.aff_ticket a) (News.aff_symbol a) "RG NewsBlock".

(** A call of the event-window enforcer at time [now] on [snap], whose
    collaborators all succeed. *)
Definition news_tick (now : Z) (snap : option Snapshot) : News.Env :=
  {| News.now_utc := now;
     News.snapshot := snap;
     News.close_outcome := fun _ => Closed;
     News.autotrading_on_ok := fun _ => true;
     News.arm_ok := fun _ => true;
     News.notify_ok := true |}.

Definition news_event (ccy : string) (ts : Z) (label : string) : NewsEvent :=
  {| currency := ccy; ts_utc := ts; event := label |}.

(** What holds of revision 0.2's loop after each position, [closes] being
    the trace it has added so far: only close requests were issued, one
    for every entry of [report["affected"]], and [max_until] is absent
    with no entry, or the latest timestamp of the matches of the batch
    plus the window. *)
Definition batch_invariant (window_min : Z) (report : News.Report)
    (max_until : option Z) (closes : list Effect) : Prop :=
  Forall (fun ev => is_close ev = true) closes ∧
  (∀ a, a ∈ News.affected report → news_close a ∈ closes) ∧
  ((News.affected report = [] ∧ max_until = None) ∨
   ∃ m, max_until = Some (m + minutes window_min) ∧
        is_latest (batch_timestamps (News.affected report)) m).

(** A burst: at [burst_time] two positions opened 10 and 20 seconds ago,
    USDJPY with a USD event in 5 minutes and EURGBP with a EUR event in
    10 minutes. *)
Definition burst_time : Z := minutes 600.

Definition burst : News.Env :=
  news_tick burst_time
    (Some (snapshot_of 1%Q
             [position_of 1 "USDJPY" (Some (burst_time - seconds 10));
              position_of 2 "EURGBP" (Some (burst_time - seconds 20))])).

Definition burst_calendar : list NewsEvent :=
  [news_event "USD" (burst_time + minutes 5) "CPI";
   news_event "EUR" (burst_time + minutes 10) "ECB"].

(** ** Vocabulary of the further statements on the enforcers *)

#[global] Instance CloseOutcome_eq_dec : EqDecision CloseOutcome.
Proof. solve_decision. Defined.

(** The positions of the snapshot whose ticket is new, in snapshot order. *)
Definition new_positions (new_tickets : list Z) (ps : list Position) : list Position :=
  filter (fun pos => ticket pos ∈ new_tickets) ps.

(** The positions on which closing has the outcome [o]. *)
Definition with_outcome_of (outcome : Z -> CloseOutcome) (o : CloseOutcome)
    (ps : list Position) : list Position :=
  filter (fun pos => outcome (ticket pos) = o) ps.

(** The close request of the aggregate-risk enforcer for a position, and
    the entry it writes to [report["closed"]] or [report["failed"]]. *)
Definition aggregate_close (pos : Position) : Effect :=
  EvClose (ticket pos) (symbol pos) "RG aggblock".

Definition entry_of (pos : Position) : Z * string := (ticket pos, symbol pos).

(** A request to the kill switch. *)
Definition is_arming (ev : Effect) : bool :=
  match ev with
  | EvSetKillUntil _ => true
  | _ => false
  end.

(** The positions that pass the guards of the event-window enforcer, in
    snapshot order. *)
Definition guarded_positions (reader : News.Env) (events_df : list NewsEvent)
    (window_min recent_s : Z) (ps : list Position) : list Position :=
  filter (fun pos => is_Some (News.matches_of reader events_df window_min recent_s pos)) ps.

(** The close request of the event-window enforcer for a position. *)
Definition news_position_close (pos : Position) : Effect :=
  EvClose (ticket pos) (symbol pos) "RG NewsBlock".

(** The ticket and symbol of an entry of [report["affected"]]. *)
Definition affected_entry (a : News.Affected) : Z * string :=
  (News.aff_ticket a, News.aff_symbol a).

(** A request to switch automated trading on. *)
Definition is_autotrading_on (ev : Effect) : bool :=
  match ev with
  | EvAutotradingOn => true
  | _ => false
  end.

(** Every close request of the trace comes right after a request to
    switch automated trading on. *)
Definition on_before_every_close (evs : list Effect) : Prop :=
  ∀ evs1 ev evs2,
    evs = evs1 ++ ev :: evs2 → is_close ev = true →
    ∃ evs0, evs1 = evs0 ++ [EvAutotradingOn].

(** ** Vocabulary of the statements on the daemon *)

(** The run [r] after the further actions [acts]. *)
Definition after (r : NewsDaemon.Run) (acts : list NewsDaemon.Action) : NewsDaemon.Run :=
  {| NewsDaemon.vars := NewsDaemon.vars r;
     NewsDaemon.limits_file := NewsDaemon.limits_file r;
     NewsDaemon.actions := NewsDaemon.actions r ++ acts |}.

(** The days on which the updater was started. *)
Definition updater_days (acts : list NewsDaemon.Action) : list Z :=
  omap (fun a => match a with NewsDaemon.Updater d => Some d | _ => None end) acts.

(** The day mark of the updater and the days on which it was started. *)
Definition update_state (r : NewsDaemon.Run) : option Z * list Z :=
  (NewsDaemon.LAST_CALENDAR_UPDATE_DAY (NewsDaemon.vars r),
   updater_days (NewsDaemon.actions r)).

(** A close request among the actions. *)
Definition is_close_action (a : NewsDaemon.Action) : bool :=
  match a with
  | NewsDaemon.Call ev => is_close ev
  | _ => false
  end.

(** The poll returned a snapshot in which a ticket of the report's
    affected positions is still open. *)
Definition some_alive (report : News.Report) (poll : option Snapshot) : Prop :=
  ∃ a snap2, a ∈ News.affected report ∧ poll = Some snap2 ∧
             News.aff_ticket a ∈ ticket <$> positions snap2.

(** No affected position of the report is open in the snapshot. *)
Definition all_gone (report : News.Report) (snap2 : Snapshot) : Prop :=
  ∀ a, a ∈ News.affected report → News.aff_ticket a ∉ ticket <$> positions snap2.

(** The actions of [n] polls each followed by the one-second sleep. *)
Definition waiting_polls (n : nat) : list NewsDaemon.Action :=
  concat (replicate n [NewsDaemon.Poll; NewsDaemon.Sleep 1]).

(** A daemon just started, with no state file of [limits.py]. *)
Definition fresh_run : NewsDaemon.Run :=
  {| NewsDaemon.vars := NewsDaemon.started;
     NewsDaemon.limits_file := None;
     NewsDaemon.actions := [] |}.

(** An iteration on day [day] at [clock] seconds, the kill switch never
    set: the updater is there and returns or not, the cache holds
    [calendar], the enforcer gets [reader] and the wait for closure gets
    [polls]. *)
Definition iter_on (day : Z) (clock : Q) (returns : bool)
    (calendar : option (list NewsEvent)) (reader : News.Env)
    (polls : list (option Snapshot)) : NewsDaemon.Iter :=
  {| NewsDaemon.kill_until_set := false;
     NewsDaemon.reenabled := false;
     NewsDaemon.clock_reenabled := clock;
     NewsDaemon.clock_antiflood := clock;
     NewsDaemon.clock_now := clock;
     NewsDaemon.today := day;
     NewsDaemon.updater_exists := true;
     NewsDaemon.updater_returns := returns;
     NewsDaemon.cached_calendar := calendar;
     NewsDaemon.reader := reader;
     NewsDaemon.polls := polls;
     NewsDaemon.autotrading_off_ok := true |}.

(** The invariant of the updater along a run whose last iteration was on
    day [bound]: [st] is the day mark and the days on which the updater
    was started.  No day twice, Sundays only, none after [bound], and a
    run on day [bound] has left its mark. *)
Definition marked_runs (bound : Z) (st : option Z * list Z) : Prop :=
  NoDup st.2 ∧
  (∀ d, d ∈ st.2 → NewsDaemon.weekday d = 6 ∧ d <= bound) ∧
  (bound ∈ st.2 → st.1 = Some bound).

(** The actions of iterations that stop at the anti-flood test. *)
Definition antiflood_actions (its : list NewsDaemon.Iter) : list NewsDaemon.Action :=
  concat ((λ it, (if NewsDaemon.kill_until_set it then [NewsDaemon.MaybeReenable] else [])
                   ++ [NewsDaemon.Sleep 1])
            <$> its).

(** The burst when every close is refused. *)
Definition burst_refused : News.Env :=
  {| News.now_utc := burst_time;
     News.snapshot := News.snapshot burst;
     News.close_outcome := fun _ => Refused;
     News.autotrading_on_ok := fun _ => true;
     News.arm_ok := fun _ => true;
     News.notify_ok := true |}.

(** The first position of the burst, a snapshot in which it is the only
    one, and a report that lists it as affected. *)
Definition usdjpy : Position :=
  position_of 1 "USDJPY" (Some (burst_time - seconds 10)).

Definition usdjpy_open : Snapshot := snapshot_of 1%Q [usdjpy].

Definition usdjpy_report : News.Report :=
  {| News.affected :=
       [{| News.aff_ticket := 1; News.aff_symbol := "USDJPY"; News.aff_matches := [] |}];
     News.closed := [(1, "USDJPY")];
     News.failed := [];
     News.kill_switch_until := None |}.

(** A daemon that re-enabled AutoTrading when the clock read [clock]. *)
Definition reenabled_at (clock : Q) : NewsDaemon.Run :=
  {| NewsDaemon.vars :=
       {| NewsDaemon.LAST_AUTOTRADE_REENABLE := clock;
          NewsDaemon.LAST_CALENDAR_UPDATE_DAY := None;
          NewsDaemon.last_load := 0;
          NewsDaemon.events_df := None |};
     NewsDaemon.limits_file := None;
     NewsDaemon.actions := [] |}.

(** ** Vocabulary of the statements on the updater *)




(** The commands that change the working tree or the installed
    packages, [git checkout], [git pull] and [python -m pip install],
    told by the word after the program. *)
Definition changes_tree (a : Update.Action) : bool :=
  match a with
  | Update.Run (_ :: word :: _) =>
      String.eqb word "checkout" || String.eqb word "pull" || String.eqb word "-m"
  | _ => false
  end.

(** The command returned with exit code 0 and [out] as its output once
    stripped. *)
Definition answered (e : Update.Env) (cmd : list string) (out : string) : Prop :=
  ∃ result, Update.run e cmd = Some result ∧ Update.failed result = false ∧
            Update.strip (Update.stdout result) = out.

(** An environment in which every command returns with exit code 0:
    the repository is clean, [git for-each-ref] prints [tags], and
    [--restart-ui] was given. *)
Definition healthy (tags : string) : Update.Env :=
  {| Update.run := fun cmd =>
       Some {| Update.returncode := 0;
               Update.stdout :=
                 match cmd with
                 | [_; "rev-parse"; "--is-inside-work-tree"] => "true"
                 | [_; "for-each-ref"; _; _; _] => tags
                 | _ => EmptyString
                 end;
               Update.stderr := EmptyString |};
     Update.requirements := "requirements.txt";
     Update.requirements_exists := true;
     Update.venv_python := "venv/Scripts/python.exe";
     Update.venv_python_exists := true;
     Update.sys_executable := "python";
     Update.main_py := "main.py";
     Update.main_py_exists := true;
     Update.riskguard_ui := "riskguard_ui.py";
     Update.riskguard_ui_exists := true;
     Update.terminal_cfg := None;
     Update.restart_ui := true |}.

(** The command returned, with exit code 0. *)
Definition succeeded (e : Update.Env) (cmd : list string) : Prop :=
  ∃ result, Update.run e cmd = Some result ∧ Update.failed result = false.

(** No character of the text is white space. *)
Fixpoint no_space (s : string) : bool :=
  match s with
  | EmptyString => true
  | String c s' => negb (Update.is_space c) && no_space s'
  end.

Definition line_feed : string := String "010" EmptyString.

(** ** Tactics *)

(** Runs the monad: unfolds its operations and simplifies. *)
Ltac run_M :=
  unfold mbind, M_bind, mret, M_ret, raise, emit, try_except,
    Limits._save_state, Limits._load_state in *;
  simpl in *.

(** The events a case of the loop body added are about its position. *)
Ltac only_close_of :=
  let ev := fresh "ev" in
  let t := fresh "t" in
  let Hev := fresh "Hev" in
  let Hcl := fresh "Hcl" in
  intros ev t Hev Hcl; simpl in Hev;
  repeat (apply elem_of_cons in Hev as [->|Hev];
          [simpl in Hcl; first [done | by symmetry]|]);
  by apply elem_of_nil in Hev.

(** The events added are not close requests. *)
Ltac only_close_of' :=
  let ev := fresh "ev" in
  let t := fresh "t" in
  let Hev := fresh "Hev" in
  intros ev t Hev; simpl in Hev;
  repeat (apply elem_of_cons in Hev as [->|Hev]; [simpl; tauto|]);
  by apply elem_of_nil in Hev.

Ltac news_finish :=
  eexists _, _; split; [rewrite <- ?app_assoc; simpl; reflexivity|];
  split; [first [by left | right; eauto]|];
  split; [only_close_of|];
  let a := fresh "a" in
  let Ha := fresh "Ha" in
  intros a Ha; unfold News.add_affected, News.set_kill_switch_until, News.add_closed in Ha;
  simpl in Ha;
  first [ by left
        | apply elem_of_app in Ha as [Ha|Ha];
          [by left|apply list_elem_of_singleton in Ha; subst a; right; eauto] ].

(** Runs the updater's monad. *)
Ltac run_U :=
  unfold Update.main, Update._ensure_git, Update._ensure_repo_clean,
    Update._latest_tag, Update._pip_install, Update._restart_main,
    Update._restart_ui, Update._write_status, Update._git, Update._run,
    Update.do, mbind, Update.U_bind, mret, Update.U_ret;
  simpl.



(** What the tests that came out false say. *)
Ltac facts_U :=
  repeat match goal with
         | H : _ || _ = false |- _ => apply orb_false_elim in H as [? ?]
         | H : negb _ = false |- _ => apply negb_false_iff in H
         | H : String.eqb _ _ = true |- _ => apply String.eqb_eq in H
         | H : Update.truthy ?s = false |- _ =>
             assert (s = EmptyString) by (by destruct s); clear H
         end.

Ltac answered_U :=
  unfold answered;
  first [ eexists; split; [eassumption|split; [eassumption|assumption]]
        | eexists; eexists; split; [eassumption|split; [eassumption|reflexivity]] ].


(** * Properties *)

(** ** Floats *)

Lemma pow2_pos k : (0 < pow2 k)%Q.
Proof. apply Qpower_0_lt. reflexivity. Qed.

Lemma pow2_add a b : (pow2 (a + b) == pow2 a * pow2 b)%Q.
Proof. apply Qpower_plus. discriminate. Qed.

Lemma pow2_le a b : a <= b → (pow2 a <= pow2 b)%Q.
Proof. intros H. apply Qpower_le_compat_l; [done|]. discriminate. Qed.

Lemma pow2_lt a b : a < b → (pow2 a < pow2 b)%Q.
Proof. intros H. apply Qpower_lt_compat_l; [done|]. reflexivity. Qed.

Lemma pow2_le_inv a b : (pow2 a <= pow2 b)%Q → a <= b.
Proof. intros H. apply (Qpower_le_compat_l_inv 2); [done|reflexivity]. Qed.

Lemma pow2_Z k : 0 <= k → (pow2 k == inject_Z (2 ^ k))%Q.
Proof. intros H. unfold pow2. by rewrite Zpower_Qpower. Qed.

Lemma pow2_cancel k : (pow2 k * pow2 (- k) == 1)%Q.
Proof. rewrite <- pow2_add. by replace (k + - k) with 0 by lia. Qed.

Lemma pow2_multiple k e :
  k <= e → (pow2 e == inject_Z (2 ^ (e - k)) * pow2 k)%Q.
Proof.
  intros H. rewrite <- pow2_Z by lia. rewrite <- pow2_add.
  by replace (e - k + k) with e by lia.
Qed.

#[global] Instance round_half_even_proper : Proper (Qeq ==> eq) round_half_even.
Proof.
  intros y y' H. unfold round_half_even.
  rewrite (Qfloor_comp y y' H).
  assert (Hc : (y - inject_Z (Qfloor y') ?= 1 # 2)%Q
               = (y' - inject_Z (Qfloor y') ?= 1 # 2)%Q).
  { apply Qcompare_comp; [by rewrite H|reflexivity]. }
  by rewrite Hc.
Qed.

Lemma round_half_even_Z z : round_half_even (inject_Z z) = z.
Proof.
  unfold round_half_even. rewrite Qfloor_Z.
  assert (H : (inject_Z z - inject_Z z ?= 1 # 2)%Q = Lt).
  { apply (proj1 (Qlt_alt _ _)).
    assert (H0 : (inject_Z z - inject_Z z == 0)%Q) by ring.
    rewrite H0. reflexivity. }
  by rewrite H.
Qed.

Lemma round_half_even_bounds y :
  Qfloor y <= round_half_even y <= Qfloor y + 1.
Proof.
  unfold round_half_even.
  destruct (Qcompare _ _); [destruct (Z.even _)| |]; lia.
Qed.

Lemma round_half_even_mono y y' :
  (y <= y')%Q → round_half_even y <= round_half_even y'.
Proof.
  intros H. pose proof (Qfloor_resp_le y y' H) as Hq.
  destruct (Z.eq_dec (Qfloor y) (Qfloor y')) as [Heq|Hne].
  - unfold round_half_even. rewrite Heq.
    destruct (Qcompare_spec (y - inject_Z (Qfloor y')) (1 # 2)) as [H1|H1|H1];
      destruct (Qcompare_spec (y' - inject_Z (Qfloor y')) (1 # 2)) as [H2|H2|H2];
      try destruct (Z.even _); try lia; exfalso; lra.
  - pose proof (round_half_even_bounds y). pose proof (round_half_even_bounds y').
    lia.
Qed.

#[global] Instance round_at_proper k : Proper (Qeq ==> Qeq) (round_at k).
Proof. intros x y H. unfold round_at. by rewrite H. Qed.

Lemma round_at_mono k x y : (x <= y)%Q → (round_at k x <= round_at k y)%Q.
Proof.
  intros H. unfold round_at.
  apply Qmult_le_compat_r; [|apply Qlt_le_weak, pow2_pos].
  rewrite <- Zle_Qle. apply round_half_even_mono.
  apply Qmult_le_compat_r; [done|apply Qlt_le_weak, pow2_pos].
Qed.

Lemma round_at_multiple k m : (round_at k (inject_Z m * pow2 k) == inject_Z m * pow2 k)%Q.
Proof.
  unfold round_at.
  assert (H : (inject_Z m * pow2 k * pow2 (- k) == inject_Z m)%Q).
  { rewrite <- Qmult_assoc, pow2_cancel. ring. }
  by rewrite H, round_half_even_Z.
Qed.

Lemma round_at_pow2 k e : k <= e → (round_at k (pow2 e) == pow2 e)%Q.
Proof.
  intros H. rewrite (pow2_multiple k e H). apply round_at_multiple.
Qed.

Lemma round_at_0 k : (round_at k 0 == 0)%Q.
Proof.
  assert (H : (0 == inject_Z 0 * pow2 k)%Q) by ring.
  eapply Qeq_trans; [apply (round_at_proper k _ _ H)|].
  eapply Qeq_trans; [apply round_at_multiple|]. by symmetry.
Qed.

Lemma Qnum_pos x : (0 < x)%Q → 0 < Qnum x.
Proof. destruct x as [n d]. unfold Qlt. simpl. lia. Qed.

Lemma Q_num_den x : (x * inject_Z (Z.pos (Qden x)) == inject_Z (Qnum x))%Q.
Proof.
  destruct x as [n d]. unfold Qeq, Qmult, inject_Z. simpl. lia.
Qed.

Lemma binade_spec x :
  (0 < x)%Q → (pow2 (binade x) <= x)%Q ∧ (x < pow2 (binade x + 1))%Q.
Proof.
  intros Hx. pose proof (Qnum_pos x Hx) as Hn.
  set (n := Qnum x) in *. set (d := Z.pos (Qden x)).
  assert (Hd : 0 < d) by done.
  pose proof (Z.log2_spec n Hn) as [Hn1 Hn2].
  pose proof (Z.log2_spec d Hd) as [Hd1 Hd2].
  pose proof (Z.log2_nonneg n) as Ha. pose proof (Z.log2_nonneg d) as Hb.
  set (a := Z.log2 n) in *. set (b := Z.log2 d) in *.
  pose proof (Q_num_den x) as Hxd. fold n d in Hxd.
  assert (Hdq : (0 < inject_Z d)%Q).
  { change 0%Q with (inject_Z 0). by rewrite <- Zlt_Qlt. }
  assert (Hlo : (pow2 (a - b - 1) <= x)%Q).
  { apply (Qmult_le_r _ _ (inject_Z d) Hdq). rewrite Hxd.
    apply Qle_trans with (pow2 (a - b - 1) * inject_Z (2 ^ (b + 1)))%Q.
    - apply Qmult_le_l; [apply pow2_pos|]. rewrite <- Zle_Qle. unfold Z.succ in Hd2. lia.
    - rewrite <- pow2_Z by lia. rewrite <- pow2_add.
      replace (a - b - 1 + (b + 1)) with a by lia.
      rewrite pow2_Z by lia. by rewrite <- Zle_Qle. }
  assert (Hhi : (x < pow2 (a - b + 1))%Q).
  { apply (Qmult_lt_r _ _ (inject_Z d) Hdq). rewrite Hxd.
    apply Qlt_le_trans with (pow2 (a - b + 1) * inject_Z (2 ^ b))%Q.
    - rewrite <- pow2_Z by lia. rewrite <- pow2_add.
      replace (a - b + 1 + b) with (a + 1) by lia.
      rewrite pow2_Z by lia. rewrite <- Zlt_Qlt. unfold Z.succ in Hn2. lia.
    - apply Qmult_le_l; [apply pow2_pos|]. by rewrite <- Zle_Qle. }
  unfold binade. fold n d a b. cbv zeta.
  destruct (Qle_bool (pow2 (a - b)) x) eqn:Hc.
  - apply Qle_bool_iff in Hc. done.
  - split; [done|]. replace (a - b - 1 + 1) with (a - b) by lia.
    apply Qnot_le_lt. intros H. apply Qle_bool_iff in H. congruence.
Qed.

Lemma binade_unique x e :
  (pow2 e <= x)%Q → (x < pow2 (e + 1))%Q → binade x = e.
Proof.
  intros Hlo Hhi.
  assert (Hx : (0 < x)%Q) by (eapply Qlt_le_trans; [apply pow2_pos|exact Hlo]).
  destruct (binade_spec x Hx) as [Hlo' Hhi'].
  assert (H1 : binade x < e + 1).
  { apply Z.nle_gt. intros H. apply pow2_le in H.
    apply (Qlt_irrefl x). eapply Qlt_le_trans; [exact Hhi|].
    eapply Qle_trans; [exact H|exact Hlo']. }
  assert (H2 : e < binade x + 1).
  { apply Z.nle_gt. intros H. apply pow2_le in H.
    apply (Qlt_irrefl x). eapply Qlt_le_trans; [exact Hhi'|].
    eapply Qle_trans; [exact H|exact Hlo]. }
  lia.
Qed.

Lemma binade_mono x y : (0 < x)%Q → (x <= y)%Q → binade x <= binade y.
Proof.
  intros Hx Hxy.
  assert (Hy : (0 < y)%Q) by (eapply Qlt_le_trans; eauto).
  destruct (binade_spec x Hx) as [Hlo _]. destruct (binade_spec y Hy) as [_ Hhi].
  apply Z.lt_succ_r. apply Z.nle_gt. intros H. unfold Z.succ in H.
  apply pow2_le in H. apply (Qlt_irrefl y). eapply Qlt_le_trans; [exact Hhi|].
  eapply Qle_trans; [exact H|]. eapply Qle_trans; eauto.
Qed.

Lemma binade_proper_pos x y :
  (x == y)%Q → (0 < x)%Q → binade x = binade y.
Proof.
  intros H Hx. destruct (binade_spec x Hx) as [Hlo Hhi].
  symmetry. apply binade_unique; by rewrite <- H.
Qed.

Lemma ulp_exponent_proper_pos x y :
  (x == y)%Q → (0 < x)%Q → ulp_exponent x = ulp_exponent y.
Proof. intros H Hx. unfold ulp_exponent. by rewrite (binade_proper_pos x y H Hx). Qed.

Lemma round_positive_nonneg x :
  (0 <= x)%Q → (0 <= round_at (ulp_exponent x) x)%Q.
Proof.
  intros Hx. rewrite <- (round_at_0 (ulp_exponent x)). by apply round_at_mono.
Qed.

(** A positive multiple of [2 ** j] with fewer than 54 bits is a double. *)
Lemma round_positive_double m j :
  0 < m < 2 ^ 53 → -1074 <= j →
  (round_at (ulp_exponent (inject_Z m * pow2 j)) (inject_Z m * pow2 j)
   == inject_Z m * pow2 j)%Q.
Proof.
  intros [Hm1 Hm2] Hj.
  pose proof (Z.log2_spec m Hm1) as [Hl1 Hl2]. unfold Z.succ in Hl2.
  pose proof (Z.log2_nonneg m) as Hl0.
  assert (Hl53 : Z.log2 m < 53) by (apply Z.log2_lt_pow2; lia).
  assert (Hb : binade (inject_Z m * pow2 j) = Z.log2 m + j).
  { apply binade_unique.
    - rewrite pow2_add. apply Qmult_le_compat_r; [|apply Qlt_le_weak, pow2_pos].
      rewrite pow2_Z by lia. by rewrite <- Zle_Qle.
    - replace (Z.log2 m + j + 1) with (Z.log2 m + 1 + j) by lia.
      rewrite pow2_add. apply Qmult_lt_r; [apply pow2_pos|].
      rewrite pow2_Z by lia. by rewrite <- Zlt_Qlt. }
  unfold ulp_exponent. rewrite Hb.
  set (k := Z.max (Z.log2 m + j - 52) (-1074)).
  assert (Hk : k <= j) by lia.
  assert (Hx : (inject_Z m * pow2 j == inject_Z (m * 2 ^ (j - k)) * pow2 k)%Q).
  { rewrite inject_Z_mult, <- Qmult_assoc. rewrite <- pow2_multiple by lia. reflexivity. }
  eapply Qeq_trans; [apply (round_at_proper k _ _ Hx)|].
  eapply Qeq_trans; [apply round_at_multiple|]. by symmetry.
Qed.

(** What rounding a positive number gives is a double. *)
Lemma round_positive_is_double x :
  (0 < x)%Q →
  (round_at (ulp_exponent x) x == 0)%Q ∨
  ∃ m j, 0 < m < 2 ^ 53 ∧ -1074 <= j ∧
         (round_at (ulp_exponent x) x == inject_Z m * pow2 j)%Q.
Proof.
  intros Hx. destruct (binade_spec x Hx) as [Hlo Hhi].
  set (e := binade x) in *. unfold ulp_exponent. fold e.
  set (k := Z.max (e - 52) (-1074)).
  set (r := round_half_even (x * pow2 (- k))).
  assert (Hr0 : 0 <= r).
  { unfold r. rewrite <- (round_half_even_Z 0). apply round_half_even_mono.
    apply Qmult_le_0_compat; [by apply Qlt_le_weak|apply Qlt_le_weak, pow2_pos]. }
  assert (Hr1 : r <= 2 ^ 53).
  { unfold r. rewrite <- (round_half_even_Z (2 ^ 53)). apply round_half_even_mono.
    rewrite <- pow2_Z by lia.
    apply Qle_trans with (pow2 (e + 1) * pow2 (- k))%Q.
    - apply Qmult_le_compat_r; [by apply Qlt_le_weak|apply Qlt_le_weak, pow2_pos].
    - rewrite <- pow2_add. apply pow2_le. lia. }
  unfold round_at. fold r.
  destruct (Z.eq_dec r 0) as [->|Hr].
  { left. ring. }
  right. destruct (Z.eq_dec r (2 ^ 53)) as [Hr53|Hr53].
  - exists 1, (k + 53). split; [lia|]. split; [lia|].
    rewrite Hr53, <- pow2_Z by lia. rewrite <- pow2_add.
    replace (53 + k) with (k + 53) by lia. ring.
  - exists r, k. split; [lia|]. split; [lia|]. reflexivity.
Qed.

Lemma round_positive_idem x :
  (0 < x)%Q →
  (0 < round_at (ulp_exponent x) x)%Q →
  (round_at (ulp_exponent (round_at (ulp_exponent x) x)) (round_at (ulp_exponent x) x)
   == round_at (ulp_exponent x) x)%Q.
Proof.
  intros Hx Hv.
  destruct (round_positive_is_double x Hx) as [H0|(m & j & Hm & Hj & Heq)].
  { rewrite H0 in Hv. by apply Qlt_irrefl in Hv. }
  rewrite (ulp_exponent_proper_pos _ _ Heq Hv). rewrite Heq.
  by apply round_positive_double.
Qed.

Lemma round_positive_mono x y :
  (0 < x)%Q → (x <= y)%Q →
  (round_at (ulp_exponent x) x <= round_at (ulp_exponent y) y)%Q.
Proof.
  intros Hx Hxy.
  assert (Hy : (0 < y)%Q) by (eapply Qlt_le_trans; eauto).
  pose proof (binade_mono x y Hx Hxy) as He.
  destruct (binade_spec x Hx) as [_ Hxhi]. destruct (binade_spec y Hy) as [Hylo _].
  unfold ulp_exponent.
  set (ex := binade x) in *. set (ey := binade y) in *.
  set (kx := Z.max (ex - 52) (-1074)). set (ky := Z.max (ey - 52) (-1074)).
  destruct (Z.eq_dec kx ky) as [Hk|Hk].
  { rewrite Hk. by apply round_at_mono. }
  assert (Hex : ex < ey) by lia.
  set (b := Z.max (ex + 1) kx).
  apply Qle_trans with (pow2 b).
  - rewrite <- (round_at_pow2 kx b) by lia. apply round_at_mono.
    apply Qlt_le_weak. eapply Qlt_le_trans; [exact Hxhi|]. apply pow2_le. lia.
  - apply Qle_trans with (pow2 ey); [apply pow2_le; lia|].
    rewrite <- (round_at_pow2 ky ey) by lia. by apply round_at_mono.
Qed.

(** [float] without the reduction of the fraction. *)
Lemma float_eq x :
  (float x == match Qcompare x 0 with
              | Eq => 0
              | Gt => round_at (ulp_exponent x) x
              | Lt => - round_at (ulp_exponent (- x)) (- x)
              end)%Q.
Proof. unfold float. apply Qred_correct. Qed.

Lemma float_pos x : (0 < x)%Q → (float x == round_at (ulp_exponent x) x)%Q.
Proof.
  intros H. rewrite float_eq.
  destruct (Qcompare_spec x 0%Q) as [H0|H0|H0]; [exfalso; lra|exfalso; lra|reflexivity].
Qed.

Lemma float_neg x : (x < 0)%Q → (float x == - round_at (ulp_exponent (- x)) (- x))%Q.
Proof.
  intros H. rewrite float_eq.
  destruct (Qcompare_spec x 0%Q) as [H0|H0|H0]; [exfalso; lra|reflexivity|exfalso; lra].
Qed.

Lemma float_zero x : (x == 0)%Q → (float x == 0)%Q.
Proof.
  intros H. rewrite float_eq.
  destruct (Qcompare_spec x 0%Q) as [H0|H0|H0]; [reflexivity|exfalso; lra|exfalso; lra].
Qed.

Lemma round_positive_proper x y :
  (x == y)%Q → (0 < x)%Q →
  (round_at (ulp_exponent x) x == round_at (ulp_exponent y) y)%Q.
Proof.
  intros H Hx. rewrite (ulp_exponent_proper_pos x y H Hx).
  by apply round_at_proper.
Qed.

Lemma float_proper x y : (x == y)%Q → float x = float y.
Proof.
  intros H. unfold float. apply Qred_complete.
  rewrite (Qcompare_comp x y H 0%Q 0%Q (Qeq_refl 0%Q)).
  destruct (Qcompare_spec y 0%Q) as [H0|H0|H0]; [reflexivity| |].
  - assert (Hx : (0 < - x)%Q) by (rewrite H; lra).
    assert (Hn : (- x == - y)%Q) by (by rewrite H).
    by rewrite (round_positive_proper _ _ Hn Hx).
  - assert (Hx : (0 < x)%Q) by (by rewrite H).
    by rewrite (round_positive_proper _ _ H Hx).
Qed.

(** Two roundings of the same value are the same fraction. *)
Lemma float_canonical x y : (float x == float y)%Q → float x = float y.
Proof.
  unfold float. intros H. apply Qred_complete.
  by rewrite !Qred_correct in H.
Qed.

(** Rounding keeps the order. *)
Lemma float_mono x y : (x <= y)%Q → (float x <= float y)%Q.
Proof.
  intros Hxy.
  destruct (Qcompare_spec x 0%Q) as [Hx|Hx|Hx];
    destruct (Qcompare_spec y 0%Q) as [Hy|Hy|Hy].
  - rewrite (float_zero x Hx), (float_zero y Hy). apply Qle_refl.
  - exfalso. lra.
  - rewrite (float_zero x Hx), (float_pos y Hy).
    apply round_positive_nonneg. lra.
  - rewrite (float_neg x Hx), (float_zero y Hy).
    assert (H := round_positive_nonneg (- x)). lra.
  - rewrite (float_neg x Hx), (float_neg y Hy).
    assert (H := round_positive_mono (- y) (- x)). lra.
  - rewrite (float_neg x Hx), (float_pos y Hy).
    assert (H1 := round_positive_nonneg (- x)).
    assert (H2 := round_positive_nonneg y). lra.
  - exfalso. lra.
  - exfalso. lra.
  - rewrite (float_pos x Hx), (float_pos y Hy). by apply round_positive_mono.
Qed.

(** A double is its own rounding. *)
Lemma float_idem x : float (float x) = float x.
Proof.
  apply float_canonical.
  destruct (Qcompare_spec x 0%Q) as [Hx|Hx|Hx].
  - rewrite (float_proper (float x) 0%Q (float_zero x Hx)).
    rewrite (float_zero x Hx). by apply float_zero.
  - pose proof (float_neg x Hx) as Hf.
    assert (Hp : (0 < - x)%Q) by lra.
    pose proof (round_positive_nonneg (- x) ltac:(lra)) as Hv.
    set (v := round_at (ulp_exponent (- x)) (- x)) in *.
    destruct (Qcompare_spec v 0%Q) as [Hv0|Hv0|Hv0]; [|exfalso; lra|].
    + assert (H0 : (float x == 0)%Q) by (rewrite Hf, Hv0; ring).
      rewrite (float_proper (float x) 0%Q H0). rewrite H0. by apply float_zero.
    + rewrite (float_proper (float x) (- v) Hf), Hf.
      rewrite (float_neg (- v)) by lra.
      assert (Hvv : (- - v == v)%Q) by ring.
      rewrite (round_positive_proper _ _ Hvv ltac:(lra)).
      unfold v. by rewrite round_positive_idem.
  - pose proof (float_pos x Hx) as Hf.
    pose proof (round_positive_nonneg x ltac:(lra)) as Hv.
    set (v := round_at (ulp_exponent x) x) in *.
    destruct (Qcompare_spec v 0%Q) as [Hv0|Hv0|Hv0]; [|exfalso; lra|].
    + assert (H0 : (float x == 0)%Q) by (by rewrite Hf, Hv0).
      rewrite (float_proper (float x) 0%Q H0). rewrite H0. by apply float_zero.
    + rewrite (float_proper (float x) v Hf), Hf.
      rewrite (float_pos v) by done.
      unfold v. by rewrite round_positive_idem.
Qed.

Lemma float_nonneg x : (0 <= x)%Q → (0 <= float x)%Q.
Proof.
  intros H. assert (H0 : (float 0%Q == 0)%Q) by (by apply float_zero).
  rewrite <- H0. by apply float_mono.
Qed.

(** ** Shared lemmas on the aggregate-risk enforcer *)

Import Limits.

Lemma elem_of_sorted_tickets (s : gset Z) (t : Z) :
  t ∈ sorted_tickets s ↔ t ∈ s.
Proof.
  unfold sorted_tickets.
  rewrite (merge_sort_Permutation Z.le (elements s)).
  apply elem_of_elements.
Qed.

Lemma sorted_tickets_nil (s : gset Z) :
  sorted_tickets s = [] ↔ s = ∅.
Proof.
  split.
  - intros H. apply set_eq. intros t. rewrite <- elem_of_sorted_tickets, H.
    set_solver.
  - intros ->. reflexivity.
Qed.

Lemma elem_of_new_tickets_of reader (cur : gset Z) (baseline : list Z) (t : Z) :
  t ∈ new_tickets_of reader cur baseline ↔ t ∈ cur ∧ t ∉ baseline.
Proof.
  unfold new_tickets_of, iterate. rewrite list_elem_of_filter.
  rewrite (merge_sort_Permutation _ (elements cur)), elem_of_elements.
  rewrite elem_of_list_to_set. tauto.
Qed.

Lemma rank_app pre l x :
  x ∉ pre → rank (pre ++ l) x = (length pre + rank l x)%nat.
Proof.
  induction pre as [|p pre IH]; intros Hx; [done|].
  apply not_elem_of_cons in Hx as [Hne Hx]. simpl.
  rewrite decide_False by done. by rewrite IH.
Qed.

Lemma rank_inj l x y : x ∈ l → rank l x = rank l y → x = y.
Proof.
  induction l as [|z l IH]; intros Hx Hr; [by apply elem_of_nil in Hx|].
  simpl in Hr. destruct (decide (x = z)) as [->|Hxz], (decide (y = z)) as [->|Hyz];
    try done.
  apply elem_of_cons in Hx as [?|Hx]; [done|]. apply IH; [done|]. by injection Hr.
Qed.

Lemma order_of_sorted pre l :
  NoDup (pre ++ l) →
  StronglySorted (λ x y, Is_true (order_of (pre ++ l) x y)) l.
Proof.
  revert pre. induction l as [|x l IH]; intros pre Hnd; [constructor|].
  apply NoDup_app in Hnd as (Hpre & Hdisj & Hl).
  apply NoDup_cons in Hl as [Hx Hl].
  constructor.
  - replace (pre ++ x :: l) with ((pre ++ [x]) ++ l) by (by rewrite <- app_assoc).
    apply IH. rewrite <- app_assoc. simpl.
    apply NoDup_app. split; [done|]. split; [done|]. by apply NoDup_cons.
  - apply Forall_forall. intros y Hy. unfold order_of. apply Is_true_true, Nat.leb_le.
    rewrite !rank_app.
    + simpl. rewrite decide_True by done. lia.
    + intros Hin. apply (Hdisj y Hin). by right.
    + intros Hin. apply (Hdisj x Hin). by left.
Qed.

(** Every order of the elements of the set is the one an oracle gives. *)
Lemma iterate_any_order (reader : Env) (s : gset Z) (l : list Z) :
  l ≡ₚ elements s →
  set_order reader = order_of l →
  iterate reader s = l.
Proof.
  intros Hperm Hord. unfold iterate. rewrite Hord.
  assert (Hnd : NoDup l) by (rewrite Hperm; apply NoDup_elements).
  apply (StronglySorted_unique_strong (λ x y, Is_true (order_of l x y))).
  - intros x1 x2 _ Hx2 H1 H2. unfold order_of in *.
    apply Is_true_true, Nat.leb_le in H1. apply Is_true_true, Nat.leb_le in H2.
    symmetry. apply (rank_inj l); [done|lia].
  - apply StronglySorted_merge_sort.
    + intros x y z H1 H2. unfold order_of in *.
      apply Is_true_true, Nat.leb_le in H1. apply Is_true_true, Nat.leb_le in H2.
      apply Is_true_true, Nat.leb_le. lia.
    + intros x y. unfold order_of.
      destruct (decide (rank l x <= rank l y)%nat);
        [left|right]; apply Is_true_true, Nat.leb_le; lia.
  - apply (order_of_sorted [] l Hnd).
  - by rewrite merge_sort_Permutation.
Qed.

Lemma tickets_of_nil (snap : Snapshot) :
  positions snap = [] → tickets_of snap = ∅.
Proof. unfold tickets_of. intros ->. reflexivity. Qed.

(** The closing loop only adds close requests, each for a new ticket of a
    position of the snapshot, and leaves the state file alone. *)
Lemma close_new_tickets_effects reader new_tickets ps :
  ∀ closed failed w res w',
    close_new_tickets reader new_tickets ps closed failed w = (res, w') →
    state_file w' = state_file w ∧
    ∃ evs, trace w' = trace w ++ evs ∧
      Forall (λ ev, ∃ pos, pos ∈ ps ∧ ticket pos ∈ new_tickets ∧
                ev = EvClose (ticket pos) (symbol pos) "RG aggblock") evs.
Proof.
  induction ps as [|pos ps IH]; intros closed failed w res w' H; simpl in H.
  - run_M. inversion H; subst. split; [done|]. exists []. rewrite app_nil_r. done.
  - case_bool_decide as Hin.
    + unfold close_position_full in H. run_M.
      destruct (close_outcome reader (ticket pos)) eqn:Hout; simpl in H.
      * apply IH in H as [Hs (evs & Ht & Hall)]. simpl in *.
        split; [done|]. exists (EvClose (ticket pos) (symbol pos) "RG aggblock" :: evs).
        split; [rewrite Ht, <- app_assoc; done|].
        constructor; [exists pos; split_and!; [left|done|done]|].
        eapply Forall_impl; [exact Hall|]. intros ev (p & ? & ? & ?). exists p. split_and!; [by right|done|done].
      * apply IH in H as [Hs (evs & Ht & Hall)]. simpl in *.
        split; [done|]. exists (EvClose (ticket pos) (symbol pos) "RG aggblock" :: evs).
        split; [rewrite Ht, <- app_assoc; done|].
        constructor; [exists pos; split_and!; [left|done|done]|].
        eapply Forall_impl; [exact Hall|]. intros ev (p & ? & ? & ?). exists p. split_and!; [by right|done|done].
      * inversion H; subst; simpl. split; [done|].
        exists [EvClose (ticket pos) (symbol pos) "RG aggblock"]. split; [done|].
        constructor; [exists pos; split_and!; [left|done|done]|constructor].
    + apply IH in H as [Hs (evs & Ht & Hall)]. split; [done|]. exists evs. split; [done|].
      eapply Forall_impl; [exact Hall|]. intros ev (p & ? & ? & ?). exists p. split_and!; [by right|done|done].
Qed.

(** When no close raises, the loop returns. *)
Lemma close_new_tickets_returns reader new_tickets ps :
  (∀ t, close_outcome reader t ≠ CloseRaises) →
  ∀ closed failed w, ∃ c f w',
    close_new_tickets reader new_tickets ps closed failed w = (Ok (c, f), w').
Proof.
  intros Hno. induction ps as [|pos ps IH]; intros closed failed w; simpl.
  - run_M. eauto.
  - case_bool_decide; [|apply IH].
    unfold close_position_full. run_M.
    specialize (Hno (ticket pos)).
    destruct (close_outcome reader (ticket pos)); simpl; [apply IH|apply IH|done].
Qed.

(** With no new ticket the loop does nothing at all. *)
Lemma close_new_tickets_none reader ps :
  ∀ closed failed w,
    close_new_tickets reader [] ps closed failed w = (Ok (closed, failed), w).
Proof.
  induction ps as [|pos ps IH]; intros closed failed w; simpl; [done|].
  apply IH.
Qed.

(** The order the oracle gives decides the order of the new tickets in
    the report: ascending with [Z.leb], descending with its converse. *)
Lemma new_tickets_follow_set_order :
  new_tickets_of (tick 0 None) {[ 100; 101; 7 ]} [7] = [100; 101] ∧
  new_tickets_of
    {| snapshot := None; set_order := λ x y, Z.leb y x;
       now_idle := 0; now_report := 0; now_stamp := 0; now_arm := 0;
       kill_before := kill_idle; kill_after := kill_idle; arm_ok := true;
       close_outcome := λ _, Closed |}
    {[ 100; 101; 7 ]} [7] = [101; 100].
Proof. split; vm_compute; reflexivity. Qed.

(** A failed snapshot ends the call before anything is read or written. *)
Lemma enforce_snapshot_raises reader thr N bm w :
  snapshot reader = None →
  enforce_aggregate_risk reader thr N bm w = (Raise SnapshotError, w).
Proof.
  intros H. unfold enforce_aggregate_risk, read_snapshot. rewrite H. reflexivity.
Qed.

(** With a snapshot, the call is one of the three branches, chosen by the
    stored baseline and the risk. *)
Lemma enforce_dispatch reader thr N bm w snap :
  snapshot reader = Some snap →
  let st0 := stored w in
  let rb := risk_block_active st0 || active (kill_before reader) in
  let a := attempts_on_entry reader bm st0 in
  let st := state_on_entry reader bm st0 in
  let cur := tickets_of snap in
  let report :=
    initial_report reader thr (float (total_risk_pct snap)) cur (baseline_tickets st0)
      a rb bm in
  enforce_aggregate_risk reader thr N bm w =
    match baseline_tickets st0 with
    | [] => first_run report st a rb cur w
    | _ :: _ =>
        if Qle_bool (float (total_risk_pct snap)) (with_epsilon thr)
        then risk_ok reader report st a rb cur w
        else risk_exceeded reader N bm report snap st (baseline_tickets st0) a rb cur w
    end.
Proof.
  intros H. unfold enforce_aggregate_risk, read_snapshot. rewrite H.
  run_M. destruct (baseline_tickets (stored w)); [reflexivity|].
  destruct (Qle_bool (float (total_risk_pct snap)) (with_epsilon thr)); reflexivity.
Qed.

Lemma baseline_state_on_entry reader bm st :
  baseline_tickets (state_on_entry reader bm st) = baseline_tickets st.
Proof. unfold state_on_entry. destruct decay_due; reflexivity. Qed.

Lemma risk_block_state_on_entry reader bm st :
  risk_block_active (state_on_entry reader bm st) = risk_block_active st.
Proof. unfold state_on_entry. destruct decay_due; reflexivity. Qed.

(** The first run: what is stored and reported. *)
Lemma first_run_returns report st a rb cur w :
  first_run report st a rb cur w =
    (Ok (with_outcome report (sorted_tickets cur) [] [] [] a rb (kill_unchanged report)),
     {| state_file :=
          Some {| baseline_tickets := sorted_tickets cur; block_attempts := a;
                  last_attempt_at := last_attempt_at st; risk_block_active := rb |};
        trace := trace w |}).
Proof. reflexivity. Qed.

(** The acceptable-risk branch: what is stored and reported. *)
Lemma risk_ok_returns reader report st a rb cur w :
  let reset := rb && negb (active (kill_before reader)) in
  risk_ok reader report st a rb cur w =
    (Ok (with_outcome report (sorted_tickets cur) [] [] []
           (if reset then 0 else a) (if reset then false else rb)
           (kill_unchanged report)),
     {| state_file :=
          Some {| baseline_tickets := sorted_tickets cur;
                  block_attempts := if reset then 0 else a;
                  last_attempt_at := if reset then None else last_attempt_at st;
                  risk_block_active := if reset then false else rb |};
        trace := trace w |}).
Proof.
  simpl. unfold risk_ok. run_M.
  destruct (rb && negb (active (kill_before reader))); reflexivity.
Qed.

(** The exceeded-risk branch stops on a close that raises, with nothing
    stored. *)
Lemma risk_exceeded_raises reader N bm report snap st baseline a rb cur w e w1 :
  close_new_tickets reader (new_tickets_of reader cur baseline) (positions snap) [] [] w
    = (Raise e, w1) →
  risk_exceeded reader N bm report snap st baseline a rb cur w = (Raise e, w1).
Proof. intros H. unfold risk_exceeded. run_M. rewrite H. reflexivity. Qed.

(** The exceeded-risk branch, once the closing loop has returned: what is
    stored, reported and asked of the kill switch. *)
Lemma risk_exceeded_returns reader N bm report snap st baseline a rb cur w c f w1 :
  close_new_tickets reader (new_tickets_of reader cur baseline) (positions snap) [] [] w
    = (Ok (c, f), w1) →
  let new := new_tickets_of reader cur baseline in
  let a' := a + Z.of_nat (length new) in
  let arming := bool_decide (N <= a') && negb (active (kill_before reader)) in
  let rb' := active (kill_after reader) || bool_decide (N <= a') || rb in
  risk_exceeded reader N bm report snap st baseline a rb cur w =
    (Ok (with_outcome report baseline new c f a' rb'
           (arming && arm_ok reader, active (kill_after reader), until (kill_after reader))),
     {| state_file :=
          Some {| baseline_tickets := baseline_tickets st;
                  block_attempts := a';
                  last_attempt_at :=
                    match new with
                    | [] => last_attempt_at st
                    | _ :: _ => Some (now_stamp reader)
                    end;
                  risk_block_active := rb' |};
        trace := trace w1 ++
                 if arming
                 then [EvSetKillUntil (now_arm reader + minutes (Z.max 1 bm))]
                 else [] |}).
Proof.
  intros H. simpl. unfold risk_exceeded. run_M. rewrite H.
  assert (Ha : (if negb (bool_decide (new_tickets_of reader cur baseline = []))
                then a + Z.of_nat (length (new_tickets_of reader cur baseline)) else a)
               = a + Z.of_nat (length (new_tickets_of reader cur baseline))).
  { destruct (new_tickets_of reader cur baseline); simpl; [lia|reflexivity]. }
  rewrite Ha. clear Ha.
  unfold arm_if_needed, observe_kill_switch, set_kill_until. run_M.
  set (a' := a + Z.of_nat (length (new_tickets_of reader cur baseline))).
  destruct (new_tickets_of reader cur baseline) eqn:Hnew;
    destruct (bool_decide (N <= a')), (active (kill_before reader)) eqn:Hkb,
      (arm_ok reader), (active (kill_after reader)) eqn:Hka, rb;
    simpl; rewrite ?Hkb, ?Hka, ?app_nil_r; simpl; reflexivity.
Qed.

(** One call with a snapshot: what it adds to the trace, which tickets it
    can report as new, and what becomes of the stored baseline. *)
Lemma enforce_step reader thr N bm w res w' snap :
  snapshot reader = Some snap →
  enforce_aggregate_risk reader thr N bm w = (res, w') →
  ∃ evs, trace w' = trace w ++ evs ∧
    (∀ ev t, ev ∈ evs → is_close_of t ev →
       t ∈ tickets_of snap ∧ t ∉ baseline_tickets (stored w)) ∧
    (∀ rep t, res = Ok rep → t ∈ rep_new_tickets_detected rep →
       t ∈ tickets_of snap ∧ t ∉ baseline_tickets (stored w)) ∧
    (baseline_tickets (stored w') = baseline_tickets (stored w) ∨
     ∀ t, t ∈ baseline_tickets (stored w') ↔ t ∈ tickets_of snap).
Proof.
  intros Hs H. rewrite (enforce_dispatch _ _ _ _ _ _ Hs) in H. simpl in H.
  destruct (baseline_tickets (stored w)) as [|b bs] eqn:Hb.
  - rewrite first_run_returns in H. inversion H; subst; clear H.
    exists []. simpl. rewrite app_nil_r. split_and!; [done|set_solver|set_solver|].
    right. intros t. unfold stored. simpl. apply elem_of_sorted_tickets.
  - destruct (Qle_bool (float (total_risk_pct snap)) (with_epsilon thr)).
    + rewrite risk_ok_returns in H. inversion H; subst; clear H.
      exists []. simpl. rewrite app_nil_r. split_and!; [done|set_solver|set_solver|].
      right. intros t. unfold stored. simpl. apply elem_of_sorted_tickets.
    + destruct (close_new_tickets reader (new_tickets_of reader (tickets_of snap) (b :: bs))
                  (positions snap) [] [] w) as [[[c f]|e] w1] eqn:Hc.
      * pose proof (close_new_tickets_effects _ _ _ _ _ _ _ _ Hc) as [Hst (evs & Ht & Hall)].
        rewrite (risk_exceeded_returns _ _ _ _ _ _ _ _ _ _ _ _ _ _ Hc) in H.
        inversion H; subst; clear H. simpl.
        eexists. split; [rewrite Ht, <- app_assoc; reflexivity|].
        split_and!.
        -- intros ev t Hev Hcl. apply elem_of_app in Hev as [Hev|Hev].
           ++ rewrite Forall_forall in Hall. apply Hall in Hev as (p & _ & Hn & ->).
              simpl in Hcl. subst t. by apply elem_of_new_tickets_of in Hn.
           ++ destruct (_ && _); [|by apply elem_of_nil in Hev].
              apply list_elem_of_singleton in Hev. subst ev. destruct Hcl.
        -- intros rep t [= <-] Hn. simpl in Hn. by apply elem_of_new_tickets_of in Hn.
        -- left. unfold stored at 1. simpl. by rewrite baseline_state_on_entry.
      * pose proof (close_new_tickets_effects _ _ _ _ _ _ _ _ Hc) as [Hst (evs & Ht & Hall)].
        rewrite (risk_exceeded_raises _ _ _ _ _ _ _ _ _ _ _ _ _ Hc) in H.
        inversion H; subst; clear H.
        exists evs. split_and!; [done| |done|].
        -- intros ev t Hev Hcl.
           rewrite Forall_forall in Hall. apply Hall in Hev as (p & _ & Hn & ->).
           simpl in Hcl. subst t. by apply elem_of_new_tickets_of in Hn.
        -- left. unfold stored. by rewrite Hst.
Qed.

(** ** Baseline tickets (C3, C8) *)

Lemma spared_nil t w : spared t w [] w.
Proof.
  split; [intros rep Hrep; by apply elem_of_nil in Hrep|].
  exists []. rewrite app_nil_r. split; [done|]. intros ev Hev. by apply elem_of_nil in Hev.
Qed.

Lemma spared_cons t w res w1 ress w2 :
  (∀ rep, res = Ok rep → t ∉ rep_new_tickets_detected rep) →
  (∃ evs, trace w1 = trace w ++ evs ∧ ∀ ev, ev ∈ evs → ¬ is_close_of t ev) →
  spared t w1 ress w2 →
  spared t w (res :: ress) w2.
Proof.
  intros Hrep (evs1 & Ht1 & Hn1) [Hreps (evs2 & Ht2 & Hn2)]. split.
  - intros rep Hin. unfold returned in Hin. simpl in Hin.
    destruct res as [rep0|e]; [|by apply Hreps].
    apply elem_of_cons in Hin as [->|Hin]; [by apply Hrep|by apply Hreps].
  - exists (evs1 ++ evs2). split; [by rewrite Ht2, Ht1, app_assoc|].
    intros ev Hev. apply elem_of_app in Hev as [Hev|Hev]; [by apply Hn1|by apply Hn2].
Qed.

(** A ticket that is in no snapshot of the run is spared. *)
Lemma calls_absent thr N bm t envs :
  forallb (fun e' => negb (in_snapshot t e')) envs = true →
  ∀ w ress w', calls thr N bm envs w = (ress, w') → spared t w ress w'.
Proof.
  induction envs as [|e envs IH]; intros Habs w ress w' H; simpl in H.
  - inversion H; subst. apply spared_nil.
  - simpl in Habs. apply andb_true_iff in Habs as [Ht Habs].
    destruct (enforce_aggregate_risk e thr N bm w) as [res w1] eqn:He.
    destruct (calls thr N bm envs w1) as [ress1 w2] eqn:Hc.
    inversion H; subst; clear H.
    specialize (IH Habs _ _ _ Hc).
    unfold in_snapshot in Ht.
    destruct (snapshot e) as [snap|] eqn:Hs.
    + apply negb_true_iff, bool_decide_eq_false in Ht.
      destruct (enforce_step _ _ _ _ _ _ _ _ Hs He) as (evs & Htr & Hcl & Hnew & _).
      eapply spared_cons; [| |exact IH].
      * intros rep -> Hin. by destruct (Hnew _ _ eq_refl Hin).
      * exists evs. split; [done|]. intros ev Hev Hc'. by destruct (Hcl _ _ Hev Hc').
    + rewrite (enforce_snapshot_raises _ _ _ _ _ Hs) in He. inversion He; subst; clear He.
      eapply spared_cons; [| |exact IH]; [done|].
      exists []. rewrite app_nil_r. split; [done|].
      intros ev Hev. by apply elem_of_nil in Hev.
Qed.

(** A ticket of the stored baseline is spared for as long as it stays in
    the snapshots, and after it has left them for good. *)
Lemma calls_baseline thr N bm t envs :
  ∀ w ress w',
    t ∈ baseline_tickets (stored w) →
    never_returns t envs = true →
    calls thr N bm envs w = (ress, w') → spared t w ress w'.
Proof.
  induction envs as [|e envs IH]; intros w ress w' Hin Hnr H; simpl in H.
  - inversion H; subst. apply spared_nil.
  - simpl in Hnr.
    destruct (enforce_aggregate_risk e thr N bm w) as [res w1] eqn:He.
    destruct (calls thr N bm envs w1) as [ress1 w2] eqn:Hc.
    inversion H; subst; clear H.
    destruct (snapshot e) as [snap|] eqn:Hs.
    + destruct (enforce_step _ _ _ _ _ _ _ _ Hs He) as (evs & Htr & Hcl & Hnew & Hbase).
      assert (Hthis : (∀ rep, res = Ok rep → t ∉ rep_new_tickets_detected rep) ∧
                (∃ evs, trace w1 = trace w ++ evs ∧ ∀ ev, ev ∈ evs → ¬ is_close_of t ev)).
      { split.
        - intros rep -> Hn. by destruct (Hnew _ _ eq_refl Hn).
        - exists evs. split; [done|]. intros ev Hev Hc'. by destruct (Hcl _ _ Hev Hc'). }
      destruct Hthis as [Hrep Hev].
      case_bool_decide as Hcur.
      * eapply spared_cons; [exact Hrep|exact Hev|].
        apply IH; [|done|done].
        destruct Hbase as [->|Hb]; [done|by apply Hb].
      * eapply spared_cons; [exact Hrep|exact Hev|].
        by eapply calls_absent.
    + rewrite (enforce_snapshot_raises _ _ _ _ _ Hs) in He. inversion He; subst; clear He.
      eapply spared_cons; [done| |by apply IH].
      exists []. rewrite app_nil_r. split; [done|].
      intros ev Hev. by apply elem_of_nil in Hev.
Qed.

(** A call that finds no stored baseline takes the first-run branch. *)
Lemma first_run_call reader thr N bm w snap :
  snapshot reader = Some snap →
  baseline_tickets (stored w) = [] →
  ∃ rep st',
    enforce_aggregate_risk reader thr N bm w
      = (Ok rep, {| state_file := Some st'; trace := trace w |}) ∧
    rep_new_tickets_detected rep = [] ∧ rep_closed rep = [] ∧ rep_failed rep = [] ∧
    rep_attempts_before rep = attempts_on_entry reader bm (stored w) ∧
    rep_attempts_after rep = rep_attempts_before rep ∧
    block_attempts st' = rep_attempts_after rep ∧
    last_attempt_at st' = last_attempt_at (state_on_entry reader bm (stored w)) ∧
    baseline_tickets st' = sorted_tickets (tickets_of snap).
Proof.
  intros Hs Hb. rewrite (enforce_dispatch _ _ _ _ _ _ Hs). simpl. rewrite Hb.
  rewrite first_run_returns. eexists _, _. split; [reflexivity|].
  simpl. split_and!; reflexivity.
Qed.

Lemma attempts_on_entry_le reader bm st :
  attempts_on_entry reader bm st <= block_attempts st.
Proof.
  unfold attempts_on_entry, decay_due.
  destruct (last_attempt_at st); [|lia].
  destruct (bool_decide (0 < block_attempts st)) eqn:Hpos; simpl; [|lia].
  apply bool_decide_eq_true in Hpos. destruct (bool_decide _); lia.
Qed.

(** C3 (as amended).  A ticket that is in the snapshot of the first run
    (the call that finds no stored baseline) is never listed as a new
    ticket and never gets a close request in any later call, provided its
    number is not used again: once the ticket is missing from a snapshot
    it is in none of the later ones. *)
Theorem C3_first_run_ticket_is_spared thr N bm e0 snap0 envs w t :
  baseline_tickets (stored w) = [] →
  snapshot e0 = Some snap0 →
  t ∈ tickets_of snap0 →
  never_returns t envs = true →
  spared t w (calls thr N bm (e0 :: envs) w).1 (calls thr N bm (e0 :: envs) w).2.
Proof.
  intros Hb Hs Ht Hnr. simpl.
  destruct (first_run_call e0 thr N bm w snap0 Hs Hb)
    as (rep & st' & He & Hnew & _ & _ & _ & _ & _ & _ & Hbase).
  rewrite He.
  destruct (calls thr N bm envs _) as [ress w2] eqn:Hc. simpl.
  eapply (spared_cons t w _ {| state_file := Some st'; trace := trace w |}).
  - intros rep' [= <-]. rewrite Hnew. apply not_elem_of_nil.
  - exists []. simpl. rewrite app_nil_r. split; [done|].
    intros ev Hev. by apply elem_of_nil in Hev.
  - eapply calls_baseline; [|exact Hnr|exact Hc].
    unfold stored. simpl. rewrite Hbase. by apply elem_of_sorted_tickets.
Qed.

(** The amended C3 on a run: ticket 7 is there at the first run, stays
    through a tick above the threshold that opens ticket 8, and is then
    gone. *)
Lemma C3_first_run_ticket_is_spared_witness :
  spared 7 fresh_world
    (calls 5%Q 3 60
       [tick 0 (Some (snapshot_of 3%Q [position_of 7 "EURUSD" None]));
        tick 1 (Some (snapshot_of 7%Q [position_of 7 "EURUSD" None;
                                       position_of 8 "GBPUSD" None]));
        tick 2 (Some (snapshot_of 7%Q [position_of 9 "USDJPY" None]))]
       fresh_world).1
    (calls 5%Q 3 60
       [tick 0 (Some (snapshot_of 3%Q [position_of 7 "EURUSD" None]));
        tick 1 (Some (snapshot_of 7%Q [position_of 7 "EURUSD" None;
                                       position_of 8 "GBPUSD" None]));
        tick 2 (Some (snapshot_of 7%Q [position_of 9 "USDJPY" None]))]
       fresh_world).2.
Proof.
  apply (C3_first_run_ticket_is_spared 5%Q 3 60
           (tick 0 (Some (snapshot_of 3%Q [position_of 7 "EURUSD" None])))
           (snapshot_of 3%Q [position_of 7 "EURUSD" None])).
  - reflexivity.
  - reflexivity.
  - apply (bool_decide_unpack _). vm_compute. exact I.
  - vm_compute. reflexivity.
Defined.

(** C3 as stated fails: ticket 7 is in the snapshot of the first run, is
    missing from the snapshot of an acceptable tick (the baseline becomes
    ticket 8 alone), and is back on a tick above the threshold, where it
    is listed as new and closed. *)
Lemma C3_counterexample :
  baseline_tickets (stored fresh_world) = [] ∧
  7 ∈ tickets_of (snapshot_of 3%Q [position_of 7 "EURUSD" None]) ∧
  ¬ spared 7 fresh_world
      (calls 5%Q 3 60
         [tick 0 (Some (snapshot_of 3%Q [position_of 7 "EURUSD" None]));
          tick 1 (Some (snapshot_of 3%Q [position_of 8 "GBPUSD" None]));
          tick 2 (Some (snapshot_of 7%Q [position_of 7 "EURUSD" None;
                                         position_of 8 "GBPUSD" None]))]
         fresh_world).1
      (calls 5%Q 3 60
         [tick 0 (Some (snapshot_of 3%Q [position_of 7 "EURUSD" None]));
          tick 1 (Some (snapshot_of 3%Q [position_of 8 "GBPUSD" None]));
          tick 2 (Some (snapshot_of 7%Q [position_of 7 "EURUSD" None;
                                         position_of 8 "GBPUSD" None]))]
         fresh_world).2.
Proof.
  split; [reflexivity|]. split; [apply (bool_decide_unpack _); vm_compute; exact I|].
  intros [_ (evs & Htr & Hno)].
  assert (Hrun : trace (calls 5%Q 3 60
         [tick 0 (Some (snapshot_of 3%Q [position_of 7 "EURUSD" None]));
          tick 1 (Some (snapshot_of 3%Q [position_of 8 "GBPUSD" None]));
          tick 2 (Some (snapshot_of 7%Q [position_of 7 "EURUSD" None;
                                         position_of 8 "GBPUSD" None]))]
         fresh_world).2 = [EvClose 7 "EURUSD" "RG aggblock"]).
  { vm_compute. reflexivity. }
  rewrite Hrun in Htr. simpl in Htr. subst evs.
  apply (Hno (EvClose 7 "EURUSD" "RG aggblock")); [left|reflexivity].
Qed.

(** C8.  A call that finds the stored baseline empty or absent takes the
    first-run branch whatever the risk: it returns, asks nothing of the
    engine, counts no attempt, and stores the tickets of the snapshot as
    the baseline.  A first run over zero positions stores an empty list,
    so the next call is a first run again and its positions become the
    baseline. *)
Theorem C8_empty_baseline_is_first_run reader thr N bm w snap :
  snapshot reader = Some snap →
  baseline_tickets (stored w) = [] →
  ∃ rep st',
    enforce_aggregate_risk reader thr N bm w
      = (Ok rep, {| state_file := Some st'; trace := trace w |}) ∧
    rep_new_tickets_detected rep = [] ∧ rep_closed rep = [] ∧ rep_failed rep = [] ∧
    rep_attempts_after rep = rep_attempts_before rep ∧
    block_attempts st' = rep_attempts_after rep ∧
    block_attempts st' <= block_attempts (stored w) ∧
    (∀ t, t ∈ baseline_tickets st' ↔ t ∈ tickets_of snap) ∧
    (positions snap = [] →
     baseline_tickets st' = [] ∧
     ∀ reader2 thr2 snap2,
       snapshot reader2 = Some snap2 →
       ∃ rep2 st2,
         enforce_aggregate_risk reader2 thr2 N bm
             {| state_file := Some st'; trace := trace w |}
           = (Ok rep2, {| state_file := Some st2; trace := trace w |}) ∧
         rep_new_tickets_detected rep2 = [] ∧ rep_closed rep2 = [] ∧
         rep_failed rep2 = [] ∧
         rep_attempts_after rep2 = rep_attempts_before rep2 ∧
         ∀ t, t ∈ baseline_tickets st2 ↔ t ∈ tickets_of snap2).
Proof.
  intros Hs Hb.
  destruct (first_run_call reader thr N bm w snap Hs Hb)
    as (rep & st' & He & Hnew & Hcl & Hf & Hbefore & Hafter & Hatt & _ & Hbase).
  exists rep, st'. split_and!; try done.
  - rewrite Hatt, Hafter, Hbefore. apply attempts_on_entry_le.
  - intros t. rewrite Hbase. apply elem_of_sorted_tickets.
  - intros Hnil.
    assert (Hb' : baseline_tickets st' = []).
    { rewrite Hbase. apply sorted_tickets_nil. by apply tickets_of_nil. }
    split; [done|]. intros reader2 thr2 snap2 Hs2.
    destruct (first_run_call reader2 thr2 N bm
                {| state_file := Some st'; trace := trace w |} snap2 Hs2 Hb')
      as (rep2 & st2 & He2 & Hnew2 & Hcl2 & Hf2 & _ & Hafter2 & _ & _ & Hbase2).
    exists rep2, st2. split_and!; try done.
    intros t. rewrite Hbase2. apply elem_of_sorted_tickets.
Qed.

(** C8 on a run: no state file, a first call over zero positions at a
    risk of 9 against a threshold of 5. *)
Lemma C8_empty_baseline_is_first_run_witness :
  ∃ rep st',
    enforce_aggregate_risk (tick 0 (Some (snapshot_of 9%Q []))) 5%Q 3 60 fresh_world
      = (Ok rep, {| state_file := Some st'; trace := trace fresh_world |}) ∧
    rep_new_tickets_detected rep = [] ∧ rep_closed rep = [] ∧ rep_failed rep = [] ∧
    rep_attempts_after rep = rep_attempts_before rep ∧
    block_attempts st' = rep_attempts_after rep ∧
    block_attempts st' <= block_attempts (stored fresh_world) ∧
    (∀ t, t ∈ baseline_tickets st' ↔ t ∈ tickets_of (snapshot_of 9%Q [])) ∧
    (positions (snapshot_of 9%Q []) = [] →
     baseline_tickets st' = [] ∧
     ∀ reader2 thr2 snap2,
       snapshot reader2 = Some snap2 →
       ∃ rep2 st2,
         enforce_aggregate_risk reader2 thr2 3 60
             {| state_file := Some st'; trace := trace fresh_world |}
           = (Ok rep2, {| state_file := Some st2; trace := trace fresh_world |}) ∧
         rep_new_tickets_detected rep2 = [] ∧ rep_closed rep2 = [] ∧
         rep_failed rep2 = [] ∧
         rep_attempts_after rep2 = rep_attempts_before rep2 ∧
         ∀ t, t ∈ baseline_tickets st2 ↔ t ∈ tickets_of snap2).
Proof.
  apply (C8_empty_baseline_is_first_run (tick 0 (Some (snapshot_of 9%Q []))) 5%Q 3 60
           fresh_world (snapshot_of 9%Q [])).
  - reflexivity.
  - reflexivity.
Defined.

(** ** Attempts and the block flag (C1, C5, C6, C10) *)

(** The threshold with its epsilon is a double. *)
Lemma with_epsilon_double (thr : Q) : float (with_epsilon thr) = with_epsilon thr.
Proof. unfold with_epsilon. apply float_idem. Qed.

(** A number under the rounded threshold is still under it once rounded. *)
Lemma float_within (total thr : Q) :
  Qle_bool total (with_epsilon thr) = true →
  Qle_bool (float total) (with_epsilon thr) = true.
Proof.
  intros H. apply Qle_bool_iff in H. apply Qle_bool_iff.
  rewrite <- with_epsilon_double. by apply float_mono.
Qed.

(** A risk at or below the threshold passes the test with the epsilon. *)
Lemma within_threshold (total thr : Q) :
  (total <= thr)%Q → Qle_bool (float total) (with_epsilon thr) = true.
Proof.
  intros H. apply Qle_bool_iff. unfold with_epsilon.
  apply Qle_trans with (y := float thr); [by apply float_mono|].
  rewrite <- (float_idem thr) at 1. apply float_mono.
  assert (He : (0 <= float (1 # 1000000000))%Q) by (by apply float_nonneg).
  lra.
Qed.

(** The rounding decides the test: the double [5.000000001] is above
    [5 + 10 ** -9] as a number, and the test of line 124 accepts it
    against a threshold of 5, because the sum of the doubles [5.0] and
    [1e-9] rounds to that same double. *)
Lemma with_epsilon_rounds :
  float (1407374883834755 # 281474976710656) = (1407374883834755 # 281474976710656)%Q ∧
  Qle_bool (1407374883834755 # 281474976710656) (5 + (1 # 1000000000)) = false ∧
  Qle_bool (float (1407374883834755 # 281474976710656)) (with_epsilon 5) = true.
Proof. split_and!; vm_compute; reflexivity. Qed.

(** A call at an acceptable risk: it returns, asks nothing of the engine,
    and leaves the attempts as they were or at zero. *)
Lemma acceptable_call reader thr N bm w snap :
  snapshot reader = Some snap →
  (total_risk_pct snap <= thr)%Q →
  ∃ rep st',
    enforce_aggregate_risk reader thr N bm w
      = (Ok rep, {| state_file := Some st'; trace := trace w |}) ∧
    rep_new_tickets_detected rep = [] ∧ rep_closed rep = [] ∧ rep_failed rep = [] ∧
    block_attempts st' = rep_attempts_after rep ∧
    (block_attempts st' = block_attempts (stored w) ∨ block_attempts st' = 0) ∧
    (risk_block_active (stored w) = false →
     active (kill_before reader) = false →
     decay_due (block_attempts (stored w)) (last_attempt_at (stored w))
       (now_idle reader) bm = false →
     block_attempts st' = block_attempts (stored w) ∧
     last_attempt_at st' = last_attempt_at (stored w) ∧
     risk_block_active st' = false).
Proof.
  intros Hs Hle. rewrite (enforce_dispatch _ _ _ _ _ _ Hs). simpl.
  rewrite (within_threshold _ _ Hle).
  destruct (baseline_tickets (stored w)) as [|b bs].
  - rewrite first_run_returns. eexists _, _. split; [reflexivity|]. simpl.
    split_and!; try reflexivity.
    + unfold attempts_on_entry. destruct decay_due; auto.
    + intros Hrb Hk Hd. unfold attempts_on_entry, state_on_entry.
      rewrite Hd, Hrb, Hk. done.
  - rewrite risk_ok_returns. eexists _, _. split; [reflexivity|]. simpl.
    split_and!; try reflexivity.
    + unfold attempts_on_entry. destruct (_ && _); [auto|]. destruct decay_due; auto.
    + intros Hrb Hk Hd. unfold attempts_on_entry, state_on_entry.
      rewrite Hd, Hrb, Hk. done.
Qed.

(** C5 (as amended).  Two calls in succession on the same snapshot, whose
    risk is at or below the threshold, both return and ask nothing of the
    engine; neither raises the attempts: each leaves them as they were or
    at zero (the decay of stale attempts, or the reset of a block whose
    kill switch has expired); and the attempts are unchanged when the
    block flag is down, the kill switch is not active and no decay falls
    due. *)
Theorem C5_acceptable_calls_close_nothing reader1 reader2 thr N bm w snap :
  snapshot reader1 = Some snap →
  snapshot reader2 = Some snap →
  (total_risk_pct snap <= thr)%Q →
  ∃ rep1 rep2 w',
    calls thr N bm [reader1; reader2] w = ([Ok rep1; Ok rep2], w') ∧
    trace w' = trace w ∧
    rep_new_tickets_detected rep1 = [] ∧ rep_closed rep1 = [] ∧ rep_failed rep1 = [] ∧
    rep_new_tickets_detected rep2 = [] ∧ rep_closed rep2 = [] ∧ rep_failed rep2 = [] ∧
    (rep_attempts_after rep1 = block_attempts (stored w) ∨ rep_attempts_after rep1 = 0) ∧
    (rep_attempts_after rep2 = rep_attempts_after rep1 ∨ rep_attempts_after rep2 = 0) ∧
    block_attempts (stored w') = rep_attempts_after rep2 ∧
    (risk_block_active (stored w) = false →
     active (kill_before reader1) = false →
     active (kill_before reader2) = false →
     decay_due (block_attempts (stored w)) (last_attempt_at (stored w))
       (now_idle reader1) bm = false →
     decay_due (block_attempts (stored w)) (last_attempt_at (stored w))
       (now_idle reader2) bm = false →
     block_attempts (stored w') = block_attempts (stored w)).
Proof.
  intros Hs1 Hs2 Hle.
  destruct (acceptable_call reader1 thr N bm w snap Hs1 Hle)
    as (rep1 & st1 & He1 & Hn1 & Hc1 & Hf1 & Ha1 & Hor1 & Hq1).
  destruct (acceptable_call reader2 thr N bm
              {| state_file := Some st1; trace := trace w |} snap Hs2 Hle)
    as (rep2 & st2 & He2 & Hn2 & Hc2 & Hf2 & Ha2 & Hor2 & Hq2).
  exists rep1, rep2, {| state_file := Some st2; trace := trace w |}.
  simpl. rewrite He1, He2. simpl in *. unfold stored in Hor2, Hq2. simpl in *.
  split_and!; try done.
  - by rewrite <- Ha1.
  - by rewrite <- Ha2, <- Ha1.
  - intros Hrb Hk1 Hk2 Hd1 Hd2.
    destruct (Hq1 Hrb Hk1 Hd1) as (Hb1 & Hl1 & Hr1).
    rewrite Hb1, Hl1 in Hq2. destruct (Hq2 Hr1 Hk2 Hd2) as (Hb2 & _ & _).
    unfold stored at 1. simpl. by rewrite Hb2.
Qed.

(** The amended C5 on a run: ticket 7 in the baseline, two attempts
    counted a second ago, a risk of 3 against a threshold of 5. *)
Lemma C5_acceptable_calls_close_nothing_witness :
  ∃ rep1 rep2 w',
    calls 5%Q 3 60
      [tick 1000000 (Some (snapshot_of 3%Q [position_of 7 "EURUSD" None]));
       tick 2000000 (Some (snapshot_of 3%Q [position_of 7 "EURUSD" None]))]
      (world_with {| baseline_tickets := [7]; block_attempts := 2;
                     last_attempt_at := Some 0; risk_block_active := false |})
      = ([Ok rep1; Ok rep2], w') ∧
    trace w' = [] ∧
    block_attempts (stored w') = 2.
Proof.
  destruct (C5_acceptable_calls_close_nothing
              (tick 1000000 (Some (snapshot_of 3%Q [position_of 7 "EURUSD" None])))
              (tick 2000000 (Some (snapshot_of 3%Q [position_of 7 "EURUSD" None])))
              5%Q 3 60
              (world_with {| baseline_tickets := [7]; block_attempts := 2;
                             last_attempt_at := Some 0; risk_block_active := false |})
              (snapshot_of 3%Q [position_of 7 "EURUSD" None])
              eq_refl eq_refl)
    as (rep1 & rep2 & w' & Hc & Ht & _ & _ & _ & _ & _ & _ & _ & _ & _ & Hsame).
  - unfold Qle. simpl. lia.
  - exists rep1, rep2, w'. split; [exact Hc|]. split; [exact Ht|].
    apply Hsame; reflexivity.
Defined.

(** C5 as stated fails: with three attempts stored, the block flag up and
    the kill switch no longer active, one call at a risk of 1 against a
    threshold of 5 takes the attempts from 3 to 0, although the snapshot
    is the same on both calls and nothing is closed. *)
Lemma C5_counterexample :
  (total_risk_pct (snapshot_of 1%Q [position_of 1 "EURUSD" None]) <= 5)%Q ∧
  block_attempts
    (stored (world_with {| baseline_tickets := [1]; block_attempts := 3;
                           last_attempt_at := Some 0; risk_block_active := true |})) = 3 ∧
  block_attempts
    (stored
       (calls 5%Q 3 60
          [tick 1000000 (Some (snapshot_of 1%Q [position_of 1 "EURUSD" None]));
           tick 2000000 (Some (snapshot_of 1%Q [position_of 1 "EURUSD" None]))]
          (world_with {| baseline_tickets := [1]; block_attempts := 3;
                         last_attempt_at := Some 0; risk_block_active := true |})).2) = 0.
Proof.
  split; [unfold Qle; simpl; lia|]. split; [reflexivity|]. vm_compute. reflexivity.
Qed.

(** A call above the threshold on which no close raises: what it returns,
    stores and asks of the collaborators. *)
Lemma exceeded_call reader thr N bm w snap :
  snapshot reader = Some snap →
  baseline_tickets (stored w) ≠ [] →
  Qle_bool (float (total_risk_pct snap)) (with_epsilon thr) = false →
  (∀ t, close_outcome reader t ≠ CloseRaises) →
  let st0 := stored w in
  let a := attempts_on_entry reader bm st0 in
  let rb := risk_block_active st0 || active (kill_before reader) in
  let new := new_tickets_of reader (tickets_of snap) (baseline_tickets st0) in
  let a' := a + Z.of_nat (length new) in
  let arming := bool_decide (N <= a') && negb (active (kill_before reader)) in
  let rb' := active (kill_after reader) || bool_decide (N <= a') || rb in
  ∃ c f evs,
    Forall (λ ev, is_close ev = true) evs ∧
    enforce_aggregate_risk reader thr N bm w =
      (Ok (with_outcome
             (initial_report reader thr (float (total_risk_pct snap)) (tickets_of snap)
                (baseline_tickets st0) a rb bm)
             (baseline_tickets st0) new c f a' rb'
             (arming && arm_ok reader, active (kill_after reader),
              until (kill_after reader))),
       {| state_file :=
            Some {| baseline_tickets := baseline_tickets st0;
                    block_attempts := a';
                    last_attempt_at :=
                      match new with
                      | [] => last_attempt_at (state_on_entry reader bm st0)
                      | _ :: _ => Some (now_stamp reader)
                      end;
                    risk_block_active := rb' |};
          trace := trace w ++ evs ++
                   if arming
                   then [EvSetKillUntil (now_arm reader + minutes (Z.max 1 bm))]
                   else [] |}).
Proof.
  intros Hs Hb Hq Hno. simpl.
  rewrite (enforce_dispatch _ _ _ _ _ _ Hs). simpl. rewrite Hq.
  destruct (baseline_tickets (stored w)) as [|b bs] eqn:Hbase; [done|].
  destruct (close_new_tickets_returns reader
              (new_tickets_of reader (tickets_of snap) (b :: bs)) (positions snap) Hno [] [] w)
    as (c & f & w1 & Hc).
  destruct (close_new_tickets_effects _ _ _ _ _ _ _ _ Hc) as [_ (evs & Ht & Hall)].
  exists c, f, evs. split.
  - eapply Forall_impl; [exact Hall|]. by intros ev (p & _ & _ & ->).
  - rewrite (risk_exceeded_returns _ _ _ _ _ _ _ _ _ _ _ _ _ _ Hc).
    rewrite Ht, <- app_assoc, baseline_state_on_entry, Hbase. reflexivity.
Qed.

(** A due decay brings the attempts on entry to zero and clears the stamp. *)
Lemma decay_applies reader bm st t :
  0 < block_attempts st →
  last_attempt_at st = Some t →
  minutes (Z.max 1 bm) <= now_idle reader - t →
  attempts_on_entry reader bm st = 0 ∧
  last_attempt_at (state_on_entry reader bm st) = None.
Proof.
  intros Hpos Hl Hidle.
  assert (Hd : decay_due (block_attempts st) (last_attempt_at st) (now_idle reader) bm = true).
  { rewrite Hl. simpl. apply andb_true_iff. split; apply bool_decide_eq_true; [done|].
    unfold seconds. unfold minutes in Hidle. lia. }
  unfold attempts_on_entry, state_on_entry. rewrite Hd. done.
Qed.

(** C6 (as amended).  With attempts stored and an idle time since
    [last_attempt_at] of at least [max(1, block_minutes)] minutes, the
    next call that gets a snapshot and on which no close raises returns
    after it has reset the attempts to zero and cleared [last_attempt_at]:
    its report starts from zero attempts, and it stores as attempts the
    number of new tickets it detected itself, so zero attempts and no
    [last_attempt_at] when it detected none. *)
Theorem C6_stale_attempts_decay reader thr N bm w snap t :
  snapshot reader = Some snap →
  0 < block_attempts (stored w) →
  last_attempt_at (stored w) = Some t →
  minutes (Z.max 1 bm) <= now_idle reader - t →
  (∀ k, close_outcome reader k ≠ CloseRaises) →
  ∃ rep st' tr,
    enforce_aggregate_risk reader thr N bm w
      = (Ok rep, {| state_file := Some st'; trace := tr |}) ∧
    rep_attempts_before rep = 0 ∧
    block_attempts st' = Z.of_nat (length (rep_new_tickets_detected rep)) ∧
    (rep_new_tickets_detected rep = [] →
     block_attempts st' = 0 ∧ last_attempt_at st' = None).
Proof.
  intros Hs Hpos Hl Hidle Hno.
  destruct (decay_applies reader bm (stored w) t Hpos Hl Hidle) as [Ha Hlast].
  destruct (baseline_tickets (stored w)) as [|b bs] eqn:Hb.
  - destruct (first_run_call reader thr N bm w snap Hs Hb)
      as (rep & st' & He & Hnew & _ & _ & Hbefore & Hafter & Hatt & Hl' & _).
    exists rep, st', (trace w). split; [exact He|].
    rewrite Hnew, Hatt, Hafter, Hbefore, Ha, Hl', Hlast. done.
  - destruct (Qle_bool (float (total_risk_pct snap)) (with_epsilon thr)) eqn:Hq.
    + rewrite (enforce_dispatch _ _ _ _ _ _ Hs). simpl. rewrite Hb, Hq.
      rewrite risk_ok_returns. eexists _, _, _. split; [reflexivity|]. simpl.
      rewrite Ha, Hlast. destruct (_ && _); done.
    + assert (Hne : baseline_tickets (stored w) ≠ []) by (by rewrite Hb).
      destruct (exceeded_call reader thr N bm w snap Hs Hne Hq Hno)
        as (c & f & evs & _ & He).
      eexists _, _, _. split; [exact He|]. simpl. rewrite Ha, Hlast.
      split; [done|]. split; [lia|]. intros ->. done.
Qed.

(** The amended C6 on a run: two attempts counted at time 0, a block
    window of 60 minutes, a call two hours later above the threshold with
    no new ticket. *)
Lemma C6_stale_attempts_decay_witness :
  ∃ rep st' tr,
    enforce_aggregate_risk
      (tick (minutes 120) (Some (snapshot_of 7%Q [position_of 7 "EURUSD" None])))
      5%Q 3 60
      (world_with {| baseline_tickets := [7]; block_attempts := 2;
                     last_attempt_at := Some 0; risk_block_active := false |})
      = (Ok rep, {| state_file := Some st'; trace := tr |}) ∧
    rep_attempts_before rep = 0 ∧
    block_attempts st' = Z.of_nat (length (rep_new_tickets_detected rep)) ∧
    (rep_new_tickets_detected rep = [] →
     block_attempts st' = 0 ∧ last_attempt_at st' = None).
Proof.
  apply (C6_stale_attempts_decay
           (tick (minutes 120) (Some (snapshot_of 7%Q [position_of 7 "EURUSD" None])))
           5%Q 3 60
           (world_with {| baseline_tickets := [7]; block_attempts := 2;
                          last_attempt_at := Some 0; risk_block_active := false |})
           (snapshot_of 7%Q [position_of 7 "EURUSD" None]) 0).
  - reflexivity.
  - simpl. lia.
  - reflexivity.
  - vm_compute. discriminate.
  - intros k. simpl. discriminate.
Defined.

(** C6 as stated fails: with [block_minutes = 0] and two attempts counted
    30 seconds ago, the idle time is at least [block_minutes], yet the
    next call keeps the two attempts and [last_attempt_at]: the window is
    never shorter than one minute. *)
Lemma C6_counterexample :
  0 < block_attempts
        (stored (world_with {| baseline_tickets := [7]; block_attempts := 2;
                               last_attempt_at := Some 0;
                               risk_block_active := false |})) ∧
  minutes 0 <= seconds 30 - 0 ∧
  ∃ rep,
    enforce_aggregate_risk
      (tick (seconds 30) (Some (snapshot_of 3%Q [position_of 7 "EURUSD" None])))
      5%Q 3 0
      (world_with {| baseline_tickets := [7]; block_attempts := 2;
                     last_attempt_at := Some 0; risk_block_active := false |})
    = (Ok rep,
       world_with {| baseline_tickets := [7]; block_attempts := 2;
                     last_attempt_at := Some 0; risk_block_active := false |}) ∧
    rep_attempts_before rep = 2 ∧ rep_attempts_after rep = 2.
Proof.
  split; [simpl; lia|]. split; [vm_compute; discriminate|].
  eexists. split; [vm_compute; reflexivity|]. split; reflexivity.
Qed.

(** Every call keeps the state below the maximum. *)
Lemma below_max_step reader thr N bm w res w' :
  1 <= N →
  below_max N (stored w) →
  enforce_aggregate_risk reader thr N bm w = (res, w') →
  below_max N (stored w').
Proof.
  intros HN HJ He. unfold below_max in *.
  pose proof (attempts_on_entry_le reader bm (stored w)) as Hle.
  destruct (snapshot reader) as [snap|] eqn:Hs.
  - rewrite (enforce_dispatch _ _ _ _ _ _ Hs) in He. simpl in He.
    destruct (baseline_tickets (stored w)) as [|b bs] eqn:Hb.
    + rewrite first_run_returns in He. inversion He; subst; clear He.
      unfold stored at 1 2. simpl. intros Hrb.
      apply orb_false_iff in Hrb as [Hrb _]. specialize (HJ Hrb). lia.
    + destruct (Qle_bool (float (total_risk_pct snap)) (with_epsilon thr)).
      * rewrite risk_ok_returns in He. inversion He; subst; clear He.
        unfold stored at 1 2. simpl.
        destruct ((risk_block_active (stored w) || active (kill_before reader))
                  && negb (active (kill_before reader))); [lia|].
        intros Hrb. apply orb_false_iff in Hrb as [Hrb _]. specialize (HJ Hrb). lia.
      * destruct (close_new_tickets reader (new_tickets_of reader (tickets_of snap) (b :: bs))
                    (positions snap) [] [] w) as [[[c f]|e] w1] eqn:Hc.
        -- rewrite (risk_exceeded_returns _ _ _ _ _ _ _ _ _ _ _ _ _ _ Hc) in He.
           inversion He; subst; clear He. unfold stored at 1 2. simpl.
           intros Hrb. apply orb_false_iff in Hrb as [Hrb _].
           apply orb_false_iff in Hrb as [_ Hrb].
           apply bool_decide_eq_false in Hrb. lia.
        -- rewrite (risk_exceeded_raises _ _ _ _ _ _ _ _ _ _ _ _ _ Hc) in He.
           inversion He; subst; clear He.
           destruct (close_new_tickets_effects _ _ _ _ _ _ _ _ Hc) as [Hst _].
           unfold stored in *. by rewrite Hst.
  - rewrite (enforce_snapshot_raises _ _ _ _ _ Hs) in He. by inversion He; subst.
Qed.

Lemma below_max_calls thr N bm envs :
  1 <= N →
  ∀ w, below_max N (stored w) → below_max N (stored (calls thr N bm envs w).2).
Proof.
  intros HN. induction envs as [|e envs IH]; intros w HJ; simpl; [done|].
  destruct (enforce_aggregate_risk e thr N bm w) as [res w1] eqn:He.
  pose proof (below_max_step _ _ _ _ _ _ _ HN HJ He) as HJ1.
  specialize (IH w1 HJ1).
  destruct (calls thr N bm envs w1) as [ress w2]. exact IH.
Qed.

(** With a snapshot and no close that raises, the call returns. *)
Lemma enforce_returns reader thr N bm w snap :
  snapshot reader = Some snap →
  (∀ t, close_outcome reader t ≠ CloseRaises) →
  ∃ rep w', enforce_aggregate_risk reader thr N bm w = (Ok rep, w').
Proof.
  intros Hs Hno.
  destruct (baseline_tickets (stored w)) as [|b bs] eqn:Hb.
  - destruct (first_run_call reader thr N bm w snap Hs Hb) as (rep & st' & He & _).
    eauto.
  - destruct (Qle_bool (float (total_risk_pct snap)) (with_epsilon thr)) eqn:Hq.
    + rewrite (enforce_dispatch _ _ _ _ _ _ Hs). simpl. rewrite Hb, Hq.
      rewrite risk_ok_returns. eauto.
    + assert (Hne : baseline_tickets (stored w) ≠ []) by (by rewrite Hb).
      destruct (exceeded_call reader thr N bm w snap Hs Hne Hq Hno)
        as (c & f & evs & _ & He).
      eauto.
Qed.

Lemma stored_some st tr :
  stored {| state_file := Some st; trace := tr |} = st.
Proof. reflexivity. Qed.

(** A call that returns with the kill switch active, on entry or as the
    report shows it afterwards, stores and reports the flag up: lines 79
    and 190 or the status into the flag. *)
Lemma active_kill_switch_is_block reader thr N bm w rep w' :
  enforce_aggregate_risk reader thr N bm w = (Ok rep, w') →
  active (kill_before reader) = true ∨ rep_kill_switch_active_after rep = true →
  risk_block_active (stored w') = true ∧ rep_risk_block_active_after rep = true.
Proof.
  intros He Hk.
  destruct (snapshot reader) as [snap|] eqn:Hs;
    [|by rewrite (enforce_snapshot_raises _ _ _ _ _ Hs) in He].
  rewrite (enforce_dispatch _ _ _ _ _ _ Hs) in He. simpl in He.
  destruct (baseline_tickets (stored w)) as [|b bs] eqn:Hb.
  - rewrite first_run_returns in He. inversion He; subst rep w'; clear He.
    rewrite stored_some. simpl in *.
    assert (Hkb : active (kill_before reader) = true) by (by destruct Hk).
    rewrite Hkb, orb_true_r. done.
  - destruct (Qle_bool (float (total_risk_pct snap)) (with_epsilon thr)).
    + rewrite risk_ok_returns in He. inversion He; subst rep w'; clear He.
      rewrite stored_some. simpl in *.
      assert (Hkb : active (kill_before reader) = true) by (by destruct Hk).
      rewrite Hkb, orb_true_r. done.
    + destruct (close_new_tickets reader (new_tickets_of reader (tickets_of snap) (b :: bs))
                  (positions snap) [] [] w) as [[[c f]|e] w1] eqn:Hc.
      * rewrite (risk_exceeded_returns _ _ _ _ _ _ _ _ _ _ _ _ _ _ Hc) in He.
        inversion He; subst rep w'; clear He.
        rewrite stored_some. simpl in *.
        destruct Hk as [Hkb|Hka]; [rewrite Hkb|rewrite Hka]; by rewrite ?orb_true_r.
      * by rewrite (risk_exceeded_raises _ _ _ _ _ _ _ _ _ _ _ _ _ Hc) in He.
Qed.

(** C1 (as amended).  Start below the maximum [N ≥ 1] (a flag that is
    down holds fewer than [N] attempts, as in a fresh state) and make any
    calls: the state stays below the maximum.  The next call returns when
    it gets a snapshot and no close raises, and if the stored flag was
    down and the kill switch is this enforcer's own (not active on entry,
    active afterwards only if this call armed it), then the call adds the
    number of new tickets it detected to the attempts it started from and
    stores the flag up exactly when the stored attempts are at least
    [N].  And whenever the call returns with the kill switch active, on
    entry or as the report shows it afterwards, it stores and reports
    the flag up whatever the attempts. *)
Theorem C1_flag_rises_at_max_attempts thr N bm envs reader w :
  1 <= N →
  below_max N (stored w) →
  below_max N (stored (calls thr N bm envs w).2) ∧
  (∀ snap, snapshot reader = Some snap →
     (∀ t, close_outcome reader t ≠ CloseRaises) →
     ∃ rep w2,
       enforce_aggregate_risk reader thr N bm (calls thr N bm envs w).2 = (Ok rep, w2)) ∧
  (∀ rep w2,
     enforce_aggregate_risk reader thr N bm (calls thr N bm envs w).2 = (Ok rep, w2) →
     risk_block_active (stored (calls thr N bm envs w).2) = false →
     kill_switch_own rep →
     rep_attempts_before rep
       = attempts_on_entry reader bm (stored (calls thr N bm envs w).2) ∧
     rep_attempts_after rep
       = rep_attempts_before rep + Z.of_nat (length (rep_new_tickets_detected rep)) ∧
     block_attempts (stored w2) = rep_attempts_after rep ∧
     risk_block_active (stored w2) = rep_risk_block_active_after rep ∧
     (risk_block_active (stored w2) = true ↔ N <= block_attempts (stored w2))) ∧
  ∀ rep w2,
    enforce_aggregate_risk reader thr N bm (calls thr N bm envs w).2 = (Ok rep, w2) →
    active (kill_before reader) = true ∨ rep_kill_switch_active_after rep = true →
    risk_block_active (stored w2) = true ∧ rep_risk_block_active_after rep = true.
Proof.
  intros HN HJ0.
  pose proof (below_max_calls thr N bm envs HN w HJ0) as HJ.
  set (w1 := (calls thr N bm envs w).2) in *.
  split; [exact HJ|]. split; [intros snap Hs Hno; by eapply enforce_returns|].
  split; [|intros rep w2 He; by apply (active_kill_switch_is_block _ _ _ _ _ _ _ He)].
  intros rep w2 He Hflag [Hkb Hka].
  pose proof (attempts_on_entry_le reader bm (stored w1)) as Hle.
  specialize (HJ Hflag).
  destruct (snapshot reader) as [snap|] eqn:Hs;
    [|by rewrite (enforce_snapshot_raises _ _ _ _ _ Hs) in He].
  rewrite (enforce_dispatch _ _ _ _ _ _ Hs) in He. simpl in He.
  destruct (baseline_tickets (stored w1)) as [|b bs] eqn:Hb.
  - rewrite first_run_returns in He. inversion He; subst rep w2; clear He.
    simpl in Hkb, Hka. rewrite !stored_some. simpl. rewrite Hflag, Hkb. simpl.
    split_and!; try done; [lia|]. split; [done|lia].
  - destruct (Qle_bool (float (total_risk_pct snap)) (with_epsilon thr)).
    + rewrite risk_ok_returns in He. inversion He; subst rep w2; clear He.
      simpl in Hkb, Hka. rewrite !stored_some. simpl. rewrite Hflag, Hkb. simpl.
      split_and!; try done; [lia|]. split; [done|lia].
    + destruct (close_new_tickets reader (new_tickets_of reader (tickets_of snap) (b :: bs))
                  (positions snap) [] [] w1) as [[[c f]|e] w1'] eqn:Hc.
      * rewrite (risk_exceeded_returns _ _ _ _ _ _ _ _ _ _ _ _ _ _ Hc) in He.
        inversion He; subst rep w2; clear He.
        simpl in Hkb, Hka. rewrite !stored_some. simpl. rewrite Hflag, Hkb in *. simpl in *.
        split_and!; try done.
        rewrite orb_false_r.
        destruct (bool_decide (N <= _)) eqn:Hmax.
        -- apply bool_decide_eq_true in Hmax. rewrite orb_true_r. done.
        -- rewrite orb_false_r. apply bool_decide_eq_false in Hmax.
           split; [|lia]. intros Hact. specialize (Hka Hact). done.
      * by rewrite (risk_exceeded_raises _ _ _ _ _ _ _ _ _ _ _ _ _ Hc) in He.
Qed.

(** The amended C1 on a run, with [N = 3]: a first run over tickets 7 and
    12, a tick above the threshold that opens ticket 100 (one attempt),
    then a tick above the threshold with tickets 101 and 102 open (three
    attempts): the flag goes up. *)
Lemma C1_flag_rises_at_max_attempts_witness :
  ∃ rep w2,
    enforce_aggregate_risk
      (tick_arming 2 (minutes 60)
         (Some (snapshot_of 7%Q [position_of 7 "XAU" None; position_of 12 "EURUSD" None;
                                 position_of 101 "GBPUSD" None;
                                 position_of 102 "USDJPY" None])))
      5%Q 3 60
      (calls 5%Q 3 60
         [tick 0 (Some (snapshot_of 3%Q [position_of 7 "XAU" None;
                                         position_of 12 "EURUSD" None]));
          tick 1 (Some (snapshot_of 7%Q [position_of 7 "XAU" None;
                                         position_of 12 "EURUSD" None;
                                         position_of 100 "GBPUSD" None]))]
         fresh_world).2
      = (Ok rep, w2) ∧
    rep_attempts_before rep = 1 ∧
    rep_attempts_after rep = 3 ∧
    risk_block_active (stored w2) = true.
Proof.
  destruct (C1_flag_rises_at_max_attempts 5%Q 3 60
              [tick 0 (Some (snapshot_of 3%Q [position_of 7 "XAU" None;
                                              position_of 12 "EURUSD" None]));
               tick 1 (Some (snapshot_of 7%Q [position_of 7 "XAU" None;
                                              position_of 12 "EURUSD" None;
                                              position_of 100 "GBPUSD" None]))]
              (tick_arming 2 (minutes 60)
                 (Some (snapshot_of 7%Q [position_of 7 "XAU" None;
                                         position_of 12 "EURUSD" None;
                                         position_of 101 "GBPUSD" None;
                                         position_of 102 "USDJPY" None])))
              fresh_world)
    as (_ & Hret & Hflag & _).
  - lia.
  - intros _. simpl. lia.
  - destruct (Hret _ eq_refl) as (rep & w2 & He); [intros t; simpl; discriminate|].
    exists rep, w2. split; [exact He|].
    destruct (Hflag rep w2 He) as (Hb & Ha & Hst & _ & Hiff).
    + vm_compute. reflexivity.
    + vm_compute in He. injection He as <- _. split; [reflexivity|]. intros _. reflexivity.
    + assert (Hrep : rep_attempts_before rep = 1 ∧ rep_attempts_after rep = 3).
      { vm_compute in He. injection He as <- _. split; reflexivity. }
      destruct Hrep as [Hb1 Ha3]. split; [exact Hb1|]. split; [exact Ha3|].
      apply Hiff. rewrite Hst, Ha3. lia.
Defined.

(** C1 as stated fails: with [N = 3], no attempt stored and the flag
    down, a call above the threshold that finds no new ticket but the
    kill switch active (armed elsewhere) stores the flag up with zero
    attempts. *)
Lemma C1_counterexample :
  risk_block_active
    (stored (world_with {| baseline_tickets := [1]; block_attempts := 0;
                           last_attempt_at := None;
                           risk_block_active := false |})) = false ∧
  ∃ rep w',
    enforce_aggregate_risk
      (tick_under {| active := true; until := Some (minutes 30) |} 0
         (Some (snapshot_of 7%Q [position_of 1 "EURUSD" None])))
      5%Q 3 60
      (world_with {| baseline_tickets := [1]; block_attempts := 0;
                     last_attempt_at := None; risk_block_active := false |})
      = (Ok rep, w') ∧
    rep_new_tickets_detected rep = [] ∧
    block_attempts (stored w') = 0 ∧
    0 <= 3 - 1 ∧
    risk_block_active (stored w') = true.
Proof.
  split; [reflexivity|]. eexists _, _. split; [vm_compute; reflexivity|].
  split_and!; [reflexivity|reflexivity|lia|reflexivity].
Qed.

(** ** The arming that raises (C10) *)

(** C10 (as amended).  On a call above the threshold (the test of line
    124 on doubles fails) whose attempts reach
    [max_block_attempts], with the kill switch not active on entry and
    [set_kill_until] raising, the enforcer swallows the exception and
    returns: the arming was asked for once, after the closes; the flag is
    stored and reported up; [kill_switch_armed_now] is false; and the
    report shows the kill switch as [kill_status()] gives it when read
    again after the failed arming, so inactive and with no [until] only
    if that is what the kill switch answers. *)
Theorem C10_failed_arming_is_swallowed reader thr N bm w snap :
  snapshot reader = Some snap →
  baseline_tickets (stored w) ≠ [] →
  Qle_bool (float (total_risk_pct snap)) (with_epsilon thr) = false →
  N <= attempts_on_entry reader bm (stored w)
       + Z.of_nat (length (new_tickets_of reader (tickets_of snap) (baseline_tickets (stored w)))) →
  active (kill_before reader) = false →
  arm_ok reader = false →
  (∀ t, close_outcome reader t ≠ CloseRaises) →
  ∃ rep st' evs,
    enforce_aggregate_risk reader thr N bm w
      = (Ok rep,
         {| state_file := Some st';
            trace := trace w ++ evs ++
                     [EvSetKillUntil (now_arm reader + minutes (Z.max 1 bm))] |}) ∧
    Forall (λ ev, is_close ev = true) evs ∧
    risk_block_active st' = true ∧
    rep_risk_block_active_after rep = true ∧
    rep_kill_switch_armed_now rep = false ∧
    rep_kill_switch_active_after rep = active (kill_after reader) ∧
    rep_kill_switch_until_after rep = until (kill_after reader) ∧
    (kill_after reader = {| active := false; until := None |} →
     rep_kill_switch_active_after rep = false ∧
     rep_kill_switch_until_after rep = None).
Proof.
  intros Hs Hb Hq Hmax Hkb Harm Hno.
  destruct (exceeded_call reader thr N bm w snap Hs Hb Hq Hno)
    as (c & f & evs & Hall & He).
  apply (bool_decide_eq_true_2 _) in Hmax.
  rewrite Hmax, Hkb, Harm in He. simpl in He.
  eexists _, _, evs. split; [exact He|]. simpl.
  split_and!; try done.
  - by rewrite orb_true_r.
  - by rewrite orb_true_r.
  - by intros ->.
Qed.

(** The amended C10 on a run: two attempts stored, [N = 3], ticket 2 new
    above the threshold, the arming raises and the kill switch answers
    inactive with no [until]. *)
Lemma C10_failed_arming_is_swallowed_witness :
  ∃ rep st' evs,
    enforce_aggregate_risk
      (tick_arm_fails kill_idle 10
         (Some (snapshot_of 7%Q [position_of 1 "EURUSD" None;
                                 position_of 2 "GBPUSD" None])))
      5%Q 3 60
      (world_with {| baseline_tickets := [1]; block_attempts := 2;
                     last_attempt_at := Some 0; risk_block_active := false |})
      = (Ok rep,
         {| state_file := Some st';
            trace := [] ++ evs ++ [EvSetKillUntil (10 + minutes (Z.max 1 60))] |}) ∧
    risk_block_active st' = true ∧
    rep_kill_switch_armed_now rep = false ∧
    rep_kill_switch_active_after rep = false ∧
    rep_kill_switch_until_after rep = None.
Proof.
  destruct (C10_failed_arming_is_swallowed
              (tick_arm_fails kill_idle 10
                 (Some (snapshot_of 7%Q [position_of 1 "EURUSD" None;
                                         position_of 2 "GBPUSD" None])))
              5%Q 3 60
              (world_with {| baseline_tickets := [1]; block_attempts := 2;
                             last_attempt_at := Some 0; risk_block_active := false |})
              (snapshot_of 7%Q [position_of 1 "EURUSD" None;
                                position_of 2 "GBPUSD" None]))
    as (rep & st' & evs & He & _ & Hst & _ & Harmed & _ & _ & Hidle).
  - reflexivity.
  - simpl. discriminate.
  - vm_compute. reflexivity.
  - vm_compute. discriminate.
  - reflexivity.
  - reflexivity.
  - intros t. simpl. discriminate.
  - exists rep, st', evs. destruct (Hidle eq_refl) as [Hact Hunt].
    split; [exact He|]. split_and!; assumption.
Defined.

(** C10 as stated fails: the flag is stored up and the exception
    swallowed, but the report does carry an [until]: the kill switch
    still holds the expired timestamp 5 of an earlier suspension, and
    the status read again after the failed arming replaces what the
    handler wrote. *)
Lemma C10_counterexample :
  ∃ rep st',
    enforce_aggregate_risk
      (tick_arm_fails {| active := false; until := Some 5 |} 10
         (Some (snapshot_of 7%Q [position_of 1 "EURUSD" None;
                                 position_of 2 "GBPUSD" None])))
      5%Q 3 60
      (world_with {| baseline_tickets := [1]; block_attempts := 2;
                     last_attempt_at := Some 0; risk_block_active := false |})
      = (Ok rep,
         {| state_file := Some st';
            trace := [EvClose 2 "GBPUSD" "RG aggblock";
                      EvSetKillUntil (10 + minutes 60)] |}) ∧
    rep_attempts_after rep = 3 ∧
    risk_block_active st' = true ∧
    rep_kill_switch_armed_now rep = false ∧
    rep_kill_switch_active_after rep = false ∧
    rep_kill_switch_until_after rep = Some 5 ∧
    rep_kill_switch_until_after rep ≠ None.
Proof.
  eexists _, _. split; [vm_compute; reflexivity|].
  split_and!; try reflexivity. discriminate.
Qed.

(** ** A snapshot that raises (C4) *)

(** C4, on the code.  [enforce_aggregate_risk] does not catch what
    [reader.snapshot()] raises, and the loop of [limits_watch.main] only
    catches [KeyboardInterrupt]: an iteration whose snapshot raises
    changes nothing in the state file, but it ends the loop, and the
    iterations that would have followed never run. *)
Theorem C4_snapshot_failure_ends_watch_loop thr N bm reader rest w :
  snapshot reader = None →
  enforce_aggregate_risk reader thr N bm w = (Raise SnapshotError, w) ∧
  LimitsWatch.main thr N bm (reader :: rest) w
    = (([], LimitsWatch.Crashed SnapshotError), w).
Proof.
  intros Hs. pose proof (enforce_snapshot_raises reader thr N bm w Hs) as He.
  split; [exact He|]. simpl. rewrite He. reflexivity.
Qed.

(** C4 on a run: the engine is unreachable on the first iteration and
    back on the second, which never runs. *)
Lemma C4_snapshot_failure_ends_watch_loop_witness :
  LimitsWatch.main 5%Q 3 60
    [tick 0 None; tick 1 (Some (snapshot_of 3%Q [position_of 7 "EURUSD" None]))]
    fresh_world
  = (([], LimitsWatch.Crashed SnapshotError), fresh_world).
Proof.
  apply (C4_snapshot_failure_ends_watch_loop 5%Q 3 60 (tick 0 None)
           [tick 1 (Some (snapshot_of 3%Q [position_of 7 "EURUSD" None]))] fresh_world).
  reflexivity.
Defined.

(** The event-window enforcer, in both revisions, does what C4 says: a
    snapshot that raises gives the empty report and changes nothing. *)
Lemma news_snapshot_failure_is_skipped reader events_df window_min recent_s w :
  News.snapshot reader = None →
  News01.enforce_news_window reader events_df window_min recent_s w
    = (Ok News.empty_report, w) ∧
  News02.enforce_news_window reader events_df window_min recent_s w
    = (Ok News.empty_report, w).
Proof.
  intros Hs.
  unfold News01.enforce_news_window, News02.enforce_news_window, News.read_snapshot.
  rewrite Hs. split; reflexivity.
Qed.

(** ** More on the aggregate-risk enforcer *)

(** The closing loop, when no close of a new position raises: one request
    per position with a new ticket, in snapshot order, each recorded as
    closed or failed by its own outcome. *)
Lemma close_new_tickets_exact reader new_tickets ps :
  (∀ pos, pos ∈ ps → ticket pos ∈ new_tickets →
     close_outcome reader (ticket pos) ≠ CloseRaises) →
  ∀ closed failed w,
    close_new_tickets reader new_tickets ps closed failed w =
      (Ok (closed ++ (entry_of <$> with_outcome_of (close_outcome reader) Closed
                                     (new_positions new_tickets ps)),
           failed ++ (entry_of <$> with_outcome_of (close_outcome reader) Refused
                                     (new_positions new_tickets ps))),
       {| state_file := state_file w;
          trace := trace w ++ (aggregate_close <$> new_positions new_tickets ps) |}).
Proof.
  unfold with_outcome_of, new_positions.
  induction ps as [|pos ps IH]; intros Hno closed failed w.
  - simpl. rewrite !app_nil_r. by destruct w.
  - cbn [close_new_tickets]. rewrite (filter_cons _ pos).
    assert (Hno' : ∀ p, p ∈ ps → ticket p ∈ new_tickets →
                     close_outcome reader (ticket p) ≠ CloseRaises).
    { intros p Hp. apply Hno. by right. }
    case_bool_decide as Hin.
    + rewrite decide_True by done.
      specialize (Hno pos ltac:(left) Hin).
      unfold close_position_full. run_M.
      rewrite !(filter_cons _ pos).
      destruct (close_outcome reader (ticket pos)) eqn:Hout; [| |done]; simpl.
      * rewrite IH by done. simpl. by rewrite <- !app_assoc.
      * rewrite IH by done. simpl. by rewrite <- !app_assoc.
    + rewrite decide_False by done. by apply IH.
Qed.

(** The closing loop stops on the first close that raises. *)
Lemma close_new_tickets_stops reader new_tickets ps :
  (∃ pos, pos ∈ ps ∧ ticket pos ∈ new_tickets ∧
          close_outcome reader (ticket pos) = CloseRaises) →
  ∀ closed failed w, ∃ evs,
    close_new_tickets reader new_tickets ps closed failed w =
      (Raise CloseError, {| state_file := state_file w; trace := trace w ++ evs |}) ∧
    evs ≠ [] ∧ Forall (λ ev, is_close ev = true) evs.
Proof.
  induction ps as [|pos ps IH]; intros (p & Hp & Hnew & Hraise) closed failed w.
  - by apply elem_of_nil in Hp.
  - cbn [close_new_tickets].
    assert (Hrest : p ≠ pos →
              ∃ pos0, pos0 ∈ ps ∧ ticket pos0 ∈ new_tickets ∧
                      close_outcome reader (ticket pos0) = CloseRaises).
    { intros Hne. exists p. apply elem_of_cons in Hp as [->|Hp]; done. }
    case_bool_decide as Hin.
    + unfold close_position_full. run_M.
      destruct (close_outcome reader (ticket pos)) eqn:Hout; simpl.
      * destruct (IH (Hrest ltac:(intros ->; congruence)) (closed ++ [(ticket pos, symbol pos)])
                    failed {| state_file := state_file w;
                              trace := trace w ++
                                [EvClose (ticket pos) (symbol pos) "RG aggblock"] |})
          as (evs & -> & Hne & Hall).
        exists (EvClose (ticket pos) (symbol pos) "RG aggblock" :: evs).
        simpl. rewrite <- app_assoc. split; [done|]. split; [done|by constructor].
      * destruct (IH (Hrest ltac:(intros ->; congruence)) closed
                    (failed ++ [(ticket pos, symbol pos)])
                    {| state_file := state_file w;
                       trace := trace w ++
                         [EvClose (ticket pos) (symbol pos) "RG aggblock"] |})
          as (evs & -> & Hne & Hall).
        exists (EvClose (ticket pos) (symbol pos) "RG aggblock" :: evs).
        simpl. rewrite <- app_assoc. split; [done|]. split; [done|by constructor].
      * exists [EvClose (ticket pos) (symbol pos) "RG aggblock"].
        split; [done|]. split; [done|]. by repeat constructor.
    + apply IH. apply Hrest. intros ->. done.
Qed.

(** X1.  A call above the threshold (the test of line 124 fails: the
    risk as a double is above the rounded sum of the threshold and
    [1e-9]) never changes the stored baseline, whether it returns or a
    close raises: the tickets it reports as new (and closes) stay out of
    the baseline. *)
Theorem exceeded_call_keeps_baseline reader thr N bm w snap :
  snapshot reader = Some snap →
  baseline_tickets (stored w) ≠ [] →
  Qle_bool (float (total_risk_pct snap)) (with_epsilon thr) = false →
  baseline_tickets (stored (enforce_aggregate_risk reader thr N bm w).2)
    = baseline_tickets (stored w) ∧
  ∀ rep, (enforce_aggregate_risk reader thr N bm w).1 = Ok rep →
    rep_baseline_tickets rep = baseline_tickets (stored w) ∧
    ∀ t, t ∈ rep_new_tickets_detected rep →
      t ∈ tickets_of snap ∧
      t ∉ baseline_tickets (stored (enforce_aggregate_risk reader thr N bm w).2).
Proof.
  intros Hs Hb Hq.
  destruct (enforce_aggregate_risk reader thr N bm w) as [res w'] eqn:He. simpl.
  destruct (enforce_step _ _ _ _ _ _ _ _ Hs He) as (evs & _ & _ & Hnew & _).
  rewrite (enforce_dispatch _ _ _ _ _ _ Hs) in He. simpl in He. rewrite Hq in He.
  destruct (baseline_tickets (stored w)) as [|b bs] eqn:Hbase; [done|].
  destruct (close_new_tickets reader (new_tickets_of reader (tickets_of snap) (b :: bs))
              (positions snap) [] [] w) as [[[c f]|e] w1] eqn:Hc.
  - rewrite (risk_exceeded_returns _ _ _ _ _ _ _ _ _ _ _ _ _ _ Hc) in He.
    inversion He; subst res w'; clear He. rewrite stored_some. simpl.
    rewrite baseline_state_on_entry, Hbase. split; [done|].
    intros rep [= <-]. simpl. split; [done|]. intros t Ht.
    by apply elem_of_new_tickets_of in Ht.
  - rewrite (risk_exceeded_raises _ _ _ _ _ _ _ _ _ _ _ _ _ Hc) in He.
    inversion He; subst res w'; clear He.
    destruct (close_new_tickets_effects _ _ _ _ _ _ _ _ Hc) as [Hst _].
    unfold stored in *. rewrite Hst, Hbase. done.
Qed.

Lemma exceeded_call_keeps_baseline_witness :
  baseline_tickets
    (stored (enforce_aggregate_risk
               (tick 5 (Some (snapshot_of 7%Q [position_of 7 "EURUSD" None;
                                               position_of 100 "GBPUSD" None])))
               5%Q 3 60
               (world_with {| baseline_tickets := [7]; block_attempts := 0;
                              last_attempt_at := None;
                              risk_block_active := false |})).2) = [7].
Proof.
  destruct (exceeded_call_keeps_baseline
              (tick 5 (Some (snapshot_of 7%Q [position_of 7 "EURUSD" None;
                                              position_of 100 "GBPUSD" None])))
              5%Q 3 60
              (world_with {| baseline_tickets := [7]; block_attempts := 0;
                             last_attempt_at := None; risk_block_active := false |})
              (snapshot_of 7%Q [position_of 7 "EURUSD" None;
                                position_of 100 "GBPUSD" None]))
    as [Hkept _].
  - reflexivity.
  - simpl. discriminate.
  - vm_compute. reflexivity.
  - exact Hkept.
Defined.

(** X2.  Above the threshold (the test of line 124 on doubles fails),
    when no close of a new position raises, the call asks the engine to
    close every position of the snapshot whose ticket is new, once each
    and in snapshot order, before anything else; a refused close does not
    stop the others, and the report lists each position as closed or
    failed by its own outcome.  The new tickets it reports are the
    tickets of the snapshot that are not in the baseline, in the order
    the iteration over the set gives them. *)
Theorem exceeded_call_closes_every_new_position reader thr N bm w snap :
  snapshot reader = Some snap →
  baseline_tickets (stored w) ≠ [] →
  Qle_bool (float (total_risk_pct snap)) (with_epsilon thr) = false →
  (∀ pos, pos ∈ positions snap →
     close_outcome reader (ticket pos) ≠ CloseRaises) →
  let new := new_tickets_of reader (tickets_of snap) (baseline_tickets (stored w)) in
  let closing := new_positions new (positions snap) in
  ∃ rep st' arming,
    enforce_aggregate_risk reader thr N bm w
      = (Ok rep,
         {| state_file := Some st';
            trace := trace w ++ (aggregate_close <$> closing) ++ arming |}) ∧
    Forall (λ ev, is_arming ev = true) arming ∧
    rep_new_tickets_detected rep = new ∧
    rep_closed rep = entry_of <$> with_outcome_of (close_outcome reader) Closed closing ∧
    rep_failed rep = entry_of <$> with_outcome_of (close_outcome reader) Refused closing.
Proof.
  intros Hs Hb Hq Hno. simpl.
  rewrite (enforce_dispatch _ _ _ _ _ _ Hs). simpl. rewrite Hq.
  destruct (baseline_tickets (stored w)) as [|b bs] eqn:Hbase; [done|].
  pose proof (close_new_tickets_exact reader
                (new_tickets_of reader (tickets_of snap) (b :: bs)) (positions snap)
                (λ pos Hpos _, Hno pos Hpos) [] [] w) as Hc.
  rewrite (risk_exceeded_returns _ _ _ _ _ _ _ _ _ _ _ _ _ _ Hc). simpl.
  eexists _, _, _. split; [rewrite <- app_assoc; reflexivity|].
  split; [|done].
  destruct (_ && _); by repeat constructor.
Qed.

Lemma exceeded_call_closes_every_new_position_witness :
  ∃ rep st' arming,
    enforce_aggregate_risk
      (tick 5 (Some (snapshot_of 7%Q [position_of 100 "GBPUSD" None;
                                      position_of 7 "EURUSD" None;
                                      position_of 101 "USDJPY" None])))
      5%Q 3 60
      (world_with {| baseline_tickets := [7]; block_attempts := 0;
                     last_attempt_at := None; risk_block_active := false |})
      = (Ok rep,
         {| state_file := Some st';
            trace := [] ++ [EvClose 100 "GBPUSD" "RG aggblock";
                            EvClose 101 "USDJPY" "RG aggblock"] ++ arming |}) ∧
    rep_closed rep = [(100, "GBPUSD"); (101, "USDJPY")].
Proof.
  destruct (exceeded_call_closes_every_new_position
              (tick 5 (Some (snapshot_of 7%Q [position_of 100 "GBPUSD" None;
                                              position_of 7 "EURUSD" None;
                                              position_of 101 "USDJPY" None])))
              5%Q 3 60
              (world_with {| baseline_tickets := [7]; block_attempts := 0;
                             last_attempt_at := None; risk_block_active := false |})
              (snapshot_of 7%Q [position_of 100 "GBPUSD" None;
                                position_of 7 "EURUSD" None;
                                position_of 101 "USDJPY" None]))
    as (rep & st' & arming & He & _ & _ & Hcl & _).
  - reflexivity.
  - simpl. discriminate.
  - vm_compute. reflexivity.
  - intros pos _. simpl. discriminate.
  - exists rep, st', arming. split; [exact He|]. rewrite Hcl. vm_compute. reflexivity.
Defined.

(** X3.  Above the threshold (the test of line 124 on doubles fails),
    when the close of a new position raises,
    the exception leaves [enforce_aggregate_risk] with nothing stored: the
    state file is as before (so no attempt is counted and the block flag
    is not raised) and the kill switch is not asked anything, although
    close requests have gone out. *)
Theorem raising_close_stores_nothing reader thr N bm w snap pos :
  snapshot reader = Some snap →
  baseline_tickets (stored w) ≠ [] →
  Qle_bool (float (total_risk_pct snap)) (with_epsilon thr) = false →
  pos ∈ positions snap →
  ticket pos ∉ baseline_tickets (stored w) →
  close_outcome reader (ticket pos) = CloseRaises →
  ∃ evs,
    enforce_aggregate_risk reader thr N bm w
      = (Raise CloseError, {| state_file := state_file w; trace := trace w ++ evs |}) ∧
    evs ≠ [] ∧ Forall (λ ev, is_close ev = true) evs.
Proof.
  intros Hs Hb Hq Hpos Hnew Hraise.
  rewrite (enforce_dispatch _ _ _ _ _ _ Hs). simpl. rewrite Hq.
  destruct (baseline_tickets (stored w)) as [|b bs] eqn:Hbase; [done|].
  destruct (close_new_tickets_stops reader
              (new_tickets_of reader (tickets_of snap) (b :: bs)) (positions snap)) with
    (closed := @nil (Z * string)) (failed := @nil (Z * string)) (w := w)
    as (evs & Hc & Hne & Hall).
  { exists pos. split; [done|]. split; [|done].
    apply elem_of_new_tickets_of. split; [|done].
    unfold tickets_of. apply elem_of_list_to_set, list_elem_of_fmap. eauto. }
  exists evs. split; [|done].
  by apply risk_exceeded_raises.
Qed.

Lemma raising_close_stores_nothing_witness :
  ∃ evs,
    enforce_aggregate_risk
      {| snapshot := Some (snapshot_of 7%Q [position_of 7 "EURUSD" None;
                                            position_of 100 "GBPUSD" None]);
         set_order := Z.leb;
         now_idle := 5; now_report := 5; now_stamp := 5; now_arm := 5;
         kill_before := kill_idle; kill_after := kill_idle; arm_ok := true;
         close_outcome := fun _ => CloseRaises |}
      5%Q 1 60
      (world_with {| baseline_tickets := [7]; block_attempts := 0;
                     last_attempt_at := None; risk_block_active := false |})
      = (Raise CloseError,
         {| state_file := Some {| baseline_tickets := [7]; block_attempts := 0;
                                  last_attempt_at := None;
                                  risk_block_active := false |};
            trace := [] ++ evs |}) ∧
    evs ≠ [] ∧ Forall (λ ev, is_close ev = true) evs.
Proof.
  apply (raising_close_stores_nothing
           {| snapshot := Some (snapshot_of 7%Q [position_of 7 "EURUSD" None;
                                                 position_of 100 "GBPUSD" None]);
              set_order := Z.leb;
              now_idle := 5; now_report := 5; now_stamp := 5; now_arm := 5;
              kill_before := kill_idle; kill_after := kill_idle; arm_ok := true;
              close_outcome := fun _ => CloseRaises |}
           5%Q 1 60
           (world_with {| baseline_tickets := [7]; block_attempts := 0;
                          last_attempt_at := None; risk_block_active := false |})
           (snapshot_of 7%Q [position_of 7 "EURUSD" None;
                             position_of 100 "GBPUSD" None])
           (position_of 100 "GBPUSD" None)).
  - reflexivity.
  - simpl. discriminate.
  - vm_compute. reflexivity.
  - right. left.
  - simpl. intros H. apply list_elem_of_singleton in H. discriminate H.
  - reflexivity.
Defined.

Lemma filter_arming_closes (evs : list Effect) :
  Forall (λ ev, is_close ev = true) evs → filter (λ ev, is_arming ev = true) evs = [].
Proof.
  induction 1 as [|ev evs Hev _ IH]; [done|].
  rewrite filter_cons, IH. destruct ev; try discriminate Hev. simpl. done.
Qed.

(** X4.  What a call that returns asks of the kill switch: a single
    [set_kill_until], for [now + max(1, block_minutes)] minutes, when the
    risk is above the threshold (the test of line 124 on doubles fails)
    over a stored baseline, the attempts it
    reports have reached [max_block_attempts] and the kill switch was not
    active on entry; nothing in every other case. *)
Theorem arming_happens_once_when_due reader thr N bm w snap rep w' :
  snapshot reader = Some snap →
  enforce_aggregate_risk reader thr N bm w = (Ok rep, w') →
  ∃ evs, trace w' = trace w ++ evs ∧
    filter (λ ev, is_arming ev = true) evs =
      if bool_decide (baseline_tickets (stored w) ≠ [])
         && negb (Qle_bool (float (total_risk_pct snap)) (with_epsilon thr))
         && bool_decide (N <= rep_attempts_after rep)
         && negb (active (kill_before reader))
      then [EvSetKillUntil (now_arm reader + minutes (Z.max 1 bm))]
      else [].
Proof.
  intros Hs He.
  rewrite (enforce_dispatch _ _ _ _ _ _ Hs) in He. simpl in He.
  destruct (baseline_tickets (stored w)) as [|b bs] eqn:Hbase.
  - rewrite first_run_returns in He. inversion He; subst; clear He.
    exists []. simpl. by rewrite app_nil_r.
  - rewrite bool_decide_eq_true_2 by done.
    destruct (Qle_bool (float (total_risk_pct snap)) (with_epsilon thr)).
    + rewrite risk_ok_returns in He. inversion He; subst; clear He.
      exists []. simpl. by rewrite app_nil_r.
    + destruct (close_new_tickets reader (new_tickets_of reader (tickets_of snap) (b :: bs))
                  (positions snap) [] [] w) as [[[c f]|e] w1] eqn:Hc.
      * destruct (close_new_tickets_effects _ _ _ _ _ _ _ _ Hc) as [_ (evs & Ht & Hall)].
        rewrite (risk_exceeded_returns _ _ _ _ _ _ _ _ _ _ _ _ _ _ Hc) in He.
        inversion He; subst rep w'; clear He. simpl.
        eexists. split; [rewrite Ht, <- app_assoc; reflexivity|].
        rewrite filter_app, filter_arming_closes.
        { simpl. by destruct (bool_decide _), (active (kill_before reader)). }
        eapply Forall_impl; [exact Hall|]. by intros ev (p & _ & _ & ->).
      * by rewrite (risk_exceeded_raises _ _ _ _ _ _ _ _ _ _ _ _ _ Hc) in He.
Qed.

Lemma arming_happens_once_when_due_witness :
  ∃ evs,
    [EvClose 100 "GBPUSD" "RG aggblock"; EvSetKillUntil (5 + minutes 60)] = [] ++ evs ∧
    filter (λ ev, is_arming ev = true) evs = [EvSetKillUntil (5 + minutes (Z.max 1 60))].
Proof.
  destruct (arming_happens_once_when_due
              (tick 5 (Some (snapshot_of 7%Q [position_of 7 "EURUSD" None;
                                              position_of 100 "GBPUSD" None])))
              5%Q 1 60
              (world_with {| baseline_tickets := [7]; block_attempts := 0;
                             last_attempt_at := None; risk_block_active := false |})
              (snapshot_of 7%Q [position_of 7 "EURUSD" None;
                                position_of 100 "GBPUSD" None])
              _ _ eq_refl ltac:(vm_compute; reflexivity))
    as (evs & Ht & Hf).
  exists evs. split; [exact Ht|exact Hf].
Defined.



(** X6.  The block flag is only lowered by an acceptable tick after the
    kill switch has gone inactive: if a call that returns finds the
    stored flag up and stores it down, then the risk was within the
    threshold (the test of line 124 on doubles passes) over a stored
    baseline, the kill switch was not active on
    entry, and the call stored zero attempts and no [last_attempt_at]. *)
Theorem block_lowered_only_when_acceptable reader thr N bm w snap rep w' :
  snapshot reader = Some snap →
  enforce_aggregate_risk reader thr N bm w = (Ok rep, w') →
  risk_block_active (stored w) = true →
  risk_block_active (stored w') = false →
  baseline_tickets (stored w) ≠ [] ∧
  Qle_bool (float (total_risk_pct snap)) (with_epsilon thr) = true ∧
  active (kill_before reader) = false ∧
  block_attempts (stored w') = 0 ∧
  last_attempt_at (stored w') = None.
Proof.
  intros Hs He Hup Hdown.
  rewrite (enforce_dispatch _ _ _ _ _ _ Hs) in He. simpl in He.
  destruct (baseline_tickets (stored w)) as [|b bs] eqn:Hbase.
  - rewrite first_run_returns in He. inversion He; subst; clear He.
    rewrite stored_some in Hdown. simpl in Hdown. by rewrite Hup in Hdown.
  - destruct (Qle_bool (float (total_risk_pct snap)) (with_epsilon thr)).
    + rewrite risk_ok_returns in He. inversion He; subst; clear He.
      rewrite stored_some in *. simpl in *. rewrite Hup in *. simpl in *.
      destruct (active (kill_before reader)); simpl in *; done.
    + destruct (close_new_tickets reader (new_tickets_of reader (tickets_of snap) (b :: bs))
                  (positions snap) [] [] w) as [[[c f]|e] w1] eqn:Hc.
      * rewrite (risk_exceeded_returns _ _ _ _ _ _ _ _ _ _ _ _ _ _ Hc) in He.
        inversion He; subst rep w'; clear He.
        rewrite stored_some in Hdown. simpl in Hdown.
        rewrite Hup, !orb_true_r in Hdown. done.
      * by rewrite (risk_exceeded_raises _ _ _ _ _ _ _ _ _ _ _ _ _ Hc) in He.
Qed.

Lemma block_lowered_only_when_acceptable_witness :
  Qle_bool (float 3) (with_epsilon 5) = true ∧
  block_attempts
    (stored (enforce_aggregate_risk
               (tick 5 (Some (snapshot_of 3%Q [position_of 7 "EURUSD" None])))
               5%Q 3 60
               (world_with {| baseline_tickets := [7]; block_attempts := 3;
                              last_attempt_at := Some 0;
                              risk_block_active := true |})).2) = 0.
Proof.
  destruct (block_lowered_only_when_acceptable
              (tick 5 (Some (snapshot_of 3%Q [position_of 7 "EURUSD" None])))
              5%Q 3 60
              (world_with {| baseline_tickets := [7]; block_attempts := 3;
                             last_attempt_at := Some 0; risk_block_active := true |})
              (snapshot_of 3%Q [position_of 7 "EURUSD" None])
              _ _ eq_refl ltac:(vm_compute; reflexivity) eq_refl eq_refl)
    as (_ & Hq & _ & Ha & _).
  split; [exact Hq|exact Ha].
Defined.

Lemma sorted_tickets_strict (s : gset Z) :
  StronglySorted Z.lt (sorted_tickets s).
Proof.
  unfold sorted_tickets.
  assert (Hnd : NoDup (merge_sort Z.le (elements s))).
  { rewrite (merge_sort_Permutation Z.le (elements s)). apply NoDup_elements. }
  pose proof (StronglySorted_merge_sort Z.le (elements s)) as Hs.
  induction Hs as [|x l Hl IH Hall]; [constructor|].
  apply NoDup_cons in Hnd as [Hx Hnd]. constructor; [by apply IH|].
  rewrite Forall_forall in *. intros y Hy. specialize (Hall y Hy).
  destruct (decide (x = y)) as [->|]; [done|lia].
Qed.

Lemma sorted_tickets_length (s : gset Z) :
  length (sorted_tickets s) = size s.
Proof.
  unfold sorted_tickets. by rewrite (merge_sort_Permutation Z.le (elements s)).
Qed.

Lemma elem_of_tickets_of snap t :
  t ∈ tickets_of snap ↔ ∃ pos, pos ∈ positions snap ∧ ticket pos = t.
Proof.
  unfold tickets_of. rewrite elem_of_list_to_set, list_elem_of_fmap.
  split; intros (pos & H1 & H2); exists pos; done.
Qed.

(** X7.  On a first run and on an acceptable tick (the test of line 124
    on doubles passes), the call returns and
    the baseline it stores and reports is the tickets of the snapshot in
    strictly ascending order: every ticket of a position once, whatever
    the order or the repetitions in the snapshot, and [report["positions"]]
    is their number. *)
Theorem stored_baseline_is_sorted_tickets reader thr N bm w snap :
  snapshot reader = Some snap →
  baseline_tickets (stored w) = [] ∨
    Qle_bool (float (total_risk_pct snap)) (with_epsilon thr) = true →
  ∃ rep st',
    enforce_aggregate_risk reader thr N bm w
      = (Ok rep, {| state_file := Some st'; trace := trace w |}) ∧
    rep_baseline_tickets rep = baseline_tickets st' ∧
    StronglySorted Z.lt (baseline_tickets st') ∧
    (∀ t, t ∈ baseline_tickets st' ↔ ∃ pos, pos ∈ positions snap ∧ ticket pos = t) ∧
    rep_positions rep = length (baseline_tickets st').
Proof.
  intros Hs Hbranch.
  rewrite (enforce_dispatch _ _ _ _ _ _ Hs). simpl.
  assert (Hgoal : ∀ rep st',
            rep_baseline_tickets rep = sorted_tickets (tickets_of snap) →
            baseline_tickets st' = sorted_tickets (tickets_of snap) →
            rep_positions rep = size (tickets_of snap) →
            rep_baseline_tickets rep = baseline_tickets st' ∧
            StronglySorted Z.lt (baseline_tickets st') ∧
            (∀ t, t ∈ baseline_tickets st' ↔
                  ∃ pos, pos ∈ positions snap ∧ ticket pos = t) ∧
            rep_positions rep = length (baseline_tickets st')).
  { intros rep st' Hr Hst Hp. rewrite Hr, Hst, Hp. split_and!.
    - done.
    - apply sorted_tickets_strict.
    - intros t. rewrite elem_of_sorted_tickets. apply elem_of_tickets_of.
    - by rewrite sorted_tickets_length. }
  destruct (baseline_tickets (stored w)) as [|b bs] eqn:Hbase.
  - rewrite first_run_returns. eexists _, _. split; [reflexivity|]. by apply Hgoal.
  - destruct Hbranch as [|Hq]; [done|]. rewrite Hq.
    rewrite risk_ok_returns. eexists _, _. split; [reflexivity|]. by apply Hgoal.
Qed.

Lemma stored_baseline_is_sorted_tickets_witness :
  ∃ rep st',
    enforce_aggregate_risk
      (tick 0 (Some (snapshot_of 9%Q [position_of 12 "EURUSD" None;
                                      position_of 7 "XAUUSD" None;
                                      position_of 12 "EURUSD" None])))
      5%Q 3 60 fresh_world
      = (Ok rep, {| state_file := Some st'; trace := [] |}) ∧
    StronglySorted Z.lt (baseline_tickets st') ∧
    rep_positions rep = length (baseline_tickets st').
Proof.
  destruct (stored_baseline_is_sorted_tickets
              (tick 0 (Some (snapshot_of 9%Q [position_of 12 "EURUSD" None;
                                              position_of 7 "XAUUSD" None;
                                              position_of 12 "EURUSD" None])))
              5%Q 3 60 fresh_world
              (snapshot_of 9%Q [position_of 12 "EURUSD" None;
                                position_of 7 "XAUUSD" None;
                                position_of 12 "EURUSD" None])
              eq_refl (or_introl eq_refl))
    as (rep & st' & He & _ & Hsorted & _ & Hlen).
  exists rep, st'. split; [exact He|]. split; [exact Hsorted|exact Hlen].
Defined.

(** X8.  After a call that returns, [risk_block_status()] reads back what
    the report says: the attempts are [attempts_after], the baseline is
    the reported one, and the block is the reported flag or-ed with the
    kill switch as found by the query; the query changes nothing. *)
Theorem status_reads_back_report reader thr N bm w rep w' ks :
  enforce_aggregate_risk reader thr N bm w = (Ok rep, w') →
  LimitsStatus.risk_block_status ks w' =
    (Ok {| LimitsStatus.st_risk_block_active :=
             rep_risk_block_active_after rep || active ks;
           LimitsStatus.st_block_attempts := rep_attempts_after rep;
           LimitsStatus.st_baseline_tickets := rep_baseline_tickets rep;
           LimitsStatus.st_kill_switch_active := active ks;
           LimitsStatus.st_kill_switch_until := until ks |},
     w').
Proof.
  intros He. unfold LimitsStatus.risk_block_status. run_M.
  destruct (snapshot reader) as [snap|] eqn:Hs;
    [|by rewrite (enforce_snapshot_raises _ _ _ _ _ Hs) in He].
  rewrite (enforce_dispatch _ _ _ _ _ _ Hs) in He. simpl in He.
  destruct (baseline_tickets (stored w)) as [|b bs] eqn:Hbase.
  - rewrite first_run_returns in He. by inversion He; subst.
  - destruct (Qle_bool (float (total_risk_pct snap)) (with_epsilon thr)).
    + rewrite risk_ok_returns in He. by inversion He; subst.
    + destruct (close_new_tickets reader (new_tickets_of reader (tickets_of snap) (b :: bs))
                  (positions snap) [] [] w) as [[[c f]|e] w1] eqn:Hc.
      * rewrite (risk_exceeded_returns _ _ _ _ _ _ _ _ _ _ _ _ _ _ Hc) in He.
        inversion He; subst rep w'; clear He. simpl.
        by rewrite baseline_state_on_entry, Hbase.
      * by rewrite (risk_exceeded_raises _ _ _ _ _ _ _ _ _ _ _ _ _ Hc) in He.
Qed.

Lemma status_reads_back_report_witness :
  ∃ rep w',
    enforce_aggregate_risk
      (tick 5 (Some (snapshot_of 7%Q [position_of 7 "EURUSD" None;
                                      position_of 100 "GBPUSD" None])))
      5%Q 3 60
      (world_with {| baseline_tickets := [7]; block_attempts := 1;
                     last_attempt_at := Some 4; risk_block_active := false |})
      = (Ok rep, w') ∧
    (LimitsStatus.risk_block_status kill_idle w').1
      = Ok {| LimitsStatus.st_risk_block_active := false;
              LimitsStatus.st_block_attempts := 2;
              LimitsStatus.st_baseline_tickets := [7];
              LimitsStatus.st_kill_switch_active := false;
              LimitsStatus.st_kill_switch_until := None |}.
Proof.
  eexists _, _. split; [vm_compute; reflexivity|].
  rewrite (status_reads_back_report
             (tick 5 (Some (snapshot_of 7%Q [position_of 7 "EURUSD" None;
                                             position_of 100 "GBPUSD" None])))
             5%Q 3 60
             (world_with {| baseline_tickets := [7]; block_attempts := 1;
                            last_attempt_at := Some 4; risk_block_active := false |})
             _ _ kill_idle ltac:(vm_compute; reflexivity)).
  reflexivity.
Defined.

(** X9.  The attempts counter never goes negative: from a state file with
    non-negative attempts, any succession of calls leaves non-negative
    attempts, and every report carries non-negative attempts before and
    after. *)
Theorem attempts_stay_non_negative thr N bm envs w :
  0 <= block_attempts (stored w) →
  0 <= block_attempts (stored (calls thr N bm envs w).2) ∧
  ∀ rep, rep ∈ returned (calls thr N bm envs w).1 →
    0 <= rep_attempts_before rep ∧ 0 <= rep_attempts_after rep.
Proof.
  revert w. induction envs as [|e envs IH]; intros w Hpos; simpl.
  - split; [done|]. intros rep Hrep. by apply elem_of_nil in Hrep.
  - destruct (enforce_aggregate_risk e thr N bm w) as [res w1] eqn:He.
    assert (Hentry : 0 <= attempts_on_entry e bm (stored w)).
    { unfold attempts_on_entry. destruct decay_due; lia. }
    assert (Hstep : 0 <= block_attempts (stored w1) ∧
              ∀ rep, res = Ok rep →
                0 <= rep_attempts_before rep ∧ 0 <= rep_attempts_after rep).
    { destruct (snapshot e) as [snap|] eqn:Hs.
      - rewrite (enforce_dispatch _ _ _ _ _ _ Hs) in He. simpl in He.
        destruct (baseline_tickets (stored w)) as [|b bs] eqn:Hbase.
        + rewrite first_run_returns in He. inversion He; subst; clear He.
          rewrite stored_some. simpl. split; [done|]. intros rep [= <-]. simpl. lia.
        + destruct (Qle_bool (float (total_risk_pct snap)) (with_epsilon thr)).
          * rewrite risk_ok_returns in He. inversion He; subst; clear He.
            rewrite stored_some. simpl.
            destruct (_ && _); (split; [lia|]); intros rep [= <-]; simpl; lia.
          * destruct (close_new_tickets e (new_tickets_of e (tickets_of snap) (b :: bs))
                        (positions snap) [] [] w) as [[[c f]|ex] w1'] eqn:Hc.
            -- rewrite (risk_exceeded_returns _ _ _ _ _ _ _ _ _ _ _ _ _ _ Hc) in He.
               inversion He; subst res w1; clear He.
               rewrite stored_some. simpl. split; [lia|].
               intros rep [= <-]. simpl. lia.
            -- rewrite (risk_exceeded_raises _ _ _ _ _ _ _ _ _ _ _ _ _ Hc) in He.
               inversion He; subst res w1; clear He.
               destruct (close_new_tickets_effects _ _ _ _ _ _ _ _ Hc) as [Hst _].
               unfold stored in *. rewrite Hst. split; [done|]. done.
      - rewrite (enforce_snapshot_raises _ _ _ _ _ Hs) in He.
        inversion He; subst. split; [done|]. done. }
    destruct Hstep as [Hpos1 Hrep1].
    destruct (IH w1 Hpos1) as [Hfinal Hreps].
    destruct (calls thr N bm envs w1) as [ress w2]. simpl in *.
    split; [done|]. intros rep Hin. unfold returned in Hin. simpl in Hin.
    destruct res as [rep0|ex]; [|by apply Hreps].
    apply elem_of_cons in Hin as [->|Hin]; [by apply Hrep1|by apply Hreps].
Qed.

Lemma attempts_stay_non_negative_witness :
  0 <= block_attempts
         (stored (calls 5%Q 3 60
                    [tick 0 (Some (snapshot_of 3%Q [position_of 7 "EURUSD" None]));
                     tick 1 (Some (snapshot_of 7%Q [position_of 7 "EURUSD" None;
                                                    position_of 8 "GBPUSD" None]))]
                    fresh_world).2).
Proof.
  destruct (attempts_stay_non_negative 5%Q 3 60
              [tick 0 (Some (snapshot_of 3%Q [position_of 7 "EURUSD" None]));
               tick 1 (Some (snapshot_of 7%Q [position_of 7 "EURUSD" None;
                                              position_of 8 "GBPUSD" None]))]
              fresh_world) as [H _].
  - simpl. lia.
  - exact H.
Defined.

(** ** Saving the state file (C7) *)

Import StateStore.

Lemma string_app_assoc (s1 s2 s3 : string) :
  (s1 +:+ s2) +:+ s3 = s1 +:+ (s2 +:+ s3).
Proof.
  induction s1 as [|c s1 IH]; [reflexivity|].
  change (String c ((s1 +:+ s2) +:+ s3) = String c (s1 +:+ (s2 +:+ s3))).
  by rewrite IH.
Qed.

Lemma string_app_nil_r (s : string) : s +:+ EmptyString = s.
Proof.
  induction s as [|c s IH]; [reflexivity|].
  change (String c (s +:+ EmptyString) = String c s). by rewrite IH.
Qed.

Lemma substring_all (s : string) : substring 0 (String.length s) s = s.
Proof. induction s as [|c s IH]; [reflexivity|]. simpl. by rewrite IH. Qed.

(** A text is its first [n] characters followed by the rest. *)
Lemma substring_split (s : string) :
  ∀ n, substring 0 n s +:+ substring n (String.length s - n) s = s.
Proof.
  induction s as [|c s IH]; intros n.
  - by destruct n.
  - destruct n as [|n].
    + rewrite Nat.sub_0_r. apply substring_all.
    + simpl. change (String c (substring 0 n s +:+ substring n (String.length s - n) s)
                     = String c s). by rewrite IH.
Qed.

Lemma foldl_append (chunks : list string) (text : string) :
  foldl String.append text chunks = text +:+ full_text chunks.
Proof.
  unfold full_text. revert text.
  induction chunks as [|c chunks IH]; intros text; simpl.
  - by rewrite string_app_nil_r.
  - change (EmptyString +:+ c) with c.
    rewrite (IH (text +:+ c)), (IH c), string_app_assoc. reflexivity.
Qed.

Lemma full_text_snoc (chunks : list string) (c : string) :
  full_text (chunks ++ [c]) = full_text chunks +:+ c.
Proof. unfold full_text. by rewrite foldl_app. Qed.

(** While the pieces are written, the file and the buffer hold between
    them the text written so far. *)
Lemma run_ops_writes drain (chunks : list string) (h : Handle) :
  ∃ written,
    disk (run_ops drain (OpenTruncate :: (WriteChunk <$> chunks)) h) = Some written ∧
    written +:+ pending (run_ops drain (OpenTruncate :: (WriteChunk <$> chunks)) h)
      = full_text chunks.
Proof.
  induction chunks as [|c chunks IH] using rev_ind.
  - exists EmptyString. done.
  - destruct IH as (written & Hd & Hp).
    rewrite fmap_app. simpl. unfold run_ops in *. simpl in *. rewrite foldl_app. simpl.
    rewrite Hd. simpl. eexists. split; [reflexivity|].
    rewrite string_app_assoc, substring_split, <- string_app_assoc, Hp.
    by rewrite full_text_snoc.
Qed.

Lemma substring_empty (s : string) : substring 0 0 s = EmptyString.
Proof. by destruct s. Qed.

(** A writer that keeps everything leaves the file empty until the
    close. *)
Lemma run_ops_keep_all (chunks : list string) (h : Handle) :
  disk (run_ops keep_all (OpenTruncate :: (WriteChunk <$> chunks)) h) = Some EmptyString.
Proof.
  induction chunks as [|c chunks IH] using rev_ind; [done|].
  rewrite fmap_app. simpl. unfold run_ops in *. simpl in *. rewrite foldl_app. simpl.
  rewrite IH. unfold keep_all. simpl. by rewrite substring_empty.
Qed.

Lemma substring_none (s : string) : substring (String.length s) 0 s = EmptyString.
Proof. induction s as [|c s IH]; [reflexivity|]. exact IH. Qed.

(** A writer with no buffer has passed on every piece written. *)
Lemma run_ops_pass_all (chunks : list string) (h : Handle) :
  run_ops pass_all (OpenTruncate :: (WriteChunk <$> chunks)) h
    = {| disk := Some (full_text chunks); pending := EmptyString |}.
Proof.
  induction chunks as [|c chunks IH] using rev_ind; [done|].
  rewrite fmap_app. simpl. unfold run_ops in *. simpl in *. rewrite foldl_app. simpl.
  rewrite IH. simpl. unfold pass_all. change (EmptyString +:+ c) with c.
  rewrite substring_all, Nat.sub_diag, substring_none, full_text_snoc. reflexivity.
Qed.

(** The operations of a save a process has run when it stops after
    [S k] of them. *)
Lemma take_save_state (k : nat) (chunks : list string) :
  take (S k) (StateStore._save_state chunks) =
    if decide (k <= length chunks)%nat
    then OpenTruncate :: (WriteChunk <$> take k chunks)
    else StateStore._save_state chunks.
Proof.
  unfold StateStore._save_state. simpl. destruct (decide _) as [Hk|Hk].
  - rewrite take_app_le by (rewrite length_fmap; lia). by rewrite fmap_take.
  - rewrite take_ge; [done|]. rewrite length_app, length_fmap. simpl. lia.
Qed.

(** A save that runs to the end. *)
Lemma run_ops_save_state drain (chunks : list string) (h : Handle) :
  run_ops drain (StateStore._save_state chunks) h
    = {| disk := Some (full_text chunks); pending := EmptyString |}.
Proof.
  destruct (run_ops_writes drain chunks h) as (written & Hd & Hp).
  unfold StateStore._save_state, run_ops in *.
  rewrite app_comm_cons, foldl_app. simpl in *. rewrite Hd. simpl. by rewrite Hp.
Qed.

(** C7 (as amended).  [_save_state] writes the state file in place,
    through Python's buffered writer, with no temporary file and no
    rename.  Whatever the buffering: a save that runs to the end leaves
    exactly the new text, whatever the file held; a process that stops
    before the file is opened leaves the old file; one that stops later
    leaves neither the old file nor, in general, the new one, but the
    part of the text written so far that has left the buffer.  A writer
    that keeps the text in its buffer until the close (CPython, for a
    text shorter than its buffer) leaves an empty file at every stop
    between the open and the close; a writer with no buffer leaves the
    pieces written so far.  [_load_state] reads what is left as the
    empty dictionary whenever [json.load] rejects it. *)
Theorem C7_save_overwrites_in_place (chunks : list string) (f : File) :
  (∀ drain,
     disk (run_ops drain (StateStore._save_state chunks) (unopened f))
       = Some (full_text chunks)) ∧
  (∀ drain, crash_after drain 0 chunks f = f) ∧
  (∀ drain k, ∃ written rest,
     crash_after drain (S k) chunks f = Some written ∧
     full_text (take k chunks) = written +:+ rest) ∧
  (∀ k, (k <= length chunks)%nat →
     crash_after keep_all (S k) chunks f = Some EmptyString) ∧
  (∀ k, crash_after pass_all (S k) chunks f = Some (full_text (take k chunks))) ∧
  (∀ drain json_load k written,
     crash_after drain (S k) chunks f = Some written →
     json_load written = None →
     StateStore._load_state json_load (crash_after drain (S k) chunks f) = empty_state).
Proof.
  split_and!.
  - intros drain. by rewrite run_ops_save_state.
  - reflexivity.
  - intros drain k. unfold crash_after. rewrite take_save_state.
    destruct (decide _) as [Hk|Hk].
    + destruct (run_ops_writes drain (take k chunks) (unopened f)) as (written & Hd & Hp).
      eauto.
    + rewrite run_ops_save_state, take_ge by lia. simpl.
      exists (full_text chunks), EmptyString. by rewrite string_app_nil_r.
  - intros k Hk. unfold crash_after. rewrite take_save_state, decide_True by done.
    apply run_ops_keep_all.
  - intros k. unfold crash_after. rewrite take_save_state.
    destruct (decide _) as [Hk|Hk].
    + by rewrite run_ops_pass_all.
    + by rewrite run_ops_save_state, take_ge by lia.
  - intros drain json_load k written -> Hrej. simpl. by rewrite Hrej.
Qed.

(** C7 as stated fails: a process that stops right after
    [open(STATE_FILE, "w")] leaves an empty file, whatever the buffering,
    which is neither the prior state nor the new one. *)
Lemma C7_counterexample :
  (∀ drain, crash_after drain 1 ["{"; "new state"; "}"] (Some "{old state}")
            = Some EmptyString) ∧
  (∀ drain, ¬ atomic_save drain ["{"; "new state"; "}"] (Some "{old state}")).
Proof.
  split; [reflexivity|]. intros drain H. destruct (H 1%nat) as [H1|H1]; discriminate H1.
Qed.

(** ** The event-window enforcer (C2) *)

Import News.

(** A position that passes the guards has a symbol, was opened recently,
    and has the matches [find_events] gives. *)
Lemma matches_of_some reader events_df window_min recent_s pos m ms :
  matches_of reader events_df window_min recent_s pos = Some (m, ms) →
  ∃ opened,
    open_time pos = Some opened ∧
    now_utc reader - opened <= seconds recent_s ∧
    find_events events_df (map_symbol_currencies (symbol pos)) (now_utc reader) window_min
      = m :: ms.
Proof.
  unfold matches_of, too_old. intros H.
  case_bool_decide; [done|].
  destruct (open_time pos) as [opened|]; [|done].
  case_bool_decide as Hold; [done|].
  destruct (find_events _ _ _ _) as [|m' ms'] eqn:Hf; [done|].
  inversion H; subst. exists opened. split_and!; [done|lia|done].
Qed.

(** Revision 0.1, one position: the body of the loop always returns; what
    it adds to the trace and to [report["affected"]] is about this
    position, which then passed the guards. *)
Lemma news01_position reader events_df window_min recent_s report pos w :
  ∃ report' evs,
    News01.enforce_position reader events_df window_min recent_s report pos w
      = (Ok report', {| state_file := state_file w; trace := trace w ++ evs |}) ∧
    (evs = [] ∨ is_Some (matches_of reader events_df window_min recent_s pos)) ∧
    (∀ ev t, ev ∈ evs → is_close_of t ev → t = ticket pos) ∧
    (∀ a, a ∈ affected report' →
       a ∈ affected report ∨
       (aff_ticket a = ticket pos ∧
        is_Some (matches_of reader events_df window_min recent_s pos))).
Proof.
  unfold News01.enforce_position.
  destruct (matches_of reader events_df window_min recent_s pos) as [[m ms]|] eqn:Hm.
  - unfold ensure_autotrading_on, close_position_full, set_kill_until. run_M.
    destruct (autotrading_on_ok reader (ticket pos)); simpl; [|news_finish].
    destruct (close_outcome reader (ticket pos)); simpl; [| |news_finish].
    + destruct (arm_ok reader _); simpl; news_finish.
    + destruct (arm_ok reader _); simpl; news_finish.
  - exists report, []. rewrite app_nil_r. destruct w. simpl.
    split; [reflexivity|]. split; [by left|]. split; [|by left].
    intros ev t Hev. by apply elem_of_nil in Hev.
Qed.

(** Revision 0.2, one position, case by case. *)
Lemma news02_position reader events_df window_min recent_s report max_until pos w :
  News02.enforce_position reader events_df window_min recent_s (report, max_until) pos w =
    match matches_of reader events_df window_min recent_s pos with
    | None => (Ok (report, max_until), w)
    | Some (m, ms) =>
        let w1 := {| state_file := state_file w;
                     trace := trace w ++
                              [EvClose (ticket pos) (symbol pos) "RG NewsBlock"] |} in
        let a := {| aff_ticket := ticket pos; aff_symbol := symbol pos;
                    aff_matches := m :: ms |} in
        let mu := News02.later_of max_until (max_ts m ms + minutes window_min) in
        match close_outcome reader (ticket pos) with
        | Closed =>
            (Ok (add_affected a (add_closed true (ticket pos) (symbol pos) report), mu), w1)
        | Refused =>
            (Ok (add_affected a (add_closed false (ticket pos) (symbol pos) report), mu), w1)
        | CloseRaises => (Ok (report, max_until), w1)
        end
    end.
Proof.
  unfold News02.enforce_position.
  destruct (matches_of reader events_df window_min recent_s pos) as [[m ms]|];
    [|reflexivity].
  unfold close_position_full. run_M.
  destruct (close_outcome reader (ticket pos)); reflexivity.
Qed.

Lemma foldl_max_latest (xs : list Z) :
  ∀ x0, is_latest (x0 :: xs) (foldl Z.max x0 xs).
Proof.
  induction xs as [|x xs IH]; intros x0; simpl.
  - split; [left|]. intros y Hy. apply list_elem_of_singleton in Hy. lia.
  - destruct (IH (Z.max x0 x)) as [Hin Hmax]. split.
    + apply elem_of_cons in Hin as [Heq|Hin]; [|by do 2 right].
      rewrite Heq. destruct (Z.max_spec x0 x) as [[_ ->]|[_ ->]]; [right; left|left].
    + assert (Hfirst : Z.max x0 x <= foldl Z.max (Z.max x0 x) xs)
        by (apply Hmax; left).
      intros y Hy. apply elem_of_cons in Hy as [->|Hy]; [lia|].
      apply elem_of_cons in Hy as [->|Hy]; [lia|].
      apply Hmax. by right.
Qed.

Lemma max_ts_latest m ms :
  is_latest (ts_utc <$> (m :: ms)) (max_ts m ms).
Proof. unfold max_ts. simpl. apply foldl_max_latest. Qed.

Lemma is_latest_app xs ys m1 m2 :
  is_latest xs m1 → is_latest ys m2 → is_latest (xs ++ ys) (Z.max m1 m2).
Proof.
  intros [Hin1 Hmax1] [Hin2 Hmax2]. split.
  - apply elem_of_app.
    destruct (Z.max_spec m1 m2) as [[_ ->]|[_ ->]]; [by right|by left].
  - intros x Hx. apply elem_of_app in Hx as [Hx|Hx].
    + specialize (Hmax1 x Hx). lia.
    + specialize (Hmax2 x Hx). lia.
Qed.

Lemma batch_timestamps_snoc affs a :
  batch_timestamps (affs ++ [a]) = batch_timestamps affs ++ (ts_utc <$> aff_matches a).
Proof.
  unfold batch_timestamps. rewrite fmap_app, concat_app, fmap_app. simpl.
  by rewrite app_nil_r.
Qed.

(** One more affected position keeps the invariant of the batch. *)
Lemma batch_invariant_step window_min report max_until closes ok pos m ms :
  batch_invariant window_min report max_until closes →
  batch_invariant window_min
    (add_affected {| aff_ticket := ticket pos; aff_symbol := symbol pos;
                     aff_matches := m :: ms |}
       (add_closed ok (ticket pos) (symbol pos) report))
    (News02.later_of max_until (max_ts m ms + minutes window_min))
    (closes ++ [EvClose (ticket pos) (symbol pos) "RG NewsBlock"]).
Proof.
  intros (Hcl & Haff & Hmu).
  assert (Haffected : affected (add_closed ok (ticket pos) (symbol pos) report)
                      = affected report) by (by destruct ok).
  unfold batch_invariant. simpl. rewrite Haffected. split_and!.
  - apply Forall_app. split; [done|]. by constructor.
  - intros a Ha. apply elem_of_app in Ha as [Ha|Ha].
    + apply elem_of_app. left. by apply Haff.
    + apply list_elem_of_singleton in Ha. subst a. apply elem_of_app. right. left.
  - right. rewrite batch_timestamps_snoc. simpl.
    pose proof (max_ts_latest m ms) as Hthis. simpl in Hthis.
    destruct Hmu as [[Hnil ->]|(m1 & -> & Hlat)].
    + exists (max_ts m ms). split; [reflexivity|].
      rewrite Hnil. exact Hthis.
    + exists (Z.max m1 (max_ts m ms)). split.
      * unfold News02.later_of. case_bool_decide; f_equal; lia.
      * by apply is_latest_app.
Qed.

Lemma batch_invariant_close_raised window_min report max_until closes t sym :
  batch_invariant window_min report max_until closes →
  batch_invariant window_min report max_until (closes ++ [EvClose t sym "RG NewsBlock"]).
Proof.
  intros (Hcl & Haff & Hmu). split_and!; [| |done].
  - apply Forall_app. split; [done|]. by constructor.
  - intros a Ha. apply elem_of_app. left. by apply Haff.
Qed.

(** Revision 0.1, the whole loop: it returns, and what it adds to the
    trace and to [report["affected"]] is about positions that passed the
    guards. *)
Lemma news01_positions reader events_df window_min recent_s ps :
  ∀ report w,
  ∃ report' evs,
    News01.enforce_positions reader events_df window_min recent_s ps report w
      = (Ok report', {| state_file := state_file w; trace := trace w ++ evs |}) ∧
    (∀ ev t, ev ∈ evs → is_close_of t ev →
       ∃ pos, pos ∈ ps ∧ ticket pos = t ∧
              is_Some (matches_of reader events_df window_min recent_s pos)) ∧
    (∀ a, a ∈ affected report' →
       a ∈ affected report ∨
       ∃ pos, pos ∈ ps ∧ ticket pos = aff_ticket a ∧
              is_Some (matches_of reader events_df window_min recent_s pos)).
Proof.
  induction ps as [|pos ps IH]; intros report w; simpl.
  - exists report, []. rewrite app_nil_r. destruct w. split; [reflexivity|].
    split; [|by left]. intros ev t Hev. by apply elem_of_nil in Hev.
  - destruct (news01_position reader events_df window_min recent_s report pos w)
      as (report1 & evs1 & He1 & Hsome & Hcl1 & Haff1).
    run_M. rewrite He1.
    destruct (IH report1 {| state_file := state_file w; trace := trace w ++ evs1 |})
      as (report2 & evs2 & He2 & Hcl2 & Haff2).
    rewrite He2. simpl. exists report2, (evs1 ++ evs2).
    split; [by rewrite app_assoc|]. split.
    + intros ev t Hev Hclose. apply elem_of_app in Hev as [Hev|Hev].
      * exists pos. split; [left|]. split; [symmetry; by eapply Hcl1|].
        destruct Hsome as [->|Hsome]; [by apply elem_of_nil in Hev|done].
      * destruct (Hcl2 ev t Hev Hclose) as (p & Hp & Ht & Hm).
        exists p. split; [by right|done].
    + intros a Ha. destruct (Haff2 a Ha) as [Ha1|(p & Hp & Ht & Hm)].
      * destruct (Haff1 a Ha1) as [Ha0|[Ht Hm]]; [by left|].
        right. exists pos. split; [left|done].
      * right. exists p. split; [by right|done].
Qed.

(** Revision 0.2, the whole loop: it returns with the invariant of the
    batch, and what it adds is about positions that passed the guards. *)
Lemma news02_positions reader events_df window_min recent_s ps :
  ∀ report max_until w closes,
  batch_invariant window_min report max_until closes →
  ∃ report' max_until' evs,
    News02.enforce_positions reader events_df window_min recent_s ps
        (report, max_until) w
      = (Ok (report', max_until'),
         {| state_file := state_file w; trace := trace w ++ evs |}) ∧
    batch_invariant window_min report' max_until' (closes ++ evs) ∧
    kill_switch_until report' = kill_switch_until report ∧
    (∀ ev t, ev ∈ evs → is_close_of t ev →
       ∃ pos, pos ∈ ps ∧ ticket pos = t ∧
              is_Some (matches_of reader events_df window_min recent_s pos)) ∧
    (∀ a, a ∈ affected report' →
       a ∈ affected report ∨
       ∃ pos, pos ∈ ps ∧ ticket pos = aff_ticket a ∧
              is_Some (matches_of reader events_df window_min recent_s pos)).
Proof.
  induction ps as [|pos ps IH]; intros report max_until w closes Hinv.
  - simpl. exists report, max_until, []. rewrite !app_nil_r. destruct w.
    split; [reflexivity|]. split; [done|]. split; [done|].
    split; [|by left]. intros ev t Hev. by apply elem_of_nil in Hev.
  - cbn [News02.enforce_positions]. unfold mbind, M_bind. rewrite news02_position.
    destruct (matches_of reader events_df window_min recent_s pos) as [[m ms]|] eqn:Hm.
    + assert (Hstep : ∃ report1 mu1,
                (match close_outcome reader (ticket pos) with
                 | Closed =>
                     (Ok (add_affected {| aff_ticket := ticket pos;
                                          aff_symbol := symbol pos;
                                          aff_matches := m :: ms |}
                            (add_closed true (ticket pos) (symbol pos) report),
                          News02.later_of max_until (max_ts m ms + minutes window_min)),
                      {| state_file := state_file w;
                         trace := trace w ++
                                  [EvClose (ticket pos) (symbol pos) "RG NewsBlock"] |})
                 | Refused =>
                     (Ok (add_affected {| aff_ticket := ticket pos;
                                          aff_symbol := symbol pos;
                                          aff_matches := m :: ms |}
                            (add_closed false (ticket pos) (symbol pos) report),
                          News02.later_of max_until (max_ts m ms + minutes window_min)),
                      {| state_file := state_file w;
                         trace := trace w ++
                                  [EvClose (ticket pos) (symbol pos) "RG NewsBlock"] |})
                 | CloseRaises =>
                     (Ok (report, max_until),
                      {| state_file := state_file w;
                         trace := trace w ++
                                  [EvClose (ticket pos) (symbol pos) "RG NewsBlock"] |})
                 end)
                = (Ok (report1, mu1),
                   {| state_file := state_file w;
                      trace := trace w ++
                               [EvClose (ticket pos) (symbol pos) "RG NewsBlock"] |}) ∧
                batch_invariant window_min report1 mu1
                  (closes ++ [EvClose (ticket pos) (symbol pos) "RG NewsBlock"]) ∧
                kill_switch_until report1 = kill_switch_until report ∧
                (∀ a, a ∈ affected report1 →
                   a ∈ affected report ∨ ticket pos = aff_ticket a)).
      { destruct (close_outcome reader (ticket pos)).
        - eexists _, _. split; [reflexivity|].
          split; [by apply batch_invariant_step|]. split; [reflexivity|].
          intros a Ha. simpl in Ha. apply elem_of_app in Ha as [Ha|Ha]; [by left|].
          apply list_elem_of_singleton in Ha. subst a. by right.
        - eexists _, _. split; [reflexivity|].
          split; [by apply batch_invariant_step|]. split; [reflexivity|].
          intros a Ha. simpl in Ha. apply elem_of_app in Ha as [Ha|Ha]; [by left|].
          apply list_elem_of_singleton in Ha. subst a. by right.
        - eexists _, _. split; [reflexivity|].
          split; [by apply batch_invariant_close_raised|]. split; [reflexivity|].
          intros a Ha. by left. }
      cbv zeta. destruct Hstep as (report1 & mu1 & -> & Hinv1 & Hk1 & Haff1).
      destruct (IH report1 mu1
                  {| state_file := state_file w;
                     trace := trace w ++
                              [EvClose (ticket pos) (symbol pos) "RG NewsBlock"] |}
                  _ Hinv1)
        as (report2 & mu2 & evs2 & He2 & Hinv2 & Hk2 & Hcl2 & Haff2).
      rewrite He2. simpl.
      exists report2, mu2, (EvClose (ticket pos) (symbol pos) "RG NewsBlock" :: evs2).
      split; [by rewrite <- app_assoc|].
      split; [by rewrite <- app_assoc in Hinv2|].
      split; [by rewrite Hk2|]. split.
      * intros ev t Hev Hclose. apply elem_of_cons in Hev as [->|Hev].
        -- exists pos. split; [left|]. split; [exact Hclose|by rewrite Hm].
        -- destruct (Hcl2 ev t Hev Hclose) as (p & Hp & Ht & Hmp).
           exists p. split; [by right|done].
      * intros a Ha. destruct (Haff2 a Ha) as [Ha1|(p & Hp & Ht & Hmp)].
        -- destruct (Haff1 a Ha1) as [Ha0|Ht]; [by left|].
           right. exists pos. split; [left|]. split; [done|by rewrite Hm].
        -- right. exists p. split; [by right|done].
    + destruct (IH report max_until w closes Hinv)
        as (report2 & mu2 & evs2 & He2 & Hinv2 & Hk2 & Hcl2 & Haff2).
      rewrite He2. exists report2, mu2, evs2.
      split; [done|]. split; [done|]. split; [done|]. split.
      * intros ev t Hev Hclose. destruct (Hcl2 ev t Hev Hclose) as (p & Hp & Ht & Hmp).
        exists p. split; [by right|done].
      * intros a Ha. destruct (Haff2 a Ha) as [Ha1|(p & Hp & Ht & Hmp)]; [by left|].
        right. exists p. split; [by right|done].
Qed.

(** Revision 0.2 after the loop: nothing is asked of the kill switch
    without an affected position. *)
Lemma arm_after_batch_idle reader report max_until w :
  affected report = [] →
  News02.arm_after_batch reader (report, max_until) w = (Ok report, w).
Proof. intros H. unfold News02.arm_after_batch. rewrite H. reflexivity. Qed.

(** Revision 0.2 after the loop, with affected positions: one arming,
    then the notification, whose failure is swallowed. *)
Lemma arm_after_batch_arms reader report u w :
  affected report ≠ [] →
  arm_ok reader u = true →
  News02.arm_after_batch reader (report, Some u) w
    = (Ok (set_kill_switch_until (Some u) report),
       {| state_file := state_file w;
          trace := trace w ++ [EvSetKillUntil u; EvNotifyNews] |}).
Proof.
  intros Hne Hok. unfold News02.arm_after_batch, set_kill_until, notify_news.
  destruct (affected report) as [|a affs] eqn:Ha; [done|].
  run_M. rewrite Hok. simpl. rewrite <- app_assoc.
  destruct (notify_ok reader); reflexivity.
Qed.

(** Revision 0.2 after the loop, in all cases: no close request is added
    and the affected positions are those of the loop. *)
Lemma arm_after_batch_effects reader report max_until w :
  ∃ evs,
    (News02.arm_after_batch reader (report, max_until) w).2
      = {| state_file := state_file w; trace := trace w ++ evs |} ∧
    (∀ ev t, ev ∈ evs → ¬ is_close_of t ev) ∧
    (∀ r, (News02.arm_after_batch reader (report, max_until) w).1 = Ok r →
       affected r = affected report).
Proof.
  unfold News02.arm_after_batch, set_kill_until, notify_news.
  destruct (affected report) as [|a affs] eqn:Ha.
  - exists []. rewrite app_nil_r. destruct w. simpl.
    split; [done|]. split; [intros ev t Hev; by apply elem_of_nil in Hev|].
    by intros r [= <-].
  - destruct max_until as [u|].
    + run_M. destruct (arm_ok reader u); simpl.
      * exists [EvSetKillUntil u; EvNotifyNews]. rewrite <- app_assoc.
        destruct (notify_ok reader); simpl;
          (split; [done|]); (split; [only_close_of'|]); by intros r [= <-].
      * exists [EvSetKillUntil u]. split; [done|]. split; [only_close_of'|]. done.
    + exists []. rewrite app_nil_r. destruct w. simpl.
      split; [done|]. split; [intros ev t Hev; by apply elem_of_nil in Hev|].
      by intros r [= <-].
Qed.

(** A position that passed the guards was recently opened. *)
Lemma guarded_is_recent reader events_df window_min recent_s snap pos :
  snapshot reader = Some snap →
  pos ∈ positions snap →
  is_Some (matches_of reader events_df window_min recent_s pos) →
  recently_opened reader recent_s (ticket pos).
Proof.
  intros Hs Hin [[m ms] Hm].
  destruct (matches_of_some _ _ _ _ _ _ _ Hm) as (opened & Ho & Hrecent & _).
  exists snap, pos, opened. done.
Qed.

Lemma news01_only_recent reader events_df window_min recent_s w :
  only_recent reader recent_s w
    (News01.enforce_news_window reader events_df window_min (Some recent_s) w).
Proof.
  unfold News01.enforce_news_window, read_snapshot. simpl.
  destruct (snapshot reader) as [snap|] eqn:Hs.
  - run_M.
    destruct (news01_positions reader events_df window_min recent_s (positions snap)
                empty_report w) as (report & evs & He & Hcl & Haff).
    rewrite He. split; simpl.
    + exists evs. split; [done|]. intros ev t Hev Hclose.
      destruct (Hcl ev t Hev Hclose) as (pos & Hpos & <- & Hm).
      by eapply guarded_is_recent.
    + intros r a [= <-] Ha. destruct (Haff a Ha) as [Ha0|(pos & Hpos & <- & Hm)].
      * by apply elem_of_nil in Ha0.
      * by eapply guarded_is_recent.
  - run_M. split; simpl.
    + exists []. rewrite app_nil_r. split; [done|].
      intros ev t Hev. by apply elem_of_nil in Hev.
    + intros r a [= <-] Ha. by apply elem_of_nil in Ha.
Qed.

Lemma news02_only_recent reader events_df window_min recent_s w :
  only_recent reader recent_s w
    (News02.enforce_news_window reader events_df window_min (Some recent_s) w).
Proof.
  unfold News02.enforce_news_window, read_snapshot. simpl.
  destruct (snapshot reader) as [snap|] eqn:Hs.
  - unfold mbind, M_bind, mret, M_ret, try_except.
    assert (Hinv : batch_invariant window_min empty_report None []).
    { split_and!; [constructor| |by left].
      intros a Ha. by apply elem_of_nil in Ha. }
    destruct (news02_positions reader events_df window_min recent_s (positions snap)
                empty_report None w [] Hinv)
      as (report & mu & evs & He & _ & _ & Hcl & Haff).
    rewrite He.
    destruct (arm_after_batch_effects reader report mu
                {| state_file := state_file w; trace := trace w ++ evs |})
      as (evs' & Hw & Hnc & Hrep).
    split.
    + exists (evs ++ evs'). rewrite Hw. simpl. split; [by rewrite app_assoc|].
      intros ev t Hev Hclose. apply elem_of_app in Hev as [Hev|Hev].
      * destruct (Hcl ev t Hev Hclose) as (pos & Hpos & <- & Hm).
        by eapply guarded_is_recent.
      * by destruct (Hnc ev t Hev).
    + intros r a Hr Ha. rewrite (Hrep r Hr) in Ha.
      destruct (Haff a Ha) as [Ha0|(pos & Hpos & <- & Hm)].
      * by apply elem_of_nil in Ha0.
      * by eapply guarded_is_recent.
  - run_M. split; simpl.
    + exists []. rewrite app_nil_r. split; [done|].
      intros ev t Hev. by apply elem_of_nil in Hev.
    + intros r a [= <-] Ha. by apply elem_of_nil in Ha.
Qed.

(** Revision 0.2 does what C2 says.  On a call that gets a snapshot and
    whose arming returns: without an affected position the kill switch is
    left alone; otherwise the trace gains the close requests, one for
    every affected position, then a single [set_kill_until], then the
    notification, and the timestamp armed and reported is the latest
    event timestamp over all the matches of the batch plus the window. *)
Theorem news02_arms_once_after_batch reader events_df window_min recent_s w snap :
  snapshot reader = Some snap →
  (∀ u, arm_ok reader u = true) →
  ∃ report closes,
    Forall (λ ev, is_close ev = true) closes ∧
    (∀ a, a ∈ affected report → news_close a ∈ closes) ∧
    ((affected report = [] ∧
      News02.enforce_news_window reader events_df window_min recent_s w
        = (Ok report, {| state_file := state_file w; trace := trace w ++ closes |})) ∨
     (∃ m,
        affected report ≠ [] ∧
        is_latest (batch_timestamps (affected report)) m ∧
        kill_switch_until report = Some (m + minutes window_min) ∧
        News02.enforce_news_window reader events_df window_min recent_s w
          = (Ok report,
             {| state_file := state_file w;
                trace := trace w ++ closes ++
                         [EvSetKillUntil (m + minutes window_min); EvNotifyNews] |}))).
Proof.
  intros Hs Harm.
  unfold News02.enforce_news_window, read_snapshot. rewrite Hs.
  unfold mbind, M_bind, mret, M_ret, try_except.
  assert (Hinv : batch_invariant window_min empty_report None []).
  { split_and!; [constructor| |by left].
    intros a Ha. by apply elem_of_nil in Ha. }
  destruct (news02_positions reader events_df window_min
              (recent_or_default window_min recent_s) (positions snap)
              empty_report None w [] Hinv)
    as (report & mu & evs & He & (Hcl & Haff & Hmu) & Hk & _ & _).
  rewrite He. simpl in Hcl, Haff.
  destruct Hmu as [[Hnil ->]|(m & -> & Hlat)].
  - exists report, evs. split; [done|]. split; [done|]. left. split; [done|].
    by rewrite arm_after_batch_idle.
  - assert (Hne : affected report ≠ []).
    { intros Hnil. destruct Hlat as [Hin _]. unfold batch_timestamps in Hin.
      rewrite Hnil in Hin. by apply elem_of_nil in Hin. }
    exists (set_kill_switch_until (Some (m + minutes window_min)) report), evs.
    split; [done|]. split; [done|]. right. exists m.
    split; [done|]. split; [done|]. split; [done|].
    rewrite (arm_after_batch_arms _ _ _ _ Hne (Harm _)). simpl.
    by rewrite <- app_assoc.
Qed.

(** Revision 0.2 on a call: the burst. *)
Lemma news02_arms_once_after_batch_witness :
  ∃ report closes,
    Forall (λ ev, is_close ev = true) closes ∧
    (∀ a, a ∈ affected report → news_close a ∈ closes) ∧
    ((affected report = [] ∧
      News02.enforce_news_window burst burst_calendar 60 None fresh_world
        = (Ok report, {| state_file := None; trace := [] ++ closes |})) ∨
     (∃ m,
        affected report ≠ [] ∧
        is_latest (batch_timestamps (affected report)) m ∧
        kill_switch_until report = Some (m + minutes 60) ∧
        News02.enforce_news_window burst burst_calendar 60 None fresh_world
          = (Ok report,
             {| state_file := None;
                trace := [] ++ closes ++
                         [EvSetKillUntil (m + minutes 60); EvNotifyNews] |}))).
Proof.
  apply (news02_arms_once_after_batch burst burst_calendar 60 None fresh_world
           (snapshot_of 1%Q
              [position_of 1 "USDJPY" (Some (burst_time - seconds 10));
               position_of 2 "EURGBP" (Some (burst_time - seconds 20))])).
  - reflexivity.
  - intros u. reflexivity.
Defined.

(** C2, on the code.  On the burst, revision 0.1 arms the kill switch
    once per affected position: the first [set_kill_until] comes between
    the two close requests and carries the timestamp of the first
    position's event plus the window (65 minutes ahead), not the latest
    of the batch (70 minutes ahead).  Revision 0.2, on the same call,
    closes both positions and then arms once, at the latest. *)
Theorem C2_revision_01_arms_per_position :
  (∃ report,
     News01.enforce_news_window burst burst_calendar 60 None fresh_world
       = (Ok report,
          {| state_file := None;
             trace := [EvAutotradingOn;
                       EvClose 1 "USDJPY" "RG NewsBlock";
                       EvSetKillUntil (burst_time + minutes 65);
                       EvAutotradingOn;
                       EvClose 2 "EURGBP" "RG NewsBlock";
                       EvSetKillUntil (burst_time + minutes 70)] |}) ∧
     aff_ticket <$> affected report = [1; 2] ∧
     is_latest (batch_timestamps (affected report)) (burst_time + minutes 10)) ∧
  (∃ report,
     News02.enforce_news_window burst burst_calendar 60 None fresh_world
       = (Ok report,
          {| state_file := None;
             trace := [EvClose 1 "USDJPY" "RG NewsBlock";
                       EvClose 2 "EURGBP" "RG NewsBlock";
                       EvSetKillUntil (burst_time + minutes 70);
                       EvNotifyNews] |}) ∧
     aff_ticket <$> affected report = [1; 2]).
Proof.
  split.
  - eexists. split; [vm_compute; reflexivity|]. split; [reflexivity|].
    split.
    + vm_compute. right. left.
    + intros x Hx. vm_compute in Hx.
      apply elem_of_cons in Hx as [->|Hx]; [vm_compute; discriminate|].
      apply list_elem_of_singleton in Hx. subst x. vm_compute. discriminate.
  - eexists. split; [vm_compute; reflexivity|]. reflexivity.
Qed.

(** ** The scenarios of the specification *)

(** Scenario A: threshold 5, a first tick with two positions at a risk of
    3: the baseline is both tickets, no attempt, nothing closed. *)
Example scenario_A :
  (calls 5%Q 3 60
     [tick 0 (Some (snapshot_of 3%Q [position_of 12 "EURUSD" None;
                                     position_of 7 "XAUUSD" None]))]
     fresh_world).2
  = world_with {| baseline_tickets := [7; 12]; block_attempts := 0;
                  last_attempt_at := None; risk_block_active := false |}.
Proof. vm_compute. reflexivity. Qed.

(** Scenarios B and C: a tick at a risk of 7 with the new ticket 100
    closes it and counts one attempt; two more such ticks bring the
    attempts to 3, the kill switch is armed for 60 minutes and the flag
    goes up. *)
Example scenario_B_C :
  (calls 5%Q 3 60
     [tick 0 (Some (snapshot_of 3%Q [position_of 12 "EURUSD" None;
                                     position_of 7 "XAUUSD" None]));
      tick 1 (Some (snapshot_of 7%Q [position_of 12 "EURUSD" None;
                                     position_of 7 "XAUUSD" None;
                                     position_of 100 "GBPUSD" None]));
      tick 2 (Some (snapshot_of 7%Q [position_of 12 "EURUSD" None;
                                     position_of 7 "XAUUSD" None;
                                     position_of 101 "GBPUSD" None]));
      tick_arming 3 (3 + minutes 60)
        (Some (snapshot_of 7%Q [position_of 12 "EURUSD" None;
                                position_of 7 "XAUUSD" None;
                                position_of 102 "GBPUSD" None]))]
     fresh_world).2
  = {| state_file :=
         Some {| baseline_tickets := [7; 12]; block_attempts := 3;
                 last_attempt_at := Some 3; risk_block_active := true |};
       trace := [EvClose 100 "GBPUSD" "RG aggblock";
                 EvClose 101 "GBPUSD" "RG aggblock";
                 EvClose 102 "GBPUSD" "RG aggblock";
                 EvSetKillUntil (3 + minutes 60)] |}.
Proof. vm_compute. reflexivity. Qed.

(** Scenario D: a window of 60 minutes, a EURUSD position opened 10
    seconds ago, a USD event in 5 minutes: the position is closed and the
    kill switch armed to the event time plus 60 minutes. *)
Example scenario_D :
  (News02.enforce_news_window
     (news_tick burst_time
        (Some (snapshot_of 1%Q
                 [position_of 1 "EURUSD" (Some (burst_time - seconds 10))])))
     [news_event "USD" (burst_time + minutes 5) "CPI"] 60 None fresh_world).2
  = {| state_file := None;
       trace := [EvClose 1 "EURUSD" "RG NewsBlock";
                 EvSetKillUntil (burst_time + minutes 5 + minutes 60);
                 EvNotifyNews] |}.
Proof. vm_compute. reflexivity. Qed.

(** Scenario E: the three-letter symbol XAU gives the one currency XAU,
    a six-letter symbol its two halves. *)
Example scenario_E :
  elements (map_symbol_currencies "XAU") = ["XAU"] ∧
  (∀ c, c ∈ map_symbol_currencies "eurusd" ↔ c = "EUR" ∨ c = "USD").
Proof.
  split; [vm_compute; reflexivity|].
  intros c.
  change (map_symbol_currencies "eurusd") with ({[ "EUR"; "USD" ]} : gset string).
  set_solver.
Qed.

(** ** The watch loop and the calls *)

(** While no call raises, the watch loop is the succession of calls. *)
Lemma main_is_calls thr N bm envs :
  ∀ w reps w',
    LimitsWatch.main thr N bm envs w = ((reps, LimitsWatch.StillRunning), w') →
    calls thr N bm envs w = (Ok <$> reps, w').
Proof.
  induction envs as [|e envs IH]; intros w reps w' H; simpl in *.
  - by inversion H.
  - destruct (Limits.enforce_aggregate_risk e thr N bm w) as [[rep|ex] w1]; [|done].
    destruct (LimitsWatch.main thr N bm envs w1) as [[reps1 exit1] w2] eqn:Hm.
    inversion H; subst. by rewrite (IH _ _ _ Hm).
Qed.

(** ** More on the event-window enforcer *)

(** The guards, spelled out. *)
Lemma matches_of_iff reader events_df window_min recent_s pos :
  is_Some (matches_of reader events_df window_min recent_s pos) ↔
  due_for_close reader events_df window_min recent_s pos.
Proof.
  unfold due_for_close, matches_of, too_old. split.
  - intros [[m ms] H]. case_bool_decide as Hsym; [done|].
    destruct (open_time pos) as [opened|]; [|done].
    case_bool_decide as Hold; [done|].
    destruct (find_events _ _ _ _) as [|m' ms'] eqn:Hf; [done|].
    split; [done|]. split; [exists opened; split; [done|lia]|].
    assert (Hin : m' ∈ find_events events_df (map_symbol_currencies (symbol pos))
                          (now_utc reader) window_min) by (rewrite Hf; left).
    unfold find_events in Hin. apply list_elem_of_filter in Hin as [(? & ? & ?) ?].
    exists m'. done.
  - intros (Hsym & (opened & Ho & Hrecent) & (r & Hr & Hc & Hlo & Hhi)).
    rewrite bool_decide_eq_false_2 by done. rewrite Ho.
    rewrite bool_decide_eq_false_2 by lia.
    assert (Hin : r ∈ find_events events_df (map_symbol_currencies (symbol pos))
                         (now_utc reader) window_min).
    { unfold find_events. apply list_elem_of_filter. done. }
    destruct (find_events _ _ _ _) as [|m ms]; [by apply elem_of_nil in Hin|].
    eauto.
Qed.

(** The matches of a position that passes the guards are the rows of the
    calendar [find_events] keeps. *)
Lemma matches_of_events reader events_df window_min recent_s pos m ms :
  matches_of reader events_df window_min recent_s pos = Some (m, ms) →
  m :: ms =
    filter (λ r, currency r ∈ map_symbol_currencies (symbol pos) ∧
                 now_utc reader - minutes window_min <= ts_utc r ∧
                 ts_utc r <= now_utc reader + minutes window_min) events_df.
Proof.
  intros H. destruct (matches_of_some _ _ _ _ _ _ _ H) as (_ & _ & _ & Hf).
  rewrite <- Hf. reflexivity.
Qed.

(** X10.  A position passes the guards of the event-window enforcer
    exactly when it has a symbol and an opening time at most [recent_s]
    seconds before the call, and the calendar holds an event for one of
    the currencies of its symbol at most [window_min] minutes before or
    after the call; the matches are then those events, all of them and
    in calendar order. *)
Theorem guard_passes_iff reader events_df window_min recent_s pos :
  (is_Some (matches_of reader events_df window_min recent_s pos) ↔
   symbol pos ≠ EmptyString ∧
   (∃ opened, open_time pos = Some opened ∧
              now_utc reader - opened <= seconds recent_s) ∧
   ∃ r, r ∈ events_df ∧
        currency r ∈ map_symbol_currencies (symbol pos) ∧
        now_utc reader - minutes window_min <= ts_utc r ∧
        ts_utc r <= now_utc reader + minutes window_min) ∧
  ∀ m ms,
    matches_of reader events_df window_min recent_s pos = Some (m, ms) →
    m :: ms =
      filter (λ r, currency r ∈ map_symbol_currencies (symbol pos) ∧
                   now_utc reader - minutes window_min <= ts_utc r ∧
                   ts_utc r <= now_utc reader + minutes window_min) events_df.
Proof.
  split; [apply matches_of_iff|apply matches_of_events].
Qed.

(** Revision 0.2, the whole loop, exactly: one close request per guarded
    position, in snapshot order, whatever the closes answer. *)
Lemma news02_positions_trace reader events_df window_min recent_s ps :
  ∀ acc w,
  ∃ acc',
    News02.enforce_positions reader events_df window_min recent_s ps acc w
      = (Ok acc',
         {| state_file := state_file w;
            trace := trace w ++
                     (news_position_close <$>
                        guarded_positions reader events_df window_min recent_s ps) |}) ∧
    (affected_entry <$> affected acc.1 ≡ₚ closed acc.1 ++ failed acc.1 →
     affected_entry <$> affected acc'.1 ≡ₚ closed acc'.1 ++ failed acc'.1) ∧
    kill_switch_until acc'.1 = kill_switch_until acc.1.
Proof.
  unfold guarded_positions.
  induction ps as [|pos ps IH]; intros [report mu] w.
  - simpl. exists (report, mu). rewrite app_nil_r. by destruct w.
  - cbn [News02.enforce_positions]. unfold mbind, M_bind. rewrite news02_position.
    rewrite (filter_cons _ pos).
    destruct (matches_of reader events_df window_min recent_s pos) as [[m ms]|] eqn:Hm.
    + rewrite decide_True by eauto. cbv zeta.
      destruct (close_outcome reader (ticket pos)).
      * destruct (IH (add_affected
                        {| aff_ticket := ticket pos; aff_symbol := symbol pos;
                           aff_matches := m :: ms |}
                        (add_closed true (ticket pos) (symbol pos) report),
                      News02.later_of mu (max_ts m ms + minutes window_min))
                    {| state_file := state_file w;
                       trace := trace w ++
                         [EvClose (ticket pos) (symbol pos) "RG NewsBlock"] |})
          as (acc' & -> & Hperm & Hk).
        exists acc'. simpl. rewrite <- app_assoc. split; [done|]. split; [|done].
        intros H0. apply Hperm. simpl. rewrite fmap_app. simpl.
        rewrite H0. unfold affected_entry. simpl.
        rewrite <- !app_assoc. apply Permutation_app_head. symmetry.
        apply Permutation_cons_append.
      * destruct (IH (add_affected
                        {| aff_ticket := ticket pos; aff_symbol := symbol pos;
                           aff_matches := m :: ms |}
                        (add_closed false (ticket pos) (symbol pos) report),
                      News02.later_of mu (max_ts m ms + minutes window_min))
                    {| state_file := state_file w;
                       trace := trace w ++
                         [EvClose (ticket pos) (symbol pos) "RG NewsBlock"] |})
          as (acc' & -> & Hperm & Hk).
        exists acc'. simpl. rewrite <- app_assoc. split; [done|]. split; [|done].
        intros H0. apply Hperm. simpl. rewrite fmap_app. simpl.
        rewrite H0. unfold affected_entry. simpl.
        by rewrite <- !app_assoc.
      * destruct (IH (report, mu)
                    {| state_file := state_file w;
                       trace := trace w ++
                         [EvClose (ticket pos) (symbol pos) "RG NewsBlock"] |})
          as (acc' & -> & Hperm & Hk).
        exists acc'. simpl. rewrite <- app_assoc. done.
    + rewrite decide_False by (intros [? ?]; done).
      destruct (IH (report, mu) w) as (acc' & -> & Hperm & Hk).
      exists acc'. done.
Qed.

Lemma not_close_of_is_close (ev : Effect) :
  (∀ t, ¬ is_close_of t ev) → is_close ev = false.
Proof. destruct ev as [t sym c| | |]; try done. intros H. by destruct (H t). Qed.

(** X11.  Revision 0.2 asks the engine to close every position that
    passes the guards, once each and in snapshot order, before anything
    else and whatever the other closes answer (refusing or raising); and
    in a report it returns, the affected positions are exactly those
    recorded as closed or failed. *)
Theorem news02_closes_every_guarded_position reader events_df window_min recent_s w snap :
  snapshot reader = Some snap →
  ∃ tail,
    (News02.enforce_news_window reader events_df window_min recent_s w).2
      = {| state_file := state_file w;
           trace := trace w ++
                    (news_position_close <$>
                       guarded_positions reader events_df window_min
                         (recent_or_default window_min recent_s) (positions snap)) ++
                    tail |} ∧
    Forall (λ ev, is_close ev = false) tail ∧
    ∀ report,
      (News02.enforce_news_window reader events_df window_min recent_s w).1 = Ok report →
      affected_entry <$> affected report ≡ₚ closed report ++ failed report.
Proof.
  intros Hs. unfold News02.enforce_news_window, read_snapshot. rewrite Hs.
  unfold mbind, M_bind, mret, M_ret, try_except.
  destruct (news02_positions_trace reader events_df window_min
              (recent_or_default window_min recent_s) (positions snap)
              (empty_report, None) w) as ([report mu] & -> & Hperm & _).
  simpl in Hperm. specialize (Hperm ltac:(done)).
  destruct (arm_after_batch_effects reader report mu
              {| state_file := state_file w;
                 trace := trace w ++
                   (news_position_close <$>
                      guarded_positions reader events_df window_min
                        (recent_or_default window_min recent_s) (positions snap)) |})
    as (tail & Hw & Hnc & _).
  exists tail. rewrite Hw. simpl. rewrite <- app_assoc. split; [done|]. split.
  - apply Forall_forall. intros ev Hev. apply not_close_of_is_close.
    intros t. by apply Hnc.
  - intros r Hr. unfold News02.arm_after_batch, set_kill_until, notify_news in Hr.
    destruct (affected report) as [|a affs] eqn:Ha.
    + injection Hr as <-. by rewrite Ha.
    + destruct mu as [u|]; [|injection Hr as <-; by rewrite Ha].
      run_M. destruct (arm_ok reader u); simpl in Hr; [|done].
      destruct (notify_ok reader); simpl in Hr; injection Hr as <-; simpl;
        by rewrite Ha.
Qed.

Lemma news02_closes_every_guarded_position_witness :
  ∃ tail,
    (News02.enforce_news_window burst burst_calendar 60 None fresh_world).2
      = {| state_file := None;
           trace := [] ++ [EvClose 1 "USDJPY" "RG NewsBlock";
                           EvClose 2 "EURGBP" "RG NewsBlock"] ++ tail |} ∧
    Forall (λ ev, is_close ev = false) tail.
Proof.
  destruct (news02_closes_every_guarded_position burst burst_calendar 60 None fresh_world
              (snapshot_of 1%Q
                 [position_of 1 "USDJPY" (Some (burst_time - seconds 10));
                  position_of 2 "EURGBP" (Some (burst_time - seconds 20))])
              eq_refl) as (tail & Hw & Hall & _).
  exists tail. split; [exact Hw|exact Hall].
Defined.

(** X12.  Neither revision of the event-window enforcer touches the
    state file of the aggregate-risk enforcer, whatever the call does
    and however it ends. *)
Theorem news_leaves_state_file reader events_df window_min recent_s w :
  state_file (News01.enforce_news_window reader events_df window_min recent_s w).2
    = state_file w ∧
  state_file (News02.enforce_news_window reader events_df window_min recent_s w).2
    = state_file w.
Proof.
  split.
  - unfold News01.enforce_news_window, read_snapshot.
    destruct (snapshot reader) as [snap|]; [|reflexivity].
    run_M.
    destruct (news01_positions reader events_df window_min
                (recent_or_default window_min recent_s) (positions snap) empty_report w)
      as (report & evs & -> & _). reflexivity.
  - unfold News02.enforce_news_window, read_snapshot.
    destruct (snapshot reader) as [snap|]; [|reflexivity].
    unfold mbind, M_bind, mret, M_ret, try_except.
    destruct (news02_positions_trace reader events_df window_min
                (recent_or_default window_min recent_s) (positions snap)
                (empty_report, None) w) as ([report mu] & -> & _).
    destruct (arm_after_batch_effects reader report mu
                {| state_file := state_file w;
                   trace := trace w ++
                     (news_position_close <$>
                        guarded_positions reader events_df window_min
                          (recent_or_default window_min recent_s) (positions snap)) |})
      as (tail & -> & _). reflexivity.
Qed.

(** A loop over positions none of which passes the guards does nothing. *)
Lemma news_unguarded_idle reader events_df window_min recent_s ps :
  (∀ pos, pos ∈ ps → matches_of reader events_df window_min recent_s pos = None) →
  (∀ report w,
     News01.enforce_positions reader events_df window_min recent_s ps report w
       = (Ok report, w)) ∧
  (∀ acc w,
     News02.enforce_positions reader events_df window_min recent_s ps acc w
       = (Ok acc, w)).
Proof.
  induction ps as [|pos ps IH]; intros Hnone; [done|].
  destruct IH as [IH1 IH2]; [intros p Hp; apply Hnone; by right|].
  pose proof (Hnone pos ltac:(left)) as Hpos. split.
  - intros report w. cbn [News01.enforce_positions]. unfold mbind, M_bind.
    unfold News01.enforce_position. rewrite Hpos. simpl. apply IH1.
  - intros [report mu] w. cbn [News02.enforce_positions]. unfold mbind, M_bind.
    rewrite news02_position, Hpos. apply IH2.
Qed.

(** A position that passes the guards has an event of the calendar in
    the window around the call. *)
Lemma matches_of_in_window reader events_df window_min recent_s pos :
  is_Some (matches_of reader events_df window_min recent_s pos) →
  ∃ r, r ∈ events_df ∧
       now_utc reader - minutes window_min <= ts_utc r ∧
       ts_utc r <= now_utc reader + minutes window_min.
Proof.
  unfold matches_of. intros [[m ms] H].
  case_bool_decide as Hsym; [done|].
  destruct (open_time pos) as [opened|]; [|done].
  destruct (too_old _ _ _); [done|].
  destruct (find_events _ _ _ _) as [|m' ms'] eqn:Hf; [done|].
  assert (Hin : m' ∈ find_events events_df (map_symbol_currencies (symbol pos))
                        (now_utc reader) window_min) by (rewrite Hf; left).
  unfold find_events in Hin. apply list_elem_of_filter in Hin as [(? & ? & ?) ?].
  exists m'. done.
Qed.

(** X13.  Outside every event window nothing happens: when each event of
    the calendar lies more than [window_min] minutes before or after the
    call, both revisions return the empty report, close nothing and leave
    the kill switch alone, whatever the positions. *)
Theorem news_idle_outside_windows reader events_df window_min recent_s w :
  (∀ r, r ∈ events_df →
     ts_utc r < now_utc reader - minutes window_min ∨
     now_utc reader + minutes window_min < ts_utc r) →
  News01.enforce_news_window reader events_df window_min recent_s w
    = (Ok empty_report, w) ∧
  News02.enforce_news_window reader events_df window_min recent_s w
    = (Ok empty_report, w).
Proof.
  intros Hout.
  assert (Hnone : ∀ (ps : list Position) pos, pos ∈ ps →
            matches_of reader events_df window_min
              (recent_or_default window_min recent_s) pos = None).
  { intros ps pos _.
    destruct (matches_of _ _ _ _ pos) as [[m ms]|] eqn:Hm; [|done].
    assert (Hsome : is_Some (matches_of reader events_df window_min
                               (recent_or_default window_min recent_s) pos))
      by (rewrite Hm; eauto).
    apply matches_of_in_window in Hsome as (r & Hr & Hlo & Hhi).
    destruct (Hout r Hr); lia. }
  unfold News01.enforce_news_window, News02.enforce_news_window, read_snapshot.
  destruct (snapshot reader) as [snap|]; [|done].
  destruct (news_unguarded_idle reader events_df window_min
              (recent_or_default window_min recent_s) (positions snap)
              (Hnone (positions snap))) as [H1 H2].
  unfold mbind, M_bind, mret, M_ret, try_except. rewrite H1, H2. done.
Qed.

Lemma news_idle_outside_windows_witness :
  News01.enforce_news_window burst
    [news_event "USD" (burst_time + minutes 61) "CPI"] 60 None fresh_world
    = (Ok empty_report, fresh_world) ∧
  News02.enforce_news_window burst
    [news_event "USD" (burst_time + minutes 61) "CPI"] 60 None fresh_world
    = (Ok empty_report, fresh_world).
Proof.
  apply (news_idle_outside_windows burst
           [news_event "USD" (burst_time + minutes 61) "CPI"] 60 None fresh_world).
  intros r Hr. apply list_elem_of_singleton in Hr. subst r. right.
  vm_compute. reflexivity.
Defined.

(** Revision 0.1, one position, case by case. *)
Lemma news01_position_cases reader events_df window_min recent_s report pos w :
  News01.enforce_position reader events_df window_min recent_s report pos w =
    match matches_of reader events_df window_min recent_s pos with
    | None => (Ok report, w)
    | Some (m, ms) =>
        let on := [EvAutotradingOn] in
        let close := [EvClose (ticket pos) (symbol pos) "RG NewsBlock"] in
        let u := max_ts m ms + minutes window_min in
        let a := {| aff_ticket := ticket pos; aff_symbol := symbol pos;
                    aff_matches := m :: ms |} in
        let after ok :=
          let report2 :=
            set_kill_switch_until (Some u)
              (add_closed ok (ticket pos) (symbol pos) report) in
          (Ok (if arm_ok reader u then add_affected a report2 else report2),
           {| state_file := state_file w;
              trace := trace w ++ on ++ close ++ [EvSetKillUntil u] |}) in
        if autotrading_on_ok reader (ticket pos) then
          match close_outcome reader (ticket pos) with
          | Closed => after true
          | Refused => after false
          | CloseRaises =>
              (Ok report,
               {| state_file := state_file w; trace := trace w ++ on ++ close |})
          end
        else (Ok report, {| state_file := state_file w; trace := trace w ++ on |})
    end.
Proof.
  unfold News01.enforce_position.
  destruct (matches_of reader events_df window_min recent_s pos) as [[m ms]|];
    [|reflexivity].
  unfold ensure_autotrading_on, close_position_full, set_kill_until. run_M.
  destruct (autotrading_on_ok reader (ticket pos)); simpl; [|reflexivity].
  destruct (close_outcome reader (ticket pos)); simpl;
    try destruct (arm_ok reader _); simpl; rewrite <- ?app_assoc; reflexivity.
Qed.

Lemma news02_window_trace reader events_df window_min recent_s w snap :
  snapshot reader = Some snap →
  ∃ tail,
    trace (News02.enforce_news_window reader events_df window_min recent_s w).2
      = trace w ++
        (news_position_close <$>
           guarded_positions reader events_df window_min
             (recent_or_default window_min recent_s) (positions snap)) ++ tail.
Proof.
  intros Hs. unfold News02.enforce_news_window, read_snapshot. rewrite Hs.
  unfold mbind, M_bind, mret, M_ret, try_except.
  destruct (news02_positions_trace reader events_df window_min
              (recent_or_default window_min recent_s) (positions snap)
              (empty_report, None) w) as ([report mu] & -> & _ & _).
  destruct (arm_after_batch_effects reader report mu
              {| state_file := state_file w;
                 trace := trace w ++
                   (news_position_close <$>
                      guarded_positions reader events_df window_min
                        (recent_or_default window_min recent_s) (positions snap)) |})
    as (tail & Hw & _ & _).
  exists tail. rewrite Hw. simpl. by rewrite <- app_assoc.
Qed.

(** Revision 0.1, the whole loop: it asks the engine to close every
    guarded position for which [ensure_autotrading_on] returns. *)
Lemma news01_positions_closes reader events_df window_min recent_s ps :
  ∀ report w,
  ∃ report' evs,
    News01.enforce_positions reader events_df window_min recent_s ps report w
      = (Ok report', {| state_file := state_file w; trace := trace w ++ evs |}) ∧
    ∀ pos, pos ∈ ps →
      is_Some (matches_of reader events_df window_min recent_s pos) →
      autotrading_on_ok reader (ticket pos) = true →
      news_position_close pos ∈ evs.
Proof.
  induction ps as [|pos ps IH]; intros report w.
  - exists report, []. simpl. rewrite app_nil_r. destruct w. split; [done|].
    intros pos Hpos. by apply elem_of_nil in Hpos.
  - cbn [News01.enforce_positions]. unfold mbind, M_bind.
    destruct (news01_position reader events_df window_min recent_s report pos w)
      as (report1 & evs1 & He1 & _).
    pose proof (news01_position_cases reader events_df window_min recent_s report pos w)
      as Hcases.
    rewrite He1 in Hcases. rewrite He1.
    destruct (IH report1 {| state_file := state_file w; trace := trace w ++ evs1 |})
      as (report' & evs & -> & Hin).
    exists report', (evs1 ++ evs). simpl. rewrite app_assoc. split; [done|].
    intros p Hp Hm Hon. apply elem_of_app.
    apply elem_of_cons in Hp as [->|Hp]; [left|right; by apply Hin].
    destruct Hm as [[m ms] Hm]. rewrite Hm, Hon in Hcases. cbv zeta in Hcases.
    assert (Hev : ∀ (r : Result Report) tail,
              (Ok report1, {| state_file := state_file w; trace := trace w ++ evs1 |})
              = (r, {| state_file := state_file w;
                       trace := trace w ++ [EvAutotradingOn] ++
                                [EvClose (ticket pos) (symbol pos) "RG NewsBlock"] ++ tail |}) →
              news_position_close pos ∈ evs1).
    { intros r tail [= _ Ht]. apply app_inv_head in Ht. subst evs1.
      right. left. }
    destruct (close_outcome reader (ticket pos)).
    + by apply (Hev _ _ Hcases).
    + by apply (Hev _ _ Hcases).
    + apply (Hev (Ok report) []). by rewrite app_nil_r.
Qed.

(** ** The default of [recent_s] (C9) *)

(** C9.  In both revisions a call without [recent_s] is the call with
    [recent_s = window_min * 60].  Every close request it issues and
    every entry of [report["affected"]] is for a position of the snapshot
    opened at most [window_min * 60] seconds before the call, that is at
    most 3600 seconds with the default window of 60 minutes.  And a
    position opened within that time is considered: when it has a symbol
    and the calendar holds an event for one of its currencies in the
    window, revision 0.2 asks the engine to close it, and so does
    revision 0.1 when [ensure_autotrading_on] returns for it. *)
Theorem C9_recent_defaults_to_window reader events_df window_min w :
  recent_or_default window_min None = window_min * 60 ∧
  News01.enforce_news_window reader events_df window_min None
    = News01.enforce_news_window reader events_df window_min (Some (window_min * 60)) ∧
  News02.enforce_news_window reader events_df window_min None
    = News02.enforce_news_window reader events_df window_min (Some (window_min * 60)) ∧
  only_recent reader (window_min * 60) w
    (News01.enforce_news_window reader events_df window_min None w) ∧
  only_recent reader (window_min * 60) w
    (News02.enforce_news_window reader events_df window_min None w) ∧
  seconds (window_min * 60) = minutes window_min ∧
  only_recent reader 3600 w (News01.enforce_news_window reader events_df 60 None w) ∧
  only_recent reader 3600 w (News02.enforce_news_window reader events_df 60 None w) ∧
  (∀ snap pos,
     snapshot reader = Some snap → pos ∈ positions snap →
     due_for_close reader events_df window_min (window_min * 60) pos →
     asked_to_close pos w (News02.enforce_news_window reader events_df window_min None w) ∧
     (autotrading_on_ok reader (ticket pos) = true →
      asked_to_close pos w
        (News01.enforce_news_window reader events_df window_min None w))).
Proof.
  split_and!.
  - reflexivity.
  - reflexivity.
  - reflexivity.
  - apply news01_only_recent.
  - apply news02_only_recent.
  - unfold seconds, minutes. lia.
  - apply news01_only_recent.
  - apply news02_only_recent.
  - intros snap pos Hs Hpos Hdue. apply matches_of_iff in Hdue. split.
    + destruct (news02_window_trace reader events_df window_min None w snap Hs)
        as (tail & Ht).
      eexists. split; [exact Ht|]. apply elem_of_app. left.
      apply list_elem_of_fmap. exists pos. split; [done|].
      unfold guarded_positions. apply list_elem_of_filter. done.
    + intros Hon. unfold asked_to_close, News01.enforce_news_window, read_snapshot.
      rewrite Hs. unfold mbind, M_bind, mret, M_ret, try_except.
      destruct (news01_positions_closes reader events_df window_min
                  (recent_or_default window_min None) (positions snap) empty_report w)
        as (report & evs & -> & Hin).
      exists evs. split; [done|]. by apply Hin.
Qed.

(** The default at its limit, with the window of 60 minutes and a USD
    event at the time of the call: a position opened 3600 seconds before
    the call is closed, one opened a microsecond earlier is left
    alone. *)
Lemma recent_default_boundary :
  trace (News02.enforce_news_window
           (news_tick (minutes 600)
              (Some (snapshot_of 1%Q
                       [position_of 1 "USDJPY" (Some (minutes 600 - seconds 3600));
                        position_of 2 "USDCHF" (Some (minutes 600 - seconds 3600 - 1))])))
           [news_event "USD" (minutes 600) "CPI"] 60 None fresh_world).2
    = [EvClose 1 "USDJPY" "RG NewsBlock"; EvSetKillUntil (minutes 660); EvNotifyNews] ∧
  trace (News01.enforce_news_window
           (news_tick (minutes 600)
              (Some (snapshot_of 1%Q
                       [position_of 1 "USDJPY" (Some (minutes 600 - seconds 3600));
                        position_of 2 "USDCHF" (Some (minutes 600 - seconds 3600 - 1))])))
           [news_event "USD" (minutes 600) "CPI"] 60 None fresh_world).2
    = [EvAutotradingOn; EvClose 1 "USDJPY" "RG NewsBlock"; EvSetKillUntil (minutes 660)].
Proof. split; vm_compute; reflexivity. Qed.

Lemma on_before_every_close_nil : on_before_every_close [].
Proof. intros evs1 ev evs2 H. by destruct evs1. Qed.

Lemma on_before_every_close_app evs evs' :
  on_before_every_close evs → on_before_every_close evs' →
  on_before_every_close (evs ++ evs').
Proof.
  intros H1 H2 evs1 ev evs2 Heq Hcl.
  apply app_eq_inv in Heq as [(k & -> & Hk)|(k & -> & Hk)].
  - destruct k as [|e k].
    + simpl in Hk.
      destruct (H2 [] ev evs2 (eq_sym Hk) Hcl) as (evs0 & He0). by destruct evs0.
    + simpl in Hk. injection Hk as <- _.
      exact (H1 evs1 ev k eq_refl Hcl).
  - destruct (H2 k ev evs2 Hk Hcl) as (evs0 & ->).
    exists (evs ++ evs0). by rewrite app_assoc.
Qed.

Lemma on_before_every_close_block (tail : list Effect) t sym c :
  Forall (λ ev, is_close ev = false) tail →
  on_before_every_close (EvAutotradingOn :: EvClose t sym c :: tail).
Proof.
  intros Htail evs1 ev evs2 Heq Hcl.
  destruct evs1 as [|e1 evs1]; [injection Heq as <- _; done|].
  injection Heq as <- Heq.
  destruct evs1 as [|e2 evs1]; [by exists []|].
  injection Heq as <- Heq. exfalso.
  assert (Hin : ev ∈ tail) by (rewrite Heq; apply elem_of_app; right; left).
  rewrite Forall_forall in Htail. specialize (Htail ev Hin). congruence.
Qed.

(** Revision 0.1, the whole loop, with the counts of what it asked. *)
Lemma news01_positions_counts reader events_df window_min recent_s ps :
  ∀ report w,
  ∃ report' evs,
    News01.enforce_positions reader events_df window_min recent_s ps report w
      = (Ok report', {| state_file := state_file w; trace := trace w ++ evs |}) ∧
    (length (filter (λ ev, is_arming ev = true) evs)
       + length (closed report) + length (failed report)
     = length (closed report') + length (failed report'))%nat ∧
    (length (affected report')
     <= length (affected report) + length (filter (λ ev, is_arming ev = true) evs))%nat ∧
    ((∀ u, arm_ok reader u = true) →
     length (affected report')
     = (length (affected report) + length (filter (λ ev, is_arming ev = true) evs))%nat) ∧
    on_before_every_close evs.
Proof.
  induction ps as [|pos ps IH]; intros report w.
  - simpl. exists report, []. rewrite app_nil_r. destruct w. simpl.
    split; [done|]. split; [lia|]. split; [lia|]. split; [lia|].
    apply on_before_every_close_nil.
  - cbn [News01.enforce_positions]. unfold mbind, M_bind.
    rewrite news01_position_cases.
    assert (Hstep : ∃ report1 evs1,
              match matches_of reader events_df window_min recent_s pos with
              | None => (Ok report, w)
              | Some (m, ms) =>
                  let on := [EvAutotradingOn] in
                  let close := [EvClose (ticket pos) (symbol pos) "RG NewsBlock"] in
                  let u := max_ts m ms + minutes window_min in
                  let a := {| aff_ticket := ticket pos; aff_symbol := symbol pos;
                              aff_matches := m :: ms |} in
                  let after ok :=
                    let report2 :=
                      set_kill_switch_until (Some u)
                        (add_closed ok (ticket pos) (symbol pos) report) in
                    (Ok (if arm_ok reader u then add_affected a report2 else report2),
                     {| state_file := state_file w;
                        trace := trace w ++ on ++ close ++ [EvSetKillUntil u] |}) in
                  if autotrading_on_ok reader (ticket pos) then
                    match close_outcome reader (ticket pos) with
                    | Closed => after true
                    | Refused => after false
                    | CloseRaises =>
                        (Ok report,
                         {| state_file := state_file w;
                            trace := trace w ++ on ++ close |})
                    end
                  else (Ok report,
                        {| state_file := state_file w; trace := trace w ++ on |})
              end = (Ok report1,
                     {| state_file := state_file w; trace := trace w ++ evs1 |}) ∧
              (length (filter (λ ev, is_arming ev = true) evs1)
                 + length (closed report) + length (failed report)
               = length (closed report1) + length (failed report1))%nat ∧
              (length (affected report1)
               <= length (affected report)
                  + length (filter (λ ev, is_arming ev = true) evs1))%nat ∧
              ((∀ u, arm_ok reader u = true) →
               length (affected report1)
               = (length (affected report)
                  + length (filter (λ ev, is_arming ev = true) evs1))%nat) ∧
              on_before_every_close evs1).
    { destruct (matches_of reader events_df window_min recent_s pos) as [[m ms]|].
      - cbv zeta. destruct (autotrading_on_ok reader (ticket pos)).
        + destruct (close_outcome reader (ticket pos)).
          * destruct (arm_ok reader _) eqn:Harm;
              eexists _, _; (split; [reflexivity|]); simpl;
              rewrite ?length_app; simpl;
              (split; [lia|]); (split; [lia|]);
              (split; [first [lia | intros H; rewrite H in Harm; done]|]);
              apply on_before_every_close_block; by repeat constructor.
          * destruct (arm_ok reader _) eqn:Harm;
              eexists _, _; (split; [reflexivity|]); simpl;
              rewrite ?length_app; simpl;
              (split; [lia|]); (split; [lia|]);
              (split; [first [lia | intros H; rewrite H in Harm; done]|]);
              apply on_before_every_close_block; by repeat constructor.
          * eexists _, _. split; [reflexivity|]. simpl.
            split; [lia|]. split; [lia|]. split; [lia|].
            apply on_before_every_close_block. constructor.
        + eexists _, _. split; [reflexivity|]. simpl.
          split; [lia|]. split; [lia|]. split; [lia|].
          intros evs1 ev evs2 Heq Hcl.
          destruct evs1 as [|e1 evs1]; [injection Heq as <- _; done|].
          injection Heq as _ Heq. by destruct evs1.
      - exists report, []. rewrite app_nil_r. destruct w. simpl.
        split; [done|]. split; [lia|]. split; [lia|]. split; [lia|].
        apply on_before_every_close_nil. }
    destruct Hstep as (report1 & evs1 & -> & Hc1 & Ha1 & He1 & Hon1).
    destruct (IH report1 {| state_file := state_file w; trace := trace w ++ evs1 |})
      as (report2 & evs2 & -> & Hc2 & Ha2 & He2 & Hon2).
    exists report2, (evs1 ++ evs2). simpl. rewrite <- app_assoc.
    split; [done|]. rewrite filter_app, length_app.
    split; [lia|]. split; [lia|].
    split; [intros Harm; specialize (He1 Harm); specialize (He2 Harm); lia|].
    by apply on_before_every_close_app.
Qed.

(** X14.  Revision 0.1 always returns a report, and it asks the kill
    switch once per close it recorded: the number of [set_kill_until]
    requests of a call is the number of entries of [report["closed"]]
    and [report["failed"]] together; the affected positions are at most
    as many, and exactly as many when no arming raises. *)
Theorem news01_arms_once_per_recorded_close reader events_df window_min recent_s w :
  ∃ report evs,
    News01.enforce_news_window reader events_df window_min recent_s w
      = (Ok report, {| state_file := state_file w; trace := trace w ++ evs |}) ∧
    length (filter (λ ev, is_arming ev = true) evs)
      = (length (closed report) + length (failed report))%nat ∧
    (length (affected report) <= length (closed report) + length (failed report))%nat ∧
    ((∀ u, arm_ok reader u = true) →
     length (affected report) = (length (closed report) + length (failed report))%nat).
Proof.
  unfold News01.enforce_news_window, read_snapshot.
  destruct (snapshot reader) as [snap|].
  - run_M.
    destruct (news01_positions_counts reader events_df window_min
                (recent_or_default window_min recent_s) (positions snap) empty_report w)
      as (report & evs & -> & Hc & Ha & He & _).
    simpl in *. exists report, evs. split; [done|]. split; [lia|]. split; [lia|].
    intros Harm. specialize (He Harm). lia.
  - run_M. exists empty_report, []. rewrite app_nil_r. destruct w. simpl. done.
Qed.

(** X15.  Revision 0.1 switches automated trading on right before every
    close it asks for: each close request of a call directly follows a
    request to switch automated trading on.  Revision 0.2 never asks for
    that. *)
Theorem autotrading_on_before_close reader events_df window_min recent_s w :
  (∃ evs,
     trace (News01.enforce_news_window reader events_df window_min recent_s w).2
       = trace w ++ evs ∧
     on_before_every_close evs) ∧
  (∃ evs,
     trace (News02.enforce_news_window reader events_df window_min recent_s w).2
       = trace w ++ evs ∧
     Forall (λ ev, is_autotrading_on ev = false) evs).
Proof.
  split.
  - unfold News01.enforce_news_window, read_snapshot.
    destruct (snapshot reader) as [snap|].
    + run_M.
      destruct (news01_positions_counts reader events_df window_min
                  (recent_or_default window_min recent_s) (positions snap)
                  empty_report w)
        as (report & evs & -> & _ & _ & _ & Hon).
      exists evs. done.
    + run_M. exists []. rewrite app_nil_r. split; [done|].
      apply on_before_every_close_nil.
  - unfold News02.enforce_news_window, read_snapshot.
    destruct (snapshot reader) as [snap|].
    + unfold mbind, M_bind, mret, M_ret, try_except.
      destruct (news02_positions_trace reader events_df window_min
                  (recent_or_default window_min recent_s) (positions snap)
                  (empty_report, None) w) as ([report mu] & -> & _).
      unfold News02.arm_after_batch, set_kill_until, notify_news.
      assert (Hcloses : Forall (λ ev, is_autotrading_on ev = false)
                (news_position_close <$>
                   guarded_positions reader events_df window_min
                     (recent_or_default window_min recent_s) (positions snap))).
      { apply Forall_fmap, Forall_true. done. }
      destruct (affected report) as [|a affs];
        [eexists; split; [reflexivity|done]|].
      destruct mu as [u|]; [|eexists; split; [reflexivity|done]].
      run_M. destruct (arm_ok reader u); simpl.
      * destruct (notify_ok reader); simpl;
          (eexists; split; [rewrite <- ?app_assoc; reflexivity|]);
          apply Forall_app; (split; [done|]); by repeat constructor.
      * eexists. split; [rewrite <- ?app_assoc; reflexivity|].
        apply Forall_app. split; [done|]. by repeat constructor.
    + run_M. exists []. rewrite app_nil_r. done.
Qed.

(** Revision 0.2: a guarded position whose close returns is affected. *)
Lemma news02_affected_not_empty reader events_df window_min recent_s ps :
  ∀ acc w res w1,
    News02.enforce_positions reader events_df window_min recent_s ps acc w
      = (Ok res, w1) →
    (affected acc.1 ≠ [] ∨
     ∃ pos, pos ∈ ps ∧
            is_Some (matches_of reader events_df window_min recent_s pos) ∧
            close_outcome reader (ticket pos) ≠ CloseRaises) →
    affected res.1 ≠ [].
Proof.
  induction ps as [|p ps IH]; intros [r m0] w0 res w1 Hrun Hor.
  - simpl in Hrun. injection Hrun as <- _.
    destruct Hor as [|(pos & Hin & _)]; [done|by apply elem_of_nil in Hin].
  - cbn [News02.enforce_positions] in Hrun. unfold mbind, M_bind in Hrun.
    rewrite news02_position in Hrun.
    assert (Hgrow : ∀ a r', affected (add_affected a r') ≠ []).
    { intros a r'. simpl. by destruct (affected r'). }
    destruct (matches_of reader events_df window_min recent_s p) as [[m ms]|] eqn:Hm.
    + cbv zeta in Hrun.
      destruct (close_outcome reader (ticket p)) eqn:Hout.
      * eapply IH; [exact Hrun|]. left. apply Hgrow.
      * eapply IH; [exact Hrun|]. left. apply Hgrow.
      * eapply IH; [exact Hrun|].
        destruct Hor as [H|(pos & Hin & Hg & Hc)]; [by left|].
        apply elem_of_cons in Hin as [->|Hin]; [done|]. right. eauto.
    + eapply IH; [exact Hrun|].
      destruct Hor as [H|(pos & Hin & Hg & Hc)]; [by left|].
      apply elem_of_cons in Hin as [->|Hin]; [|right; eauto].
      rewrite Hm in Hg. by destruct Hg.
Qed.

(** X16.  Revision 0.2 does not catch what [set_kill_until] raises: when
    a position is affected and the arming raises, the call ends on that
    exception after the close requests, without a notification and
    without a report. *)
Theorem news02_arming_failure_propagates reader events_df window_min recent_s w snap pos :
  snapshot reader = Some snap →
  pos ∈ positions snap →
  is_Some (matches_of reader events_df window_min
             (recent_or_default window_min recent_s) pos) →
  close_outcome reader (ticket pos) ≠ CloseRaises →
  (∀ u, arm_ok reader u = false) →
  ∃ u,
    News02.enforce_news_window reader events_df window_min recent_s w
      = (Raise KillSwitchError,
         {| state_file := state_file w;
            trace := trace w ++
                     (news_position_close <$>
                        guarded_positions reader events_df window_min
                          (recent_or_default window_min recent_s) (positions snap)) ++
                     [EvSetKillUntil u] |}).
Proof.
  intros Hs Hpos Hguard Hclose Harm.
  unfold News02.enforce_news_window, read_snapshot. rewrite Hs.
  unfold mbind, M_bind, mret, M_ret, try_except.
  assert (Hinv : batch_invariant window_min empty_report None []).
  { split_and!; [constructor| |by left].
    intros a Ha. by apply elem_of_nil in Ha. }
  destruct (news02_positions reader events_df window_min
              (recent_or_default window_min recent_s) (positions snap)
              empty_report None w [] Hinv)
    as (report & mu & evs & He & (_ & _ & Hmu) & _).
  destruct (news02_positions_trace reader events_df window_min
              (recent_or_default window_min recent_s) (positions snap)
              (empty_report, None) w) as (acc' & He' & _).
  assert (Haff : affected report ≠ []).
  { apply (news02_affected_not_empty _ _ _ _ _ _ _ _ _ He). right. eauto. }
  rewrite He' in He. injection He as -> Hevs. rewrite He'.
  destruct Hmu as [[Hnil _]|(m & -> & _)]; [done|].
  exists (m + minutes window_min).
  unfold News02.arm_after_batch, set_kill_until.
  destruct (affected report) as [|a affs]; [done|].
  run_M. rewrite Harm. simpl. by rewrite <- app_assoc.
Qed.

Lemma news02_arming_failure_propagates_witness :
  ∃ u,
    News02.enforce_news_window
      {| now_utc := burst_time;
         snapshot := Some (snapshot_of 1%Q
                             [position_of 1 "USDJPY" (Some (burst_time - seconds 10))]);
         close_outcome := fun _ => Closed;
         autotrading_on_ok := fun _ => true;
         arm_ok := fun _ => false;
         notify_ok := true |}
      burst_calendar 60 None fresh_world
      = (Raise KillSwitchError,
         {| state_file := None;
            trace := [] ++ [EvClose 1 "USDJPY" "RG NewsBlock"] ++ [EvSetKillUntil u] |}).
Proof.
  apply (news02_arming_failure_propagates
           {| now_utc := burst_time;
              snapshot := Some (snapshot_of 1%Q
                                  [position_of 1 "USDJPY"
                                     (Some (burst_time - seconds 10))]);
              close_outcome := fun _ => Closed;
              autotrading_on_ok := fun _ => true;
              arm_ok := fun _ => false;
              notify_ok := true |}
           burst_calendar 60 None fresh_world
           (snapshot_of 1%Q [position_of 1 "USDJPY" (Some (burst_time - seconds 10))])
           (position_of 1 "USDJPY" (Some (burst_time - seconds 10)))).
  - reflexivity.
  - left.
  - vm_compute. eauto.
  - simpl. discriminate.
  - intros u. reflexivity.
Defined.

(** ** Symbols and currencies *)

Lemma upper_ascii_idem c : upper_ascii (upper_ascii c) = upper_ascii c.
Proof. destruct c as [[] [] [] [] [] [] [] []]; reflexivity. Qed.

Lemma upper_idem s : upper (upper s) = upper s.
Proof. induction s as [|c s IH]; simpl; [done|]. by rewrite upper_ascii_idem, IH. Qed.

Lemma upper_length s : String.length (upper s) = String.length s.
Proof. induction s as [|c s IH]; simpl; [done|]. by rewrite IH. Qed.

Lemma upper_substring s : ∀ n m, substring n m (upper s) = upper (substring n m s).
Proof.
  induction s as [|c s IH]; intros n m.
  - by destruct n, m.
  - destruct n as [|n]; destruct m as [|m]; simpl;
      first [done | by rewrite IH | apply IH].
Qed.

Lemma upper_app s1 s2 : upper (s1 +:+ s2) = upper s1 +:+ upper s2.
Proof. induction s1 as [|c s1 IH]; simpl; [done|]. by rewrite IH. Qed.

Lemma app_length_string s1 s2 :
  String.length (s1 +:+ s2) = (String.length s1 + String.length s2)%nat.
Proof. induction s1 as [|c s1 IH]; simpl; [done|]. by rewrite IH. Qed.

Lemma substring_length_le s : ∀ n m, (String.length (substring n m s) <= m)%nat.
Proof.
  induction s as [|c s IH]; intros n m.
  - destruct n, m; simpl; lia.
  - destruct n as [|n]; destruct m as [|m]; simpl;
      first [lia | apply IH | specialize (IH 0%nat m); lia].
Qed.

Lemma substring_app_l s1 s2 : ∀ n m,
  (n + m <= String.length s1)%nat →
  substring n m (s1 +:+ s2) = substring n m s1.
Proof.
  induction s1 as [|c s1 IH]; intros n m Hlen; simpl in Hlen.
  - assert (n = 0%nat) as -> by lia. assert (m = 0%nat) as -> by lia. by destruct s2.
  - destruct n as [|n]; destruct m as [|m]; simpl;
      first [done | by rewrite IH by lia | apply IH; lia].
Qed.

(** X17.  [map_symbol_currencies] gives one or two currencies, each of at
    most three characters and in upper case, and it does not depend on
    the case of the symbol. *)
Theorem symbol_currencies_shape (symbol : string) :
  (1 <= size (map_symbol_currencies symbol) <= 2)%nat ∧
  (∀ c, c ∈ map_symbol_currencies symbol →
        (String.length c <= 3)%nat ∧ upper c = c) ∧
  map_symbol_currencies (upper symbol) = map_symbol_currencies symbol.
Proof.
  split; [|split].
  - unfold map_symbol_currencies. destruct (_ && _).
    + rewrite size_union_alt, size_singleton.
      assert (Hsub : ({[substring 3 3 (upper symbol)]} : gset string)
                       ∖ {[substring 0 3 (upper symbol)]}
                     ⊆ {[substring 3 3 (upper symbol)]}) by (apply subseteq_difference_l; reflexivity).
      apply subseteq_size in Hsub. rewrite size_singleton in Hsub. lia.
    + rewrite size_singleton. lia.
  - intros c Hc. unfold map_symbol_currencies in Hc.
    destruct (_ && _).
    + apply elem_of_union in Hc as [Hc|Hc]; apply elem_of_singleton in Hc; subst c;
        (split; [apply substring_length_le|]);
        by rewrite <- upper_substring, upper_idem.
    + apply elem_of_singleton in Hc. subst c. unfold last3.
      split; [apply substring_length_le|].
      by rewrite <- upper_substring, upper_idem.
  - unfold map_symbol_currencies. by rewrite upper_idem.
Qed.

(** X18.  When the first six characters of a symbol are letters, what
    follows them does not matter: the currencies are the two halves of
    those six characters, whatever suffix the broker appends. *)
Theorem symbol_suffix_is_ignored (pair suffix : string) :
  String.length pair = 6%nat →
  isalpha (substring 0 3 (upper pair)) = true →
  isalpha (substring 3 3 (upper pair)) = true →
  map_symbol_currencies (pair +:+ suffix)
    = {[ substring 0 3 (upper pair); substring 3 3 (upper pair) ]} ∧
  map_symbol_currencies (pair +:+ suffix) = map_symbol_currencies pair.
Proof.
  intros Hlen H1 H2.
  assert (Hpair : map_symbol_currencies pair
                  = {[ substring 0 3 (upper pair); substring 3 3 (upper pair) ]}).
  { unfold map_symbol_currencies. rewrite upper_length, Hlen, H1, H2. reflexivity. }
  assert (Hsuf : map_symbol_currencies (pair +:+ suffix)
                 = {[ substring 0 3 (upper pair); substring 3 3 (upper pair) ]}).
  { unfold map_symbol_currencies. rewrite upper_app.
    rewrite !substring_app_l by (rewrite upper_length; lia).
    rewrite H1, H2.
    assert (Hl : Nat.leb 6 (String.length (upper pair +:+ upper suffix)) = true).
    { apply Nat.leb_le. rewrite app_length_string, upper_length. lia. }
    rewrite Hl. reflexivity. }
  by rewrite Hsuf, Hpair.
Qed.

Lemma symbol_suffix_is_ignored_witness :
  map_symbol_currencies ("eurusd" +:+ ".m") = map_symbol_currencies "eurusd".
Proof.
  apply (symbol_suffix_is_ignored "eurusd" ".m"); reflexivity.
Defined.

(** ** The daemon around the event-window enforcer *)

Import NewsDaemon.

Lemma act_after a r : act a r = after r [a].
Proof. reflexivity. Qed.

Lemma after_after r l1 l2 : after (after r l1) l2 = after r (l1 ++ l2).
Proof. unfold after. simpl. by rewrite app_assoc. Qed.

Lemma after_nil r : after r [] = r.
Proof. destruct r. unfold after. simpl. by rewrite app_nil_r. Qed.

Lemma some_alive_meets report snap2 :
  some_alive report (Some snap2) ↔
  (list_to_set (aff_ticket <$> affected report) : gset Z)
    ∩ list_to_set (ticket <$> positions snap2) ≠ ∅.
Proof.
  split.
  - intros (a & s & Ha & Hs & Hin). injection Hs as <-.
    intros Hempty.
    assert (aff_ticket a ∈ (∅ : gset Z)) as Habs; [|set_solver].
    rewrite <- Hempty. apply elem_of_intersection. split.
    + apply elem_of_list_to_set, list_elem_of_fmap. eauto.
    + by apply elem_of_list_to_set.
  - intros Hne. apply set_choose_L in Hne as (t & Ht).
    apply elem_of_intersection in Ht as [Ha Hs].
    apply elem_of_list_to_set, list_elem_of_fmap in Ha as (a & -> & Ha).
    apply elem_of_list_to_set in Hs.
    exists a, snap2. done.
Qed.

Lemma all_gone_meets report snap2 :
  all_gone report snap2 ↔
  (list_to_set (aff_ticket <$> affected report) : gset Z)
    ∩ list_to_set (ticket <$> positions snap2) = ∅.
Proof.
  split.
  - intros Hgone. apply set_eq. intros t. split; [|set_solver].
    intros Ht. apply elem_of_intersection in Ht as [Ha Hs].
    apply elem_of_list_to_set, list_elem_of_fmap in Ha as (a & -> & Ha).
    apply elem_of_list_to_set in Hs. by apply Hgone in Ha.
  - intros Hempty a Ha Hin.
    assert (aff_ticket a ∈ (∅ : gset Z)) as Habs; [|set_solver].
    rewrite <- Hempty. apply elem_of_intersection. split.
    + apply elem_of_list_to_set, list_elem_of_fmap. eauto.
    + by apply elem_of_list_to_set.
Qed.

(** The polls that show an affected ticket alive are each followed by the
    one-second sleep and the next poll. *)
Lemma wait_for_closure_busy report busy :
  Forall (some_alive report) busy →
  ∀ rest r,
    Daemon01.wait_for_closure (list_to_set (aff_ticket <$> affected report))
      (busy ++ rest) r
    = Daemon01.wait_for_closure (list_to_set (aff_ticket <$> affected report))
        rest (after r (waiting_polls (length busy))).
Proof.
  induction 1 as [|poll busy Hpoll _ IH]; intros rest r.
  - simpl. by rewrite after_nil.
  - destruct Hpoll as (a & snap2 & Ha & -> & Hin).
    assert (Hne : some_alive report (Some snap2)) by (exists a, snap2; done).
    apply some_alive_meets in Hne.
    simpl. rewrite bool_decide_eq_false_2 by done.
    rewrite IH, !act_after, !after_after. reflexivity.
Qed.

(** Revision 0.1: the affected entries only grow along the positions, and
    a guarded position whose close returned and whose arming returned is
    among them. *)
Lemma news01_positions_affected reader events_df window_min recent_s ps :
  ∀ report w, ∃ report' w',
    News01.enforce_positions reader events_df window_min recent_s ps report w
      = (Ok report', w') ∧
    (∀ a, a ∈ affected report → a ∈ affected report') ∧
    (∀ pos, pos ∈ ps →
       is_Some (matches_of reader events_df window_min recent_s pos) →
       autotrading_on_ok reader (ticket pos) = true →
       close_outcome reader (ticket pos) ≠ CloseRaises →
       (∀ u, arm_ok reader u = true) →
       ∃ a, a ∈ affected report' ∧ aff_ticket a = ticket pos).
Proof.
  induction ps as [|p ps IH]; intros report w.
  - exists report, w. split; [done|]. split; [done|].
    intros pos Hin. by apply elem_of_nil in Hin.
  - cbn [News01.enforce_positions]. unfold mbind, M_bind.
    rewrite news01_position_cases.
    destruct (matches_of reader events_df window_min recent_s p) as [[m ms]|] eqn:Hm.
    + cbv zeta.
      destruct (autotrading_on_ok reader (ticket p)) eqn:Hon.
      * destruct (close_outcome reader (ticket p)) eqn:Hout.
        -- destruct (arm_ok reader (max_ts m ms + minutes window_min)) eqn:Harm.
           ++ match goal with |- context [News01.enforce_positions _ _ _ _ _ ?r ?w0] =>
                destruct (IH r w0) as (report' & w' & -> & Hmono & Hpos) end.
              exists report', w'. split; [done|]. split.
              ** intros a Ha. apply Hmono. simpl. apply elem_of_app. by left.
              ** intros pos Hin Hg Ho Hc Ha.
                 apply elem_of_cons in Hin as [->|Hin]; [|by apply Hpos].
                 eexists. split; [apply Hmono; simpl; apply elem_of_app; right;
                                  apply list_elem_of_singleton; reflexivity|done].
           ++ match goal with |- context [News01.enforce_positions _ _ _ _ _ ?r ?w0] =>
                destruct (IH r w0) as (report' & w' & -> & Hmono & Hpos) end.
              exists report', w'. split; [done|]. split.
              ** intros a Ha. apply Hmono. by simpl.
              ** intros pos Hin Hg Ho Hc Ha.
                 apply elem_of_cons in Hin as [->|Hin]; [|by apply Hpos].
                 rewrite Ha in Harm. done.
        -- destruct (arm_ok reader (max_ts m ms + minutes window_min)) eqn:Harm.
           ++ match goal with |- context [News01.enforce_positions _ _ _ _ _ ?r ?w0] =>
                destruct (IH r w0) as (report' & w' & -> & Hmono & Hpos) end.
              exists report', w'. split; [done|]. split.
              ** intros a Ha. apply Hmono. simpl. apply elem_of_app. by left.
              ** intros pos Hin Hg Ho Hc Ha.
                 apply elem_of_cons in Hin as [->|Hin]; [|by apply Hpos].
                 eexists. split; [apply Hmono; simpl; apply elem_of_app; right;
                                  apply list_elem_of_singleton; reflexivity|done].
           ++ match goal with |- context [News01.enforce_positions _ _ _ _ _ ?r ?w0] =>
                destruct (IH r w0) as (report' & w' & -> & Hmono & Hpos) end.
              exists report', w'. split; [done|]. split.
              ** intros a Ha. apply Hmono. by simpl.
              ** intros pos Hin Hg Ho Hc Ha.
                 apply elem_of_cons in Hin as [->|Hin]; [|by apply Hpos].
                 rewrite Ha in Harm. done.
        -- match goal with |- context [News01.enforce_positions _ _ _ _ _ ?r ?w0] =>
             destruct (IH r w0) as (report' & w' & -> & Hmono & Hpos) end.
           exists report', w'. split; [done|]. split; [done|].
           intros pos Hin Hg Ho Hc Ha.
           apply elem_of_cons in Hin as [->|Hin]; [done|by apply Hpos].
      * match goal with |- context [News01.enforce_positions _ _ _ _ _ ?r ?w0] =>
          destruct (IH r w0) as (report' & w' & -> & Hmono & Hpos) end.
        exists report', w'. split; [done|]. split; [done|].
        intros pos Hin Hg Ho Hc Ha.
        apply elem_of_cons in Hin as [->|Hin]; [congruence|by apply Hpos].
    + destruct (IH report w) as (report' & w' & -> & Hmono & Hpos).
      exists report', w'. split; [done|]. split; [done|].
      intros pos Hin Hg Ho Hc Ha.
      apply elem_of_cons in Hin as [->|Hin]; [|by apply Hpos].
      rewrite Hm in Hg. by destruct Hg.
Qed.

Lemma after_enforce_waiting it report r :
  affected report ≠ [] →
  Forall (some_alive report) (polls it) →
  Daemon01.after_enforce it report r
    = (Waiting, after r (waiting_polls (length (polls it)))).
Proof.
  intros Hne Hbusy. unfold Daemon01.after_enforce.
  destruct (affected report) as [|a0 l0] eqn:Haff; [done|]. rewrite <- Haff.
  rewrite <- (app_nil_r (polls it)) at 1.
  rewrite (wait_for_closure_busy report (polls it) Hbusy []). reflexivity.
Qed.

(** X19.  Revision 0.1, a close that is refused: when
    [ensure_autotrading_on] returns for a guarded position, its close
    returns [False], no [set_kill_until] of the call raises and the
    position stays open, the report lists it as affected and the wait for
    closure never ends.  However many polls are made, each shows the
    position, is followed by a one-second sleep, and nothing else is
    done: no second close request, no [ensure_autotrading_off], no
    notification. *)
Theorem refused_close_stalls_daemon reader events_df window_min recent_s w
    snap pos it r :
  snapshot reader = Some snap →
  pos ∈ positions snap →
  is_Some (matches_of reader events_df window_min
             (recent_or_default window_min recent_s) pos) →
  autotrading_on_ok reader (ticket pos) = true →
  close_outcome reader (ticket pos) = Refused →
  (∀ u, arm_ok reader u = true) →
  Forall (λ poll, ∃ snap2, poll = Some snap2 ∧ ticket pos ∈ ticket <$> positions snap2)
         (polls it) →
  ∃ report w',
    News01.enforce_news_window reader events_df window_min recent_s w
      = (Ok report, w') ∧
    (∃ a, a ∈ affected report ∧ aff_ticket a = ticket pos) ∧
    Daemon01.after_enforce it report r
      = (Waiting, after r (waiting_polls (length (polls it)))).
Proof.
  intros Hsnap Hin Hg Hon Hout Harm Hpolls.
  unfold News01.enforce_news_window, read_snapshot. rewrite Hsnap.
  unfold mbind, M_bind, mret, M_ret, try_except. 
  destruct (news01_positions_affected reader events_df window_min
              (recent_or_default window_min recent_s) (positions snap) empty_report w)
    as (report & w' & Hrun & _ & Hpos).
  cbv zeta. rewrite Hrun.
  exists report, w'. split; [done|].
  destruct (Hpos pos Hin Hg Hon) as (a & Ha & Hat); [by rewrite Hout|done|].
  split; [by exists a|].
  apply after_enforce_waiting.
  - intros Hnil. rewrite Hnil in Ha. by apply elem_of_nil in Ha.
  - eapply Forall_impl; [exact Hpolls|].
    intros poll (snap2 & -> & Hp). exists a, snap2. rewrite Hat. done.
Qed.

(** X20.  Revision 0.1, the wait for closure ends at the first poll that
    shows no affected position: the polls before it are each followed by
    a one-second sleep, then AutoTrading is switched off and the
    notification is sent, in this order; a notification that raises makes
    the body raise. *)
Theorem wait_ends_at_first_clear_poll it report r busy snap2 rest :
  affected report ≠ [] →
  polls it = busy ++ Some snap2 :: rest →
  Forall (some_alive report) busy →
  all_gone report snap2 →
  autotrading_off_ok it = true →
  Daemon01.after_enforce it report r
    = (if notify_ok (reader it) then Completed else Raised,
       after r (waiting_polls (length busy)
                  ++ [Poll; AutotradingOff; Call EvNotifyNews])).
Proof.
  intros Hne Hpolls Hbusy Hgone Hoff. unfold Daemon01.after_enforce.
  destruct (affected report) as [|a0 l0] eqn:Haff; [done|]. rewrite <- Haff.
  rewrite Hpolls, (wait_for_closure_busy report busy Hbusy).
  apply all_gone_meets in Hgone.
  cbn [Daemon01.wait_for_closure]. rewrite bool_decide_eq_true_2 by done.
  rewrite Hoff. unfold call, notify_news. run_M.
  destruct (notify_ok (reader it)); simpl; unfold after; simpl;
    by rewrite <- !app_assoc.
Qed.

Lemma wait_for_closure_safe report polls0 :
  ∀ r, ∃ acts,
    (Daemon01.wait_for_closure (list_to_set (aff_ticket <$> affected report)) polls0 r).2
      = after r acts ∧
    (∀ a, a ∈ acts → a = Poll ∨ a = Sleep 1) ∧
    ((Daemon01.wait_for_closure (list_to_set (aff_ticket <$> affected report)) polls0 r).1
       = Completed →
     ∃ snap2, Some snap2 ∈ polls0 ∧ all_gone report snap2).
Proof.
  induction polls0 as [|poll rest IH]; intros r.
  - exists []. simpl. rewrite after_nil. split; [done|]. split; [|done].
    intros a Ha. by apply elem_of_nil in Ha.
  - cbn [Daemon01.wait_for_closure]. destruct poll as [snap2|].
    + case_bool_decide as Hmeet.
      * exists [Poll]. simpl. split; [done|]. split.
        -- intros a Ha. apply list_elem_of_singleton in Ha. by left.
        -- intros _. exists snap2. split; [by left|]. by apply all_gone_meets.
      * destruct (IH (act (Sleep 1) (act Poll r))) as (acts & Heq & Honly & Hdone).
        rewrite !act_after, !after_after in Heq, Hdone.
        rewrite !act_after, !after_after.
        exists ([Poll; Sleep 1] ++ acts). rewrite Heq, after_after.
        split; [done|]. split.
        -- intros a Ha. apply elem_of_app in Ha as [Ha|Ha]; [|by apply Honly].
           apply elem_of_cons in Ha as [->|Ha]; [by left|].
           apply list_elem_of_singleton in Ha. by right.
        -- intros Hc. destruct (Hdone Hc) as (s & Hs & Hg). exists s.
           split; [by right|done].
    + exists [Poll]. simpl. split; [done|]. split; [|done].
      intros a Ha. apply list_elem_of_singleton in Ha. by left.
Qed.

(** What follows the enforcer in revision 0.1: the polls and their
    sleeps, then at most [ensure_autotrading_off] and the notification. *)
Lemma after_enforce_actions it report r :
  ∃ acts,
    (Daemon01.after_enforce it report r).2 = after r acts ∧
    (AutotradingOff ∈ acts →
       affected report ≠ [] ∧
       ∃ snap2, Some snap2 ∈ polls it ∧ all_gone report snap2) ∧
    (Call EvNotifyNews ∈ acts →
       AutotradingOff ∈ acts ∧ autotrading_off_ok it = true) ∧
    (∀ a, a ∈ acts →
       a = Poll ∨ a = Sleep 1 ∨ a = AutotradingOff ∨ a = Call EvNotifyNews).
Proof.
  unfold Daemon01.after_enforce.
  destruct (affected report) as [|a0 l0] eqn:Haff.
  { exists []. rewrite after_nil. split; [done|].
    split; [intros H; by apply elem_of_nil in H|].
    split; [intros H; by apply elem_of_nil in H|].
    intros a H. by apply elem_of_nil in H. }
  rewrite <- Haff.
  destruct (wait_for_closure_safe report (polls it) r) as (acts & Heq & Honly & Hdone).
  assert (Hno : ∀ a, a ∈ acts → a ≠ AutotradingOff ∧ a ≠ Call EvNotifyNews).
  { intros a Ha. destruct (Honly a Ha) as [->| ->]; done. }
  assert (Hkind : ∀ a, a ∈ acts →
            a = Poll ∨ a = Sleep 1 ∨ a = AutotradingOff ∨ a = Call EvNotifyNews).
  { intros a Ha. destruct (Honly a Ha) as [->| ->]; tauto. }
  destruct (Daemon01.wait_for_closure _ (polls it) r) as [b r1] eqn:Hw.
  simpl in Heq, Hdone. subst r1.
  destruct b.
  - specialize (Hdone eq_refl).
    destruct (autotrading_off_ok it) eqn:Hoff.
    + unfold call, notify_news. run_M.
      exists (acts ++ [AutotradingOff; Call EvNotifyNews]).
      split.
      { destruct (notify_ok (reader it)); simpl; unfold after; simpl;
          by rewrite <- !app_assoc. }
      split.
      { intros _. split; [by rewrite Haff|done]. }
      split.
      { intros _. split; [|done]. apply elem_of_app. right. by left. }
      intros a Ha. apply elem_of_app in Ha as [Ha|Ha]; [by apply Hkind|].
      apply elem_of_cons in Ha as [->|Ha]; [tauto|].
      apply list_elem_of_singleton in Ha. subst a. tauto.
    + exists (acts ++ [AutotradingOff]). simpl. rewrite act_after, after_after.
      split; [done|].
      split.
      { intros _. split; [by rewrite Haff|done]. }
      split.
      { intros Hn. apply elem_of_app in Hn as [Hn|Hn].
        - by apply Hno in Hn as (_ & ?).
        - apply list_elem_of_singleton in Hn. done. }
      intros a Ha. apply elem_of_app in Ha as [Ha|Ha]; [by apply Hkind|].
      apply list_elem_of_singleton in Ha. subst a. tauto.
  - exists acts. simpl. split; [done|].
    split; [intros H; by apply Hno in H as (? & _)|].
    split; [intros H; by apply Hno in H as (_ & ?)|].
    done.
  - exists acts. simpl. split; [done|].
    split; [intros H; by apply Hno in H as (? & _)|].
    split; [intros H; by apply Hno in H as (_ & ?)|].
    done.
Qed.

(** X21.  Revision 0.1 switches AutoTrading off only after the closure was
    seen: whatever the polls return, [ensure_autotrading_off] is called
    only when the report has affected positions and one of the polls
    returned a snapshot with none of them; the notification is sent only
    after that call returned; and what follows the enforcer asks for no
    close. *)
Theorem autotrading_off_only_after_closure it report r :
  ∃ acts,
    (Daemon01.after_enforce it report r).2 = after r acts ∧
    (AutotradingOff ∈ acts →
       affected report ≠ [] ∧
       ∃ snap2, Some snap2 ∈ polls it ∧ all_gone report snap2) ∧
    (Call EvNotifyNews ∈ acts →
       AutotradingOff ∈ acts ∧ autotrading_off_ok it = true) ∧
    (∀ a, a ∈ acts → is_close_action a = false).
Proof.
  destruct (after_enforce_actions it report r) as (acts & Heq & Hoff & Hnot & Hkind).
  exists acts. split; [done|]. split; [done|]. split; [done|].
  intros a Ha. by destruct (Hkind a Ha) as [->|[->|[->| ->]]].
Qed.

Lemma update_state_after r acts :
  updater_days acts = [] → update_state (after r acts) = update_state r.
Proof.
  intros H. unfold update_state, after, updater_days in *. simpl.
  by rewrite omap_app, H, app_nil_r.
Qed.

Lemma update_state_act r a :
  (∀ d, a ≠ Updater d) → update_state (act a r) = update_state r.
Proof.
  intros H. rewrite act_after. apply update_state_after.
  destruct a; try done. by destruct (H today0).
Qed.

Lemma update_state_reengage it r : update_state (reengage it r) = update_state r.
Proof.
  unfold reengage, update_state, updater_days.
  destruct (kill_until_set it), (reenabled it); simpl;
    by rewrite ?omap_app, ?app_nil_r.
Qed.

Lemma update_state_reload c it r :
  update_state (reload_calendar c it r) = update_state r.
Proof.
  unfold reload_calendar. destruct (negb _); [|done].
  unfold update_state. simpl. unfold updater_days.
  by rewrite omap_app, app_nil_r.
Qed.

Lemma update_state_call {A} (m : M A) r :
  update_state (call m r).2 = update_state r.
Proof.
  unfold call. destruct (m _) as [res w]. unfold update_state. simpl.
  unfold updater_days. rewrite omap_app.
  assert (H : omap (λ a, match a with Updater d => Some d | _ => None end)
                   (Call <$> trace w) = []).
  { induction (trace w) as [|e l IH]; [done|]. simpl. exact IH. }
  by rewrite H, app_nil_r.
Qed.

Lemma update_state_finish poll_s b r :
  update_state (finish poll_s b r).2 = update_state r.
Proof. destruct b; simpl; by rewrite ?update_state_act. Qed.

Lemma update_state_after_enforce it report r :
  update_state (Daemon01.after_enforce it report r).2 = update_state r.
Proof.
  destruct (after_enforce_actions it report r) as (acts & -> & _ & _ & Hkind).
  apply update_state_after.
  induction acts as [|a acts IH]; [done|].
  unfold updater_days in *.
  destruct (Hkind a ltac:(left)) as [->|[->|[->| ->]]]; simpl;
    apply IH; intros a' Ha'; apply Hkind; by right.
Qed.

Lemma update_state_enforce01 c wm rs it r :
  update_state (Daemon01.reload_and_enforce c wm rs it r).2 = update_state r.
Proof.
  unfold Daemon01.reload_and_enforce. cbv zeta.
  destruct (events_df (vars (reload_calendar c it r))) as [df|].
  - destruct (call _ (reload_calendar c it r)) as [[report|e] r2] eqn:Hcall.
    + rewrite update_state_after_enforce.
      change r2 with (Ok report, r2).2. rewrite <- Hcall, update_state_call.
      apply update_state_reload.
    + change (update_state r2 = update_state r).
      change r2 with (@Raise Report e, r2).2. rewrite <- Hcall, update_state_call.
      apply update_state_reload.
  - apply update_state_reload.
Qed.

Lemma update_state_enforce02 c wm rs it r :
  update_state (Daemon02.reload_and_enforce c wm rs it r).2 = update_state r.
Proof.
  unfold Daemon02.reload_and_enforce. cbv zeta.
  destruct (events_df (vars (reload_calendar c it r))) as [df|].
  - destruct (call _ (reload_calendar c it r)) as [[report|e] r2] eqn:Hcall.
    + change (update_state r2 = update_state r).
      change r2 with (Ok report, r2).2. rewrite <- Hcall, update_state_call.
      apply update_state_reload.
    + change (update_state r2 = update_state r).
      change r2 with (@Raise Report e, r2).2. rewrite <- Hcall, update_state_call.
      apply update_state_reload.
  - apply update_state_reload.
Qed.

(** What the body of either revision does to the day mark and to the runs
    of the updater. *)
Lemma try_body_update_state c wm rs it r :
  let step :=
    if update_due it (vars r) && updater_exists it
    then (if updater_returns it then Some (today it)
          else LAST_CALENDAR_UPDATE_DAY (vars r),
          updater_days (actions r) ++ [today it])
    else update_state r in
  update_state (Daemon01.try_body c wm rs it r).2 = step ∧
  update_state (Daemon02.try_body c wm rs it r).2 = step.
Proof.
  unfold Daemon01.try_body, Daemon02.try_body,
    Daemon01.auto_update_calendar, Daemon02.auto_update_calendar.
  assert (Hup : ∀ r0, update_state (act (Updater (today it)) r0)
                = (LAST_CALENDAR_UPDATE_DAY (vars r0),
                   updater_days (actions r0) ++ [today it])).
  { intros r0. unfold update_state, updater_days. simpl. by rewrite omap_app. }
  assert (Hmark : ∀ r0, update_state (mark_updated it (act (Updater (today it)) r0))
                = (Some (today it), updater_days (actions r0) ++ [today it])).
  { intros r0. unfold update_state, updater_days. simpl. by rewrite omap_app. }
  destruct (update_due it (vars r)); simpl;
    [destruct (updater_exists it); simpl;
       [destruct (updater_returns it); simpl|]|];
    rewrite ?update_state_enforce01, ?update_state_enforce02, ?Hup, ?Hmark; done.
Qed.

Lemma marked_runs_later bound t st :
  marked_runs bound st → bound <= t → marked_runs t st.
Proof.
  intros (Hnd & Hall & Hlast) Hle. split; [done|]. split.
  - intros d Hd. destruct (Hall d Hd). split; [done|lia].
  - intros Ht. destruct (Hall t Ht) as [_ Hb].
    assert (t = bound) as -> by lia. by apply Hlast.
Qed.

Lemma marked_runs_run bound t last days :
  marked_runs bound (last, days) → bound <= t →
  weekday t = 6 → last ≠ Some t →
  marked_runs t (Some t, days ++ [t]).
Proof.
  intros (Hnd & Hall & Hlast) Hle Hsun Hne. simpl in *.
  assert (Hnew : t ∉ days).
  { intros Ht. destruct (Hall t Ht) as [_ Hb].
    assert (t = bound) as -> by lia. by apply Hlast in Ht. }
  split; [|split]; simpl.
  - apply NoDup_app. split; [done|]. split; [|apply NoDup_singleton].
    intros d Hd Hd'. apply list_elem_of_singleton in Hd'. by subst d.
  - intros d Hd. apply elem_of_app in Hd as [Hd|Hd].
    + destruct (Hall d Hd). split; [done|lia].
    + apply list_elem_of_singleton in Hd. subst d. split; [done|lia].
  - done.
Qed.

Lemma try_body_marked c wm rs it r bound :
  marked_runs bound (update_state r) → bound <= today it →
  updater_returns it = true →
  marked_runs (today it) (update_state (Daemon01.try_body c wm rs it r).2) ∧
  marked_runs (today it) (update_state (Daemon02.try_body c wm rs it r).2).
Proof.
  intros Hinv Hle Hret.
  destruct (try_body_update_state c wm rs it r) as [-> ->]. rewrite Hret.
  assert (marked_runs (today it)
            (if update_due it (vars r) && updater_exists it
             then (Some (today it), updater_days (actions r) ++ [today it])
             else update_state r)); [|done].
  destruct (update_due it (vars r)) eqn:Hdue; simpl;
    [destruct (updater_exists it); simpl|];
    try (by eapply marked_runs_later).
  unfold update_due in Hdue. apply andb_prop in Hdue as [Hsun Hne].
  apply bool_decide_eq_true in Hsun. apply negb_true_iff in Hne.
  apply bool_decide_eq_false in Hne.
  eapply marked_runs_run; eauto.
Qed.

Lemma iteration_marked poll_s c wm rs it r bound :
  marked_runs bound (update_state r) → bound <= today it →
  updater_returns it = true →
  marked_runs (today it) (update_state (Daemon01.iteration poll_s c wm rs it r).2) ∧
  marked_runs (today it) (update_state (Daemon02.iteration poll_s c wm rs it r).2).
Proof.
  intros Hinv Hle Hret.
  unfold Daemon01.iteration, Daemon02.iteration. cbv zeta.
  rewrite <- (update_state_reengage it r) in Hinv.
  destruct (antiflood it (vars (reengage it r))).
  - simpl. rewrite update_state_act by done. split; by eapply marked_runs_later.
  - destruct (try_body_marked c wm rs it (reengage it r) bound Hinv Hle Hret)
      as [H1 H2].
    destruct (Daemon01.try_body c wm rs it (reengage it r)) as [b1 r1].
    destruct (Daemon02.try_body c wm rs it (reengage it r)) as [b2 r2].
    by rewrite !update_state_finish.
Qed.

Lemma run_daemon_marked poll_s c wm rs its :
  ∀ r bound,
    marked_runs bound (update_state r) →
    StronglySorted Z.le (bound :: (today <$> its)) →
    (∀ it, it ∈ its → updater_returns it = true) →
    (∃ b, marked_runs b (update_state (Daemon01.run_daemon poll_s c wm rs its r).2)) ∧
    (∃ b, marked_runs b (update_state (Daemon02.run_daemon poll_s c wm rs its r).2)).
Proof.
  induction its as [|it its IH]; intros r bound Hinv Hsorted Hret.
  - simpl. split; by exists bound.
  - rewrite fmap_cons in Hsorted.
    apply StronglySorted_inv in Hsorted as [Hrest Hall].
    apply Forall_cons in Hall as [Hle Hall].
    apply StronglySorted_inv in Hrest as [Hrest Hall'].
    assert (Hsorted' : StronglySorted Z.le (today it :: (today <$> its))).
    { by constructor. }
    destruct (iteration_marked poll_s c wm rs it r bound Hinv Hle
                (Hret it ltac:(left))) as [H1 H2].
    assert (Hret' : ∀ it', it' ∈ its → updater_returns it' = true).
    { intros it' Hin. apply Hret. by right. }
    cbn [Daemon01.run_daemon Daemon02.run_daemon]. split.
    + destruct (Daemon01.iteration poll_s c wm rs it r) as [[] r1].
      * by destruct (IH r1 (today it) H1 Hsorted' Hret') as [? _].
      * by exists (today it).
    + destruct (Daemon02.iteration poll_s c wm rs it r) as [[] r2].
      * by destruct (IH r2 (today it) H2 Hsorted' Hret') as [_ ?].
      * by exists (today it).
Qed.

(** X22.  The calendar updater runs on Sundays only and once a day: in a
    run of the daemon of either revision whose iterations are in
    chronological order and in which [subprocess.run] returns, the days
    on which [update_news.py] was started are Sundays, each day at most
    once. *)
Theorem updater_runs_once_per_sunday poll_s cal_refresh_min window_min recent_s its r :
  Sorted Z.le (today <$> its) →
  (∀ it, it ∈ its → updater_returns it = true) →
  updater_days (actions r) = [] →
  (NoDup (updater_days (actions (Daemon01.run_daemon poll_s cal_refresh_min
                                   window_min recent_s its r).2)) ∧
   ∀ d, d ∈ updater_days (actions (Daemon01.run_daemon poll_s cal_refresh_min
                                     window_min recent_s its r).2) →
        weekday d = 6) ∧
  (NoDup (updater_days (actions (Daemon02.run_daemon poll_s cal_refresh_min
                                   window_min recent_s its r).2)) ∧
   ∀ d, d ∈ updater_days (actions (Daemon02.run_daemon poll_s cal_refresh_min
                                     window_min recent_s its r).2) →
        weekday d = 6).
Proof.
  intros Hsorted Hret Hnone.
  apply Sorted_StronglySorted in Hsorted; [|intros x y z; apply Z.le_trans].
  destruct its as [|it0 its0] eqn:Hits.
  { simpl. rewrite Hnone. split; (split; [constructor|]);
      intros d Hd; by apply elem_of_nil in Hd. }
  rewrite <- Hits in *.
  assert (Hinv : marked_runs (today it0) (update_state r)).
  { unfold marked_runs, update_state. simpl. rewrite Hnone.
    split; [constructor|]. split; intros; by apply elem_of_nil in H. }
  assert (Hs : StronglySorted Z.le (today it0 :: (today <$> its))).
  { constructor; [done|]. rewrite Hits, fmap_cons in *.
    apply StronglySorted_inv in Hsorted as [_ Hall].
    constructor; [lia|done]. }
  destruct (run_daemon_marked poll_s cal_refresh_min window_min recent_s its r
              (today it0) Hinv Hs Hret) as [(b1 & Hn1 & Ha1 & _) (b2 & Hn2 & Ha2 & _)].
  simpl in *. split; (split; [done|]); intros d Hd.
  - by destruct (Ha1 d Hd).
  - by destruct (Ha2 d Hd).
Qed.

(** Revision 0.2 on a snapshot: the trace gains the close requests of the
    guarded positions, then what the arming and the notification add. *)
Lemma reload_calendar_vars c it r acts :
  vars (reload_calendar c it (after r acts)) = vars (reload_calendar c it r).
Proof. unfold reload_calendar. simpl. by destruct (negb _). Qed.

Lemma reload_calendar_actions c it r :
  ∃ acts, actions (reload_calendar c it r) = actions r ++ acts.
Proof.
  unfold reload_calendar. destruct (negb _).
  - by exists [LoadCalendar].
  - exists []. by rewrite app_nil_r.
Qed.

Lemma update_due_reengage it r :
  update_due it (vars (reengage it r)) = update_due it (vars r).
Proof. unfold reengage. by destruct (kill_until_set it), (reenabled it). Qed.

Lemma update_due_state it r r' :
  (update_state r').1 = (update_state r).1 →
  update_due it (vars r') = update_due it (vars r).
Proof. unfold update_due, update_state. simpl. by intros ->. Qed.

(** X23.  The updater that cannot be started.  On a Sunday on which
    [subprocess.run] raises, revision 0.1 leaves the body at once: the
    iteration starts the updater, sleeps two seconds and then [poll_s],
    and neither reloads the calendar nor calls the enforcer.  Revision
    0.2 catches the exception and goes on: every guarded position of the
    snapshot gets its close request in the same iteration.  In both the
    day is not marked, so the updater is due again at the next
    iteration. *)
Theorem failed_update_skips_enforcement poll_s cal_refresh_min window_min recent_s
    it r df snap :
  antiflood it (vars (reengage it r)) = false →
  update_due it (vars r) = true →
  updater_exists it = true →
  updater_returns it = false →
  events_df (vars (reload_calendar cal_refresh_min it (reengage it r))) = Some df →
  snapshot (reader it) = Some snap →
  Daemon01.iteration poll_s cal_refresh_min window_min recent_s it r
    = (NextIteration,
       after (reengage it r) [Updater (today it); Sleep 2; Sleep poll_s]) ∧
  (∃ acts,
     actions (Daemon02.iteration poll_s cal_refresh_min window_min recent_s it r).2
       = actions (reengage it r) ++ [Updater (today it)] ++ acts ∧
     ∀ pos, pos ∈ guarded_positions (reader it) df window_min
                    (recent_or_default window_min recent_s) (positions snap) →
            Call (news_position_close pos) ∈ acts) ∧
  update_due it
    (vars (Daemon01.iteration poll_s cal_refresh_min window_min recent_s it r).2)
    = true ∧
  update_due it
    (vars (Daemon02.iteration poll_s cal_refresh_min window_min recent_s it r).2)
    = true.
Proof.
  intros Hflood Hdue Hex Hret Hdf Hsnap.
  assert (Hdue0 : update_due it (vars (reengage it r)) = true)
    by (by rewrite update_due_reengage).
  assert (Hmarks :
    update_due it
      (vars (Daemon01.iteration poll_s cal_refresh_min window_min recent_s it r).2)
      = true ∧
    update_due it
      (vars (Daemon02.iteration poll_s cal_refresh_min window_min recent_s it r).2)
      = true).
  { unfold Daemon01.iteration, Daemon02.iteration. cbv zeta. rewrite Hflood.
    destruct (try_body_update_state cal_refresh_min window_min recent_s it
                (reengage it r)) as [H1 H2].
    rewrite Hdue0, Hex, Hret in H1, H2. simpl in H1, H2.
    destruct (Daemon01.try_body _ _ _ it (reengage it r)) as [b1 r1].
    destruct (Daemon02.try_body _ _ _ it (reengage it r)) as [b2 r2].
    split.
    - rewrite <- Hdue0. apply update_due_state.
      rewrite update_state_finish. simpl in H1. by rewrite H1.
    - rewrite <- Hdue0. apply update_due_state.
      rewrite update_state_finish. simpl in H2. by rewrite H2. }
  split; [|split; [|exact Hmarks]].
  { unfold Daemon01.iteration. cbv zeta. rewrite Hflood.
    unfold Daemon01.try_body, Daemon01.auto_update_calendar.
    rewrite Hdue0, Hex, Hret. simpl. rewrite !act_after, !after_after. reflexivity. }
  unfold Daemon02.iteration. cbv zeta. rewrite Hflood.
  unfold Daemon02.try_body, Daemon02.auto_update_calendar.
  rewrite Hdue0, Hex, Hret.
  set (r0 := reengage it r) in *.
  unfold Daemon02.reload_and_enforce. cbv zeta.
  rewrite act_after, reload_calendar_vars, Hdf.
  destruct (reload_calendar_actions cal_refresh_min it (after r0 [Updater (today it)]))
    as (lacts & Hla).
  set (r1 := reload_calendar cal_refresh_min it (after r0 [Updater (today it)])) in *.
  destruct (news02_window_trace (reader it) df window_min recent_s
              {| state_file := limits_file r1; trace := [] |} snap Hsnap)
    as (tail & Htr).
  unfold call.
  destruct (News02.enforce_news_window (reader it) df window_min recent_s
              {| state_file := limits_file r1; trace := [] |}) as [res w1].
  simpl in Htr.
  assert (Hin : ∀ pos more,
            pos ∈ guarded_positions (reader it) df window_min
                    (recent_or_default window_min recent_s) (positions snap) →
            Call (news_position_close pos) ∈ lacts ++ (Call <$> trace w1) ++ more).
  { intros pos more Hpos. apply elem_of_app. right. apply elem_of_app. left.
    apply list_elem_of_fmap. exists (news_position_close pos). split; [done|].
    rewrite Htr. apply elem_of_app. left.
    apply list_elem_of_fmap. eauto. }
  destruct res as [report|e]; simpl; rewrite Hla; simpl.
  - exists (lacts ++ (Call <$> trace w1) ++ [Sleep poll_s]).
    split; [by rewrite <- !app_assoc|]. intros pos. apply Hin.
  - exists (lacts ++ (Call <$> trace w1) ++ [Sleep 2; Sleep poll_s]).
    split; [by rewrite <- !app_assoc|]. intros pos. apply Hin.
Qed.

(** X24.  The anti-flood pause.  For as long as the clock reads less than
    three seconds after the last re-enabling of AutoTrading, and no new
    re-enabling happens, an iteration of either revision only asks the
    kill switch and sleeps one second: the calendar is neither updated
    nor reloaded and the enforcer is not called, so nothing is closed. *)
Theorem antiflood_pauses_enforcement poll_s cal_refresh_min window_min recent_s its r :
  ¬ (LAST_AUTOTRADE_REENABLE (vars r) == 0)%Q →
  (∀ it, it ∈ its →
     kill_until_set it && reenabled it = false ∧
     (clock_antiflood it - LAST_AUTOTRADE_REENABLE (vars r) < 3)%Q) →
  Daemon01.run_daemon poll_s cal_refresh_min window_min recent_s its r
    = (NextIteration, after r (antiflood_actions its)) ∧
  Daemon02.run_daemon poll_s cal_refresh_min window_min recent_s its r
    = (NextIteration, after r (antiflood_actions its)).
Proof.
  revert r. induction its as [|it its IH]; intros r Hset Hits.
  - simpl. by rewrite after_nil.
  - destruct (Hits it ltac:(left)) as [Hno Hlt].
    assert (Hre : reengage it r
                  = after r (if kill_until_set it then [MaybeReenable] else [])).
    { unfold reengage. destruct (kill_until_set it); simpl in *.
      - by rewrite Hno.
      - by rewrite after_nil. }
    assert (Hflood : antiflood it (vars (reengage it r)) = true).
    { rewrite Hre. simpl. unfold antiflood. apply andb_true_intro. split.
      - apply negb_true_iff. apply not_true_is_false. intros H.
        by apply Qeq_bool_iff in H.
      - apply negb_true_iff. apply not_true_is_false. intros H.
        apply Qle_bool_iff in H. by apply Qle_not_lt in H. }
    cbn [Daemon01.run_daemon Daemon02.run_daemon].
    unfold Daemon01.iteration, Daemon02.iteration. cbv zeta. rewrite Hflood.
    rewrite Hre, act_after, after_after.
    destruct (IH (after r ((if kill_until_set it then [MaybeReenable] else [])
                             ++ [Sleep 1]))) as [IH1 IH2].
    + done.
    + intros it' Hin. apply Hits. by right.
    + rewrite IH1, IH2, after_after. unfold antiflood_actions. by rewrite fmap_cons.
Qed.

Lemma refused_close_stalls_daemon_witness :
  ∃ report w',
    News01.enforce_news_window burst_refused burst_calendar 60 None fresh_world
      = (Ok report, w') ∧
    (∃ a, a ∈ affected report ∧ aff_ticket a = 1) ∧
    Daemon01.after_enforce
      (iter_on 3 1000 true (Some burst_calendar) burst_refused
         [Some usdjpy_open; Some usdjpy_open; Some usdjpy_open])
      report fresh_run
    = (Waiting,
       after fresh_run [Poll; Sleep 1; Poll; Sleep 1; Poll; Sleep 1]).
Proof.
  apply (refused_close_stalls_daemon burst_refused burst_calendar 60 None fresh_world
           (snapshot_of 1%Q
              [position_of 1 "USDJPY" (Some (burst_time - seconds 10));
               position_of 2 "EURGBP" (Some (burst_time - seconds 20))])
           usdjpy
           (iter_on 3 1000 true (Some burst_calendar) burst_refused
              [Some usdjpy_open; Some usdjpy_open; Some usdjpy_open])
           fresh_run).
  - reflexivity.
  - left.
  - vm_compute. eauto.
  - reflexivity.
  - reflexivity.
  - intros u. reflexivity.
  - repeat constructor; exists usdjpy_open; (split; [reflexivity|left]).
Defined.

Lemma wait_ends_at_first_clear_poll_witness :
  Daemon01.after_enforce
    (iter_on 3 1000 true None burst
       [Some usdjpy_open; Some usdjpy_open; Some (snapshot_of 1%Q []); Some usdjpy_open])
    usdjpy_report fresh_run
  = (Completed,
     after fresh_run
       [Poll; Sleep 1; Poll; Sleep 1; Poll; AutotradingOff; Call EvNotifyNews]).
Proof.
  apply (wait_ends_at_first_clear_poll
           (iter_on 3 1000 true None burst
              [Some usdjpy_open; Some usdjpy_open; Some (snapshot_of 1%Q []);
               Some usdjpy_open])
           usdjpy_report fresh_run
           [Some usdjpy_open; Some usdjpy_open] (snapshot_of 1%Q [])
           [Some usdjpy_open]).
  - discriminate.
  - reflexivity.
  - repeat constructor;
      exists {| aff_ticket := 1; aff_symbol := "USDJPY"; aff_matches := [] |},
             usdjpy_open;
      (split; [left|split; [reflexivity|left]]).
  - intros a _ Hin. by apply elem_of_nil in Hin.
  - reflexivity.
Defined.

Lemma updater_runs_once_per_sunday_witness :
  (NoDup (updater_days (actions (Daemon01.run_daemon 3 10 60 None
            [iter_on 3 1000 true None burst []; iter_on 3 1003 true None burst [];
             iter_on 4 90000 true None burst []; iter_on 10 600000 true None burst []]
            fresh_run).2)) ∧
   ∀ d, d ∈ updater_days (actions (Daemon01.run_daemon 3 10 60 None
            [iter_on 3 1000 true None burst []; iter_on 3 1003 true None burst [];
             iter_on 4 90000 true None burst []; iter_on 10 600000 true None burst []]
            fresh_run).2) → weekday d = 6) ∧
  (NoDup (updater_days (actions (Daemon02.run_daemon 3 10 60 None
            [iter_on 3 1000 true None burst []; iter_on 3 1003 true None burst [];
             iter_on 4 90000 true None burst []; iter_on 10 600000 true None burst []]
            fresh_run).2)) ∧
   ∀ d, d ∈ updater_days (actions (Daemon02.run_daemon 3 10 60 None
            [iter_on 3 1000 true None burst []; iter_on 3 1003 true None burst [];
             iter_on 4 90000 true None burst []; iter_on 10 600000 true None burst []]
            fresh_run).2) → weekday d = 6).
Proof.
  apply (updater_runs_once_per_sunday 3 10 60 None
           [iter_on 3 1000 true None burst []; iter_on 3 1003 true None burst [];
            iter_on 4 90000 true None burst []; iter_on 10 600000 true None burst []]
           fresh_run).
  - simpl. repeat constructor; lia.
  - intros it Hin. repeat (apply elem_of_cons in Hin as [->|Hin]; [reflexivity|]).
    by apply elem_of_nil in Hin.
  - reflexivity.
Defined.

Lemma failed_update_skips_enforcement_witness :
  Daemon01.iteration 3 10 60 None
    (iter_on 3 1000 false (Some burst_calendar) burst []) fresh_run
    = (NextIteration, after fresh_run [Updater 3; Sleep 2; Sleep 3]) ∧
  (∃ acts,
     actions (Daemon02.iteration 3 10 60 None
                (iter_on 3 1000 false (Some burst_calendar) burst []) fresh_run).2
       = [] ++ [Updater 3] ++ acts ∧
     ∀ pos, pos ∈ guarded_positions burst burst_calendar 60 3600
                    [position_of 1 "USDJPY" (Some (burst_time - seconds 10));
                     position_of 2 "EURGBP" (Some (burst_time - seconds 20))] →
            Call (news_position_close pos) ∈ acts) ∧
  update_due (iter_on 3 1000 false (Some burst_calendar) burst [])
    (vars (Daemon01.iteration 3 10 60 None
             (iter_on 3 1000 false (Some burst_calendar) burst []) fresh_run).2)
    = true ∧
  update_due (iter_on 3 1000 false (Some burst_calendar) burst [])
    (vars (Daemon02.iteration 3 10 60 None
             (iter_on 3 1000 false (Some burst_calendar) burst []) fresh_run).2)
    = true.
Proof.
  apply (failed_update_skips_enforcement 3 10 60 None
           (iter_on 3 1000 false (Some burst_calendar) burst []) fresh_run
           burst_calendar
           (snapshot_of 1%Q
              [position_of 1 "USDJPY" (Some (burst_time - seconds 10));
               position_of 2 "EURGBP" (Some (burst_time - seconds 20))]));
    reflexivity.
Defined.

Lemma antiflood_pauses_enforcement_witness :
  Daemon01.run_daemon 3 10 60 None
    [iter_on 3 1001 true (Some burst_calendar) burst [];
     iter_on 3 1002 true (Some burst_calendar) burst []] (reenabled_at 1000)
    = (NextIteration, after (reenabled_at 1000) [Sleep 1; Sleep 1]) ∧
  Daemon02.run_daemon 3 10 60 None
    [iter_on 3 1001 true (Some burst_calendar) burst [];
     iter_on 3 1002 true (Some burst_calendar) burst []] (reenabled_at 1000)
    = (NextIteration, after (reenabled_at 1000) [Sleep 1; Sleep 1]).
Proof.
  apply (antiflood_pauses_enforcement 3 10 60 None
           [iter_on 3 1001 true (Some burst_calendar) burst [];
            iter_on 3 1002 true (Some burst_calendar) burst []] (reenabled_at 1000)).
  - simpl. intros H. discriminate H.
  - intros it Hin.
    repeat (apply elem_of_cons in Hin as [->|Hin]; [split; reflexivity|]).
    by apply elem_of_nil in Hin.
Defined.

(** ** The updater *)

Import Update.


(** The four checks [main] makes before it changes anything: all passed,
    or the run has no command that changes files. *)
Lemma main_prechecks (e : Env) :
  ((∃ out, answered e ["git"; "--version"] out) ∧
   answered e ["git"; "status"; "--porcelain"] EmptyString ∧
   answered e ["git"; "rev-parse"; "--is-inside-work-tree"] "true" ∧
   (∃ out, answered e ["git"; "fetch"; "--tags"; "--prune"] out)) ∨
  Forall (λ a, changes_tree a = false) (main e []).2.
Proof.
  run_U.
  destruct (run e ["git"; "--version"]) as [r1|] eqn:H1;
    [|right; simpl; by repeat constructor].
  simpl. destruct (failed r1) eqn:F1; [right; simpl; by repeat constructor|].
  simpl. destruct (run e ["git"; "status"; "--porcelain"]) as [r2|] eqn:H2;
    [|right; simpl; by repeat constructor].
  simpl. destruct (failed r2) eqn:F2; [right; simpl; by repeat constructor|].
  simpl. destruct (truthy (strip (stdout r2))) eqn:T2;
    [right; simpl; by repeat constructor|].
  simpl. destruct (run e ["git"; "rev-parse"; "--is-inside-work-tree"]) as [r3|] eqn:H3;
    [|right; simpl; by repeat constructor].
  simpl. destruct (failed r3 || negb (String.eqb (strip (stdout r3)) "true")) eqn:F3;
    [right; simpl; by repeat constructor|].
  simpl. destruct (run e ["git"; "fetch"; "--tags"; "--prune"]) as [r4|] eqn:H4;
    [|right; simpl; by repeat constructor].
  simpl. destruct (failed r4) eqn:F4; [right; simpl; by repeat constructor|].
  left. facts_U. split; [answered_U|split; [answered_U|split; answered_U]].
Qed.

(** X26.  The updater changes files only in a clean repository: whatever
    the commands answer, [git checkout], [git pull] and [pip install]
    are run only after [git --version] succeeded, [git status
    --porcelain] succeeded with no output, [git rev-parse
    --is-inside-work-tree] answered [true] and [git fetch] succeeded. *)
Theorem tree_changed_only_when_clean (e : Env) (a : Action) :
  a ∈ (main e []).2 →
  changes_tree a = true →
  (∃ out, answered e ["git"; "--version"] out) ∧
  answered e ["git"; "status"; "--porcelain"] EmptyString ∧
  answered e ["git"; "rev-parse"; "--is-inside-work-tree"] "true" ∧
  (∃ out, answered e ["git"; "fetch"; "--tags"; "--prune"] out).
Proof.
  intros Hin Hc. destruct (main_prechecks e) as [H|H]; [exact H|].
  rewrite Forall_forall in H. apply H in Hin. congruence.
Qed.

Lemma tree_changed_only_when_clean_witness :
  (∃ out, answered (healthy "v1.1.0") ["git"; "--version"] out) ∧
  answered (healthy "v1.1.0") ["git"; "status"; "--porcelain"] EmptyString ∧
  answered (healthy "v1.1.0") ["git"; "rev-parse"; "--is-inside-work-tree"] "true" ∧
  (∃ out, answered (healthy "v1.1.0") ["git"; "fetch"; "--tags"; "--prune"] out).
Proof.
  apply (tree_changed_only_when_clean (healthy "v1.1.0")
           (Run ["git"; "checkout"; "-B"; "release"; "v1.1.0"])).
  - apply (bool_decide_unpack _). vm_compute. exact I.
  - reflexivity.
Defined.



Lemma linebreak_is_space c : is_linebreak c = true → is_space c = true.
Proof. destruct c as [[] [] [] [] [] [] [] []]; by vm_compute. Qed.

Lemma lstrip_no_space s : no_space s = true → lstrip s = s.
Proof.
  destruct s as [|c s]; [done|]. simpl. intros H.
  apply andb_prop in H as [Hc _]. apply negb_true_iff in Hc. by rewrite Hc.
Qed.

Lemma rstrip_no_space s : no_space s = true → rstrip s = s.
Proof.
  induction s as [|c s IH]; [done|]. simpl. intros H.
  apply andb_prop in H as [Hc Hs]. apply negb_true_iff in Hc.
  rewrite (IH Hs), Hc. by destruct s.
Qed.

Lemma strip_no_space s : no_space s = true → strip s = s.
Proof.
  intros H. unfold strip. rewrite (lstrip_no_space s H). by apply rstrip_no_space.
Qed.

Lemma append_snoc line c s :
  (line +:+ String c EmptyString) +:+ s = line +:+ String c s.
Proof.
  induction line as [|c' line IH]; [done|].
  change (String c' ((line +:+ String c EmptyString) +:+ s)
          = String c' (line +:+ String c s)).
  by rewrite IH.
Qed.

(** A first line without white space is read whole, up to its line feed. *)
Lemma splitlines_first_line tag rest :
  no_space tag = true →
  ∀ line,
    splitlines_from line (tag +:+ line_feed +:+ rest)
    = (line +:+ tag) :: splitlines rest.
Proof.
  induction tag as [|c tag IH]; intros Htag line.
  - assert (line +:+ EmptyString = line) as ->.
    { induction line as [|c' l IHl]; [done|].
      change (String c' (l +:+ EmptyString) = String c' l). by rewrite IHl. }
    change (EmptyString +:+ line_feed +:+ rest) with (String "010" rest).
    by destruct rest.
  - simpl in Htag. apply andb_prop in Htag as [Hc Htag].
    apply negb_true_iff in Hc.
    assert (Hlb : is_linebreak c = false).
    { destruct (is_linebreak c) eqn:Hl; [|done].
      apply linebreak_is_space in Hl. congruence. }
    change (String c tag +:+ line_feed +:+ rest)
      with (String c (tag +:+ line_feed +:+ rest)).
    cbn [splitlines_from]. rewrite Hlb.
    rewrite (IH Htag). f_equal. apply append_snoc.
Qed.

(** X28.  The latest tag is the first line of what [git for-each-ref]
    prints: when the command succeeds and its output, a text of code
    points below 256, starts with a tag that holds no white space of
    Python (code points 9 to 13, 28 to 32, 133 and 160) and ends at a
    line feed, [_latest_tag] returns that tag, whatever follows. *)
Theorem latest_tag_is_first_line (e : Env) (t : list Action)
    (result : CompletedProcess) (tag rest : string) :
  run e ["git"; "for-each-ref"; "--sort=-creatordate";
         "--format=%(refname:short)"; "refs/tags"] = Some result →
  failed result = false →
  stdout result = tag +:+ line_feed +:+ rest →
  no_space tag = true →
  tag ≠ EmptyString →
  (_latest_tag e t).1 = Some tag.
Proof.
  intros Hrun Hok Hout Htag Hne.
  unfold _latest_tag, _git, _run, mbind, U_bind, mret, U_ret.
  rewrite Hrun, Hok. cbn [fst]. f_equal.
  unfold splitlines. rewrite Hout, (splitlines_first_line tag rest Htag).
  change (EmptyString +:+ tag) with tag.
  cbn [first_tag]. rewrite (strip_no_space tag Htag).
  by destruct tag.
Qed.

Lemma latest_tag_is_first_line_witness :
  (_latest_tag (healthy ("v1.1.0" +:+ line_feed +:+ "v1.0.0" +:+ line_feed)) []).1
  = Some "v1.1.0".
Proof.
  apply (latest_tag_is_first_line
           (healthy ("v1.1.0" +:+ line_feed +:+ "v1.0.0" +:+ line_feed)) []
           {| returncode := 0;
              stdout := "v1.1.0" +:+ line_feed +:+ "v1.0.0" +:+ line_feed;
              stderr := EmptyString |}
           "v1.1.0" ("v1.0.0" +:+ line_feed)).
  - reflexivity.
  - reflexivity.
  - reflexivity.
  - reflexivity.
  - discriminate.
Defined.
